(** * pybnb: priority queues and dispatcher proxy

    A shallow embedding of [pybnb/priority_queue.py] and
    [pybnb/dispatcher_proxy.py], and the properties their specification
    states about them.

    Part I gives the model: Python floats are the primitive IEEE binary64
    floats of Rocq, Python integers are [Z], exceptions are a [result]
    type, the heap of [heapq] is the very array algorithm of CPython's
    [heapq] module on a list, [sortedcontainers.SortedList] is a sorted
    list with bisection insert and remove, and the message-passing calls
    of the proxy are explicit state passing over a log of MPI calls.

    Part II proves the properties the specification states.  Part III
    covers the rest of the two files: the queue underneath the queues of
    nodes, the errors the methods raise, the failure of the handshake, and
    the control methods and the timer of the proxy. *)

From Stdlib Require Import ZArith Lia Floats Sorted.
From stdpp Require Import base list.

#[local] Open Scope Z_scope.
#[local] Set Warnings "-inexact-float".

(** ** Python exceptions *)

Inductive exn : Type :=
| AssertionError
| ValueError
| IndexError
| OverflowError
| MPIError.

Inductive result (A : Type) : Type :=
| Ok (a : A)
| Raise (e : exn).

Arguments Ok {A} a.
Arguments Raise {A} e.

#[global] Instance result_ret : MRet result := @Ok.

#[global] Instance result_bind : MBind result := fun A B k r =>
  match r with
  | Ok a => k a
  | Raise e => Raise e
  end.

(** [assert b] *)
Definition assert (b : bool) : result unit :=
  if b then Ok tt else Raise AssertionError.

(** ** Python numbers

    A Python [float] is an IEEE binary64 value; a Python [int] is an
    unbounded integer.  Storing an [int] into a [float] slot rounds to the
    nearest double, ties to even, and raises [OverflowError] when the
    integer is beyond the finite doubles. *)

Definition float_of_int (z : Z) : result float :=
  match binary_normalize prec emax z 0 false with
  | S754_infinity _ => Raise OverflowError
  | sf => Ok (SF2Prim sf)
  end.

(** [int(f)]: truncation toward zero; infinities raise [OverflowError] and
    NaN raises [ValueError]. *)
Definition int_of_float (f : float) : result Z :=
  match Prim2SF f with
  | S754_zero _ => Ok 0
  | S754_infinity _ => Raise OverflowError
  | S754_nan => Raise ValueError
  | S754_finite s m e =>
      let a := match e with
               | Z.neg p => Z.shiftr (Z.pos m) (Z.pos p)
               | _ => Z.shiftl (Z.pos m) e
               end in
      Ok (if s then - a else a)
  end.

(** A Python number as the queue classes pass it around: [-depth] is an
    [int], [-bound] is a [float]. *)
Inductive number : Type :=
| PyInt (z : Z)
| PyFloat (f : float).

Definition to_float (x : number) : result float :=
  match x with
  | PyInt z => float_of_int z
  | PyFloat f => Ok f
  end.

(** An integer is exactly representable when storing it into a double and
    reading it back as an integer gives the integer again. *)
Definition exact_int (z : Z) : bool :=
  match float_of_int z with
  | Ok f => match int_of_float f with
            | Ok z' => Z.eqb z' z
            | Raise _ => false
            end
  | Raise _ => false
  end.

(** ** [heapq]

    The binary heap of Python's standard library, as [heapq.py] has it:
    a list [heap] with [heap[k] <= heap[2*k+1]] and [heap[k] <= heap[2*k+2]],
    the least item at index 0.  The only comparison applied to items is
    [<], here [lt].  The loops move a hole through the list and write
    [newitem] at the end, as the library does.  The first argument of the
    loops bounds the number of iterations by the length of the path
    walked; it is never exhausted before the loop condition fails. *)

Module heapq.
Section Heapq.
#[local] Open Scope nat_scope.
Context {A : Type}.
Variable lt : A -> A -> bool.

(** [while pos > startpos: ...] of [_siftdown] *)
Fixpoint _siftdown_loop (n : nat) (heap : list A) (startpos pos : nat)
    (newitem : A) : list A :=
  match n with
  | S n' =>
      if Nat.ltb startpos pos then
        let parentpos := (pos - 1) / 2 in
        match heap !! parentpos with
        | Some parent =>
            if lt newitem parent
            then _siftdown_loop n' (<[pos := parent]> heap) startpos parentpos newitem
            else <[pos := newitem]> heap
        | None => <[pos := newitem]> heap
        end
      else <[pos := newitem]> heap
  | O => <[pos := newitem]> heap
  end.

Definition _siftdown (heap : list A) (startpos pos : nat) : list A :=
  match heap !! pos with
  | Some newitem => _siftdown_loop pos heap startpos pos newitem
  | None => heap
  end.

(** [while childpos < endpos: ...] of [_siftup]: bubbles the smaller child
    up until a leaf is hit; returns the list and the position of the leaf. *)
Fixpoint _siftup_loop (n : nat) (heap : list A) (endpos pos : nat) : list A * nat :=
  match n with
  | S n' =>
      let childpos := 2 * pos + 1 in
      if Nat.ltb childpos endpos then
        let rightpos := childpos + 1 in
        let childpos :=
          match heap !! childpos, heap !! rightpos with
          | Some l, Some r =>
              if Nat.ltb rightpos endpos && negb (lt l r) then rightpos else childpos
          | _, _ => childpos
          end in
        match heap !! childpos with
        | Some c => _siftup_loop n' (<[pos := c]> heap) endpos childpos
        | None => (heap, pos)
        end
      else (heap, pos)
  | O => (heap, pos)
  end.

Definition _siftup (heap : list A) (pos : nat) : list A :=
  let endpos := length heap in
  let startpos := pos in
  match heap !! pos with
  | Some newitem =>
      let '(heap, pos) := _siftup_loop endpos heap endpos pos in
      _siftdown (<[pos := newitem]> heap) startpos pos
  | None => heap
  end.

Definition heappush (heap : list A) (item : A) : list A :=
  _siftdown (heap ++ [item]) 0 (length heap).

(** [heappop] on an empty heap raises [IndexError]; the queue classes only
    call it on a non-empty heap, and [None] stands for the exception. *)
Definition heappop (heap : list A) : option (A * list A) :=
  match last heap with
  | None => None
  | Some lastelt =>
      let heap := removelast heap in
      match heap with
      | returnitem :: _ => Some (returnitem, _siftup (<[0 := lastelt]> heap) 0)
      | [] => Some (lastelt, heap)
      end
  end.

(** [for i in reversed(range(n//2)): _siftup(x, i)] *)
Definition heapify (x : list A) : list A :=
  let n := length x in
  foldl _siftup x (reverse (seq 0 (n / 2))).

End Heapq.
End heapq.

(** ** [sortedcontainers.SortedList]

    The list is kept in ascending order.  [add] inserts at the position
    [bisect_right] finds, after every item that is not greater; [remove]
    looks at the position [bisect_left] finds, the first item that is not
    less, deletes it when it equals the value and raises [ValueError]
    otherwise.  [lt] is Python's [<] and [eqb] Python's [==] on the items. *)

Module SortedList.
Section SortedList.
Context {A : Type}.
Variable lt : A -> A -> bool.
Variable eqb : A -> A -> bool.

Fixpoint add (l : list A) (value : A) : list A :=
  match l with
  | [] => [value]
  | y :: l' => if lt value y then value :: y :: l' else y :: add l' value
  end.

Fixpoint remove (l : list A) (value : A) : result (list A) :=
  match l with
  | [] => Raise ValueError
  | y :: l' =>
      if lt y value then l'' ← remove l' value; Ok (y :: l'')
      else if eqb y value then Ok l'
      else Raise ValueError
  end.

End SortedList.
End SortedList.

(** ** Collaborators that are not among the sources *)

(** Modelled from the spec: [pybnb.common] is not among the sources; the
    convergence sense is one of two values, [minimize] and [maximize]. *)
Inductive Sense : Type :=
| minimize
| maximize.

#[global] Instance Sense_eq_dec : EqDecision Sense.
Proof. solve_decision. Defined.

(** Modelled from the spec: [pybnb.convergence_checker.ConvergenceChecker]
    is not among the sources.  The queues read its [sense] and call
    [objective_can_improve(objective, bound)], which decides whether a
    bound can still improve an incumbent; both are taken as given. *)
Record ConvergenceChecker : Type := {
  sense : Sense;
  objective_can_improve : float -> float -> bool
}.

(** Modelled from the spec: [pybnb.node.Node] is not among the sources.
    A node is a numeric buffer with the slots [best_objective], [bound],
    [tree_depth] (an integer) and [queue_priority] (a double, set or not
    yet set), followed by the user state.  [_insert_queue_priority] stores
    a number into the double slot of the buffer it is given; the buffer is
    the caller's own object, so the model returns the buffer as the call
    leaves it. *)
Module Node.

Record data : Type := {
  best_objective : float;
  bound : float;
  tree_depth : Z;
  queue_priority : option float;
  user_state : list float
}.

Definition _extract_bound (d : data) : float := bound d.

Definition _extract_tree_depth (d : data) : Z := tree_depth d.

Definition _has_queue_priority (d : data) : bool :=
  match queue_priority d with
  | Some _ => true
  | None => false
  end.

Definition _extract_queue_priority (d : data) : result float :=
  match queue_priority d with
  | Some p => Ok p
  | None => Raise ValueError
  end.

Definition _insert_queue_priority (d : data) (priority : number) : result data :=
  p ← to_float priority;
  Ok {| best_objective := best_objective d;
        bound := bound d;
        tree_depth := tree_depth d;
        queue_priority := Some p;
        user_state := user_state d |}.

End Node.

(** ** [priority_queue.py] *)

(** Python's [<] and [==] on the triples [(key, cnt, item)] the queues
    store: the first components that differ under [==] decide.  The
    counters of two triples that meet in one container differ, so the
    comparison never reaches the items (and two triples with one counter
    hold one and the same item object). *)
Definition tuple_lt {item : Type} (x y : float * Z * item) : bool :=
  let '(k1, c1, _) := x in
  let '(k2, c2, _) := y in
  if PrimFloat.eqb k1 k2 then Z.ltb c1 c2 else PrimFloat.ltb k1 k2.

Definition tuple_eqb {item : Type} (x y : float * Z * item) : bool :=
  let '(k1, c1, _) := x in
  let '(k2, c2, _) := y in
  PrimFloat.eqb k1 k2 && Z.eqb c1 c2.

Module _NoThreadingMaxPriorityFirstQueue.
Section Queue.
Context {item : Type}.

Record t : Type := {
  _count : Z;
  _heap : list (float * Z * item)
}.

Definition __init__ : t := {| _count := 0; _heap := [] |}.

Definition size (self : t) : Z := Z.of_nat (length (_heap self)).

Definition put (self : t) (it : item) (priority : float) : Z * t :=
  let cnt := _count self in
  (cnt, {| _count := _count self + 1;
           _heap := heapq.heappush tuple_lt (_heap self) (PrimFloat.opp priority, cnt, it) |}).

Definition get (self : t) : option item * t :=
  if 0 <? size self then
    match heapq.heappop tuple_lt (_heap self) with
    | Some ((_, _, it), heap) => (Some it, {| _count := _count self; _heap := heap |})
    | None => (None, self)
    end
  else (None, self).

Definition next (self : t) : option item :=
  if 0 <? size self then
    match _heap self with
    | (_, _, it) :: _ => Some it
    | [] => None
    end
  else None.

(** The loop of [filter]: the triples that pass [func] in the order of the
    heap list, and the triples removed, in that order too. *)
Fixpoint filter_loop (func : float -> item -> bool) (heap : list (float * Z * item))
    : list (float * Z * item) * list (Z * item) :=
  match heap with
  | [] => ([], [])
  | (priority, cnt, it) :: heap' =>
      let '(heap_new, removed) := filter_loop func heap' in
      if func (PrimFloat.opp priority) it
      then ((priority, cnt, it) :: heap_new, removed)
      else (heap_new, (cnt, it) :: removed)
  end.

(** [filter(func, include_counters=True)] *)
Definition filter_counters (self : t) (func : float -> item -> bool)
    : list (Z * item) * t :=
  let '(heap_new, removed) := filter_loop func (_heap self) in
  (removed, {| _count := _count self; _heap := heapq.heapify tuple_lt heap_new |}).

(** [filter(func)]: the same loop, the removed items without counters. *)
Definition filter (self : t) (func : float -> item -> bool) : list item * t :=
  let '(removed, self) := filter_counters self func in
  (removed.*2, self).

Definition items (self : t) : list item := (_heap self).*2.

End Queue.
Arguments t : clear implicits.
End _NoThreadingMaxPriorityFirstQueue.

Module WorstBoundFirstPriorityQueue.
Import _NoThreadingMaxPriorityFirstQueue.

Record t : Type := {
  _best_objective : float;
  _converger : ConvergenceChecker;
  _queue : _NoThreadingMaxPriorityFirstQueue.t Node.data
}.

Definition __init__ (best_objective : float) (converger : ConvergenceChecker) : t :=
  {| _best_objective := best_objective;
     _converger := converger;
     _queue := _NoThreadingMaxPriorityFirstQueue.__init__ |}.

Definition size (self : t) : Z := _NoThreadingMaxPriorityFirstQueue.size (_queue self).

(** [put] returns its boolean, the queue, and the node as the call leaves
    it: the priority is written into the caller's node. *)
Definition put (self : t) (data : Node.data) : result (bool * t * Node.data) :=
  let bound := Node._extract_bound data in
  if objective_can_improve (_converger self) (_best_objective self) bound then
    let priority :=
      if decide (sense (_converger self) = minimize)
      then PrimFloat.opp bound
      else bound in
    data ← Node._insert_queue_priority data (PyFloat priority);
    let '(_, queue) := _NoThreadingMaxPriorityFirstQueue.put (_queue self) data priority in
    Ok (true,
        {| _best_objective := _best_objective self;
           _converger := _converger self;
           _queue := queue |},
        data)
  else Ok (false, self, data).

Definition get (self : t) : option Node.data * t :=
  let '(data, queue) := _NoThreadingMaxPriorityFirstQueue.get (_queue self) in
  (data,
   {| _best_objective := _best_objective self;
      _converger := _converger self;
      _queue := queue |}).

Definition bound (self : t) : result (option float) :=
  if 0 <? _NoThreadingMaxPriorityFirstQueue.size (_queue self) then
    match _NoThreadingMaxPriorityFirstQueue.next (_queue self) with
    | Some data =>
        let bound := Node._extract_bound data in
        priority ← Node._extract_queue_priority data;
        _ ← (if decide (sense (_converger self) = minimize)
             then assert (PrimFloat.eqb bound (PrimFloat.opp priority))
             else assert (PrimFloat.eqb bound priority));
        Ok (Some bound)
    | None => Ok None
    end
  else Ok None.

Definition update_for_best_objective (self : t) (best_objective : float)
    : list Node.data * t :=
  let '(removed, queue) :=
    _NoThreadingMaxPriorityFirstQueue.filter (_queue self)
      (fun _ data_ =>
         objective_can_improve (_converger self) best_objective
           (Node._extract_bound data_)) in
  (removed,
   {| _best_objective := best_objective;
      _converger := _converger self;
      _queue := queue |}).

Definition items (self : t) : list Node.data :=
  _NoThreadingMaxPriorityFirstQueue.items (_queue self).

End WorstBoundFirstPriorityQueue.

Module CustomPriorityQueue.
Import _NoThreadingMaxPriorityFirstQueue.

Record t : Type := {
  _best_objective : float;
  _converger : ConvergenceChecker;
  _queue : _NoThreadingMaxPriorityFirstQueue.t Node.data;
  _sorted_by_bound : list (float * Z * Node.data)
}.

Definition __init__ (best_objective : float) (converger : ConvergenceChecker) : t :=
  {| _best_objective := best_objective;
     _converger := converger;
     _queue := _NoThreadingMaxPriorityFirstQueue.__init__;
     _sorted_by_bound := [] |}.

Definition size (self : t) : Z := _NoThreadingMaxPriorityFirstQueue.size (_queue self).

(** The key under which a node is filed in [_sorted_by_bound]. *)
Definition signed_bound (converger : ConvergenceChecker) (bound : float) : float :=
  if decide (sense converger = maximize) then PrimFloat.opp bound else bound.

Definition put (self : t) (data : Node.data) : result (bool * t) :=
  let bound := Node._extract_bound data in
  _ ← assert (Node._has_queue_priority data);
  priority ← Node._extract_queue_priority data;
  if objective_can_improve (_converger self) (_best_objective self) bound then
    let '(cnt, queue) := _NoThreadingMaxPriorityFirstQueue.put (_queue self) data priority in
    Ok (true,
        {| _best_objective := _best_objective self;
           _converger := _converger self;
           _queue := queue;
           _sorted_by_bound :=
             SortedList.add tuple_lt (_sorted_by_bound self)
               (signed_bound (_converger self) bound, cnt, data) |})
  else Ok (false, self).

Definition get (self : t) : result (option Node.data * t) :=
  if 0 <? _NoThreadingMaxPriorityFirstQueue.size (_queue self) then
    match _heap (_queue self) with
    | (_, cnt, data_) :: _ =>
        match _NoThreadingMaxPriorityFirstQueue.get (_queue self) with
        | (Some data, queue) =>
            let bound := Node._extract_bound data in
            sorted ← SortedList.remove tuple_lt tuple_eqb (_sorted_by_bound self)
                       (signed_bound (_converger self) bound, cnt, data);
            Ok (Some data,
                {| _best_objective := _best_objective self;
                   _converger := _converger self;
                   _queue := queue;
                   _sorted_by_bound := sorted |})
        | (None, _) => Raise AssertionError
        end
    | [] => Raise IndexError
    end
  else Ok (None, self).

Definition bound (self : t) : result (option float) :=
  _ ← assert (_NoThreadingMaxPriorityFirstQueue.size (_queue self)
              =? Z.of_nat (length (_sorted_by_bound self)));
  if 0 <? _NoThreadingMaxPriorityFirstQueue.size (_queue self) then
    match _sorted_by_bound self with
    | (_, _, data) :: _ => Ok (Some (Node._extract_bound data))
    | [] => Raise IndexError
    end
  else Ok None.

(** The loop of [update_for_best_objective] over the pairs [filter]
    returned. *)
Fixpoint update_loop (converger : ConvergenceChecker)
    (pairs : list (Z * Node.data)) (sorted : list (float * Z * Node.data))
    : result (list Node.data * list (float * Z * Node.data)) :=
  match pairs with
  | [] => Ok ([], sorted)
  | (cnt, data) :: pairs' =>
      let bound := Node._extract_bound data in
      sorted ← SortedList.remove tuple_lt tuple_eqb sorted
                 (signed_bound converger bound, cnt, data);
      '(removed, sorted) ← update_loop converger pairs' sorted;
      Ok (data :: removed, sorted)
  end.

Definition update_for_best_objective (self : t) (best_objective : float)
    : result (list Node.data * t) :=
  let '(pairs, queue) :=
    _NoThreadingMaxPriorityFirstQueue.filter_counters (_queue self)
      (fun _ data_ =>
         objective_can_improve (_converger self) best_objective
           (Node._extract_bound data_)) in
  '(removed, sorted) ← update_loop (_converger self) pairs (_sorted_by_bound self);
  Ok (removed,
      {| _best_objective := best_objective;
         _converger := _converger self;
         _queue := queue;
         _sorted_by_bound := sorted |}).

Definition items (self : t) : list Node.data :=
  _NoThreadingMaxPriorityFirstQueue.items (_queue self).

End CustomPriorityQueue.

(** [BreadthFirstPriorityQueue] and [DepthFirstPriorityQueue] inherit
    everything but [put] from [CustomPriorityQueue]. *)
Module BreadthFirstPriorityQueue.

Definition put (self : CustomPriorityQueue.t) (data : Node.data)
    : result (bool * CustomPriorityQueue.t * Node.data) :=
  let depth := Node._extract_tree_depth data in
  _ ← assert (0 <=? depth);
  data ← Node._insert_queue_priority data (PyInt (- depth));
  '(b, self) ← CustomPriorityQueue.put self data;
  Ok (b, self, data).

End BreadthFirstPriorityQueue.

Module DepthFirstPriorityQueue.

Definition put (self : CustomPriorityQueue.t) (data : Node.data)
    : result (bool * CustomPriorityQueue.t * Node.data) :=
  let depth := Node._extract_tree_depth data in
  _ ← assert (0 <=? depth);
  data ← Node._insert_queue_priority data (PyInt depth);
  '(b, self) ← CustomPriorityQueue.put self data;
  Ok (b, self, data).

End DepthFirstPriorityQueue.

(** ** Message passing

    What the proxy sees of MPI.  A communicator is the list of the world
    ranks of its members, in the order of their ranks in it, together with
    the rank of the calling process.  A process keeps a log of the MPI
    calls it makes and the list of the messages that are pending for it,
    oldest first.  A collective call returns what its definition gives on
    the objects the members pass, listed by rank. *)

Module MPI.

Record Comm : Type := {
  group : list Z;
  rank : Z
}.

Definition size (c : Comm) : Z := Z.of_nat (length (group c)).

(** The communicator of [n] processes in which the caller has rank [r]. *)
Definition world (n : nat) (r : Z) : Comm :=
  {| group := Z.of_nat <$> seq 0 n; rank := r |}.

Record message : Type := {
  msg_source : Z;
  msg_tag : Z;
  msg_error : Z;
  msg_data : list float
}.

Record Status : Type := {
  status_source : Z;
  status_tag : Z;
  status_error : Z
}.

Inductive call : Type :=
| CallAllreduce (c : Comm)
| CallSplit (c : Comm) (color : Z)
| CallBcast (c : Comm) (root : Z)
| CallSend (c : Comm) (buf : list float) (dest tag : Z)
| CallProbe (c : Comm)
| CallRecv (c : Comm) (source tag : Z).

Record state : Type := {
  calls : list call;
  inbox : list message
}.

(** A call returns a value and the state it leaves, raises, or blocks for
    ever (a probe with no message pending). *)
Inductive outcome (A : Type) : Type :=
| Return (a : A) (s : state)
| Throw (e : exn)
| Block.

Arguments Return {A} a s.
Arguments Throw {A} e.
Arguments Block {A}.

Definition M (A : Type) : Type := state -> outcome A.

#[global] Instance M_ret : MRet M := fun A a s => Return a s.

#[global] Instance M_bind : MBind M := fun A B k m s =>
  match m s with
  | Return a s' => k a s'
  | Throw e => Throw e
  | Block => Block
  end.

Definition lift {A : Type} (r : result A) : M A := fun s =>
  match r with
  | Ok a => Return a s
  | Raise e => Throw e
  end.

Definition log (c : call) : M unit := fun s =>
  Return tt {| calls := calls s ++ [c]; inbox := inbox s |}.

(** [comm.allreduce(sendobj, op)]: [op] folded over what the ranks pass. *)
Definition allreduce {A : Type} (c : Comm) (sendobjs : list A) (op : A -> A -> A) : M A :=
  _ ← log (CallAllreduce c);
  match sendobjs with
  | x :: rest => mret (foldl op x rest)
  | [] => lift (Raise MPIError)
  end.

Definition SUM (x y : Z) : Z := x + y.

(** The maximum and the lowest rank that holds it. *)
Definition MAXLOC (x y : Z * Z) : Z * Z :=
  let '(u, i) := x in
  let '(v, j) := y in
  if u =? v then (u, Z.min i j)
  else if u <? v then (v, j)
  else (u, i).

(** [comm.Split(color)]: the members that pass the caller's colour, in
    the order of their ranks. *)
Definition Split_group (c : Comm) (colors : list Z) (color : Z) : list Z :=
  (filter (fun gc => gc.2 = color) (zip (group c) colors)).*1.

Definition Split_rank (c : Comm) (colors : list Z) (color : Z) : Z :=
  Z.of_nat (length (filter (fun x => x = color) (take (Z.to_nat (rank c)) colors))).

Definition Split (c : Comm) (colors : list Z) : M Comm :=
  match colors !! Z.to_nat (rank c) with
  | Some color =>
      _ ← log (CallSplit c color);
      mret {| group := Split_group c colors color; rank := Split_rank c colors color |}
  | None => lift (Raise MPIError)
  end.

(** [comm.bcast(obj, root)]: what the member of rank [root] passes. *)
Definition bcast {A : Type} (c : Comm) (objs : list A) (root : Z) : M A :=
  _ ← log (CallBcast c root);
  if (0 <=? root) && (root <? size c) then
    match objs !! Z.to_nat root with
    | Some obj => mret obj
    | None => lift (Raise MPIError)
    end
  else lift (Raise MPIError).

(** [comm.Send([data, DOUBLE], dest, tag)] *)
Definition Send (c : Comm) (buf : list float) (dest tag : Z) : M unit :=
  log (CallSend c buf dest tag).

(** [comm.Probe(status)]: waits for a message and describes the oldest
    pending one, which stays pending. *)
Definition Probe (c : Comm) : M Status := fun s =>
  match inbox s with
  | m :: _ =>
      Return {| status_source := msg_source m;
                status_tag := msg_tag m;
                status_error := msg_error m |}
             {| calls := calls s ++ [CallProbe c]; inbox := inbox s |}
  | [] => Block
  end.

(** The oldest pending message of the given source and tag, and the
    others. *)
Fixpoint take_message (source tag : Z) (l : list message)
    : option (message * list message) :=
  match l with
  | [] => None
  | m :: l' =>
      if (msg_source m =? source) && (msg_tag m =? tag) then Some (m, l')
      else match take_message source tag l' with
           | Some (m', l'') => Some (m', m :: l'')
           | None => None
           end
  end.

(** Modelled from the spec: [pybnb.mpi_utils.recv_data] is not among the
    sources; it receives the message a status describes and returns its
    payload of doubles. *)
Definition recv_data (c : Comm) (status : Status) : M (list float) := fun s =>
  match take_message (status_source status) (status_tag status) (inbox s) with
  | Some (m, rest) =>
      Return (msg_data m)
             {| calls := calls s ++ [CallRecv c (status_source status) (status_tag status)];
                inbox := rest |}
  | None => Block
  end.

End MPI.

(** ** [dispatcher_proxy.py] *)

Module ProcessType.
Definition worker : Z := 0.
Definition dispatcher : Z := 1.
End ProcessType.

Module DispatcherAction.
Definition update : Z := 111.
Definition solve_finished : Z := 211.
Definition barrier : Z := 311.
Definition finalize : Z := 411.
Definition log_info : Z := 511.
Definition log_warning : Z := 611.
Definition log_debug : Z := 711.
Definition log_error : Z := 811.
End DispatcherAction.

Module DispatcherResponse.
Definition work : Z := 1111.
Definition nowork : Z := 2111.
End DispatcherResponse.

Module DispatcherProxy.
Import MPI.

(** [_init(comm, ptype)].  [peers] lists, by rank in [comm], the process
    type every other member passes to its own call of [_init]; the entry
    of the caller is the [ptype] it passes itself.  The assertions on the
    constants of [ProcessType] and on MPI being initialised hold by
    construction and are not repeated. *)
Definition _init (comm : Comm) (peers : list Z) (ptype : Z) : M (Z * Z * Comm) :=
  let ptypes := <[Z.to_nat (rank comm) := ptype]> peers in
  let ranks := Z.of_nat <$> seq 0 (length ptypes) in
  _ ← lift (assert ((ptype =? ProcessType.worker) || (ptype =? ProcessType.dispatcher)));
  types_sum ← allreduce comm ptypes SUM;
  _ ← lift (assert (types_sum =? ProcessType.dispatcher));
  '(dptype, drank) ← allreduce comm (zip ptypes ranks) MAXLOC;
  _ ← lift (assert (dptype =? ProcessType.dispatcher));
  _ ← lift (if ptype =? ProcessType.dispatcher
            then assert (drank =? rank comm)
            else assert (negb (drank =? rank comm)));
  let root_rank := size comm - 1 in
  let root_rank := if drank =? root_rank then root_rank - 1 else root_rank in
  wcomm ← Split comm ((fun r => if negb (r =? drank) then 0 else 1) <$> ranks);
  mret (drank, root_rank, wcomm).

Record t : Type := {
  comm : Comm;
  worker_comm : option Comm;
  dispatcher_rank : Z;
  root_worker_comm_rank : Z;
  root_worker_worker_comm_rank : option Z
}.

(** [__init__] up to its broadcast: the three values [_init] returns and
    the object the process passes to [bcast]. *)
Definition __init___head (comm : Comm) (peers : list Z)
    : M (Z * Z * Comm * option Z) :=
  '(dispatcher_rank, root_worker_comm_rank, worker_comm) ←
    _init comm peers ProcessType.worker;
  let root_worker_worker_comm_rank := None in
  let root_worker_worker_comm_rank :=
    if rank comm =? root_worker_comm_rank
    then Some (rank worker_comm)
    else root_worker_worker_comm_rank in
  mret (dispatcher_rank, root_worker_comm_rank, worker_comm,
        root_worker_worker_comm_rank).

(** What the member of rank [j] passes to the broadcast of [__init__]:
    every worker runs [__init__]; the dispatcher, whose side is not among
    the sources, is not the root of the broadcast and is taken to pass
    [None]. *)
Definition passed_to_bcast (comm : Comm) (peers : list Z) (j : Z) : option Z :=
  match __init___head {| group := group comm; rank := j |} peers
          {| calls := []; inbox := [] |} with
  | Return (_, _, _, obj) _ => obj
  | _ => None
  end.

(** [__init__(comm)].  The timer around the body only accumulates
    wall-clock time and is left out. *)
Definition __init__ (comm : Comm) (peers : list Z) : M t :=
  '(dispatcher_rank, root_worker_comm_rank, worker_comm,
    root_worker_worker_comm_rank) ← __init___head comm peers;
  root_worker_worker_comm_rank ←
    bcast comm
      (passed_to_bcast comm peers <$> (Z.of_nat <$> seq 0 (length (group comm))))
      root_worker_comm_rank;
  mret {| comm := comm;
          worker_comm := Some worker_comm;
          dispatcher_rank := dispatcher_rank;
          root_worker_comm_rank := root_worker_comm_rank;
          root_worker_worker_comm_rank := root_worker_worker_comm_rank |}.

(** [data[i]] *)
Definition getitem (data : list float) (i : nat) : result float :=
  match data !! i with
  | Some x => Ok x
  | None => Raise IndexError
  end.

(** The second loop of [_update]: for each node state its length, then
    its doubles. *)
Fixpoint pack_loop (node_states : list (list float)) (data : list float) (pos : nat)
    : result (list float) :=
  match node_states with
  | [] => Ok data
  | udata :: node_states' =>
      len ← float_of_int (Z.of_nat (length udata));
      let data := <[pos := len]> data in
      let pos := (pos + 1)%nat in
      let data := list_inserts pos udata data in
      let pos := (pos + length udata)%nat in
      pack_loop node_states' data pos
  end.

(** The buffer [_update] builds and sends.  [numpy.empty] returns an
    array whose content is whatever the memory holds, here [junk].  A
    double compared with an integer by [==] is compared with the integer
    converted to a double; [int(data[2]) == explored_nodes_count] is the
    exact test. *)
Definition pack (junk : nat -> float) (best_objective previous_bound : float)
    (explored_nodes_count : Z) (node_states : list (list float))
    : result (list float) :=
  let size := 4%nat in
  let node_states_size := length node_states in
  let size := foldl (fun size udata => (size + 1 + length udata)%nat) size node_states in
  let data := junk <$> seq 0 size in
  let data := <[0%nat := best_objective]> data in
  x ← getitem data 0;
  _ ← assert (PrimFloat.eqb x best_objective);
  let data := <[1%nat := previous_bound]> data in
  x ← getitem data 1;
  _ ← assert (PrimFloat.eqb x previous_bound);
  e ← float_of_int explored_nodes_count;
  let data := <[2%nat := e]> data in
  x ← getitem data 2;
  e' ← float_of_int explored_nodes_count;
  _ ← assert (PrimFloat.eqb x e');
  i ← int_of_float x;
  _ ← assert (i =? explored_nodes_count);
  k ← float_of_int (Z.of_nat node_states_size);
  let data := <[3%nat := k]> data in
  x ← getitem data 3;
  k' ← float_of_int (Z.of_nat node_states_size);
  _ ← assert (PrimFloat.eqb x k');
  i ← int_of_float x;
  _ ← assert (i =? Z.of_nat node_states_size);
  if (0 <? node_states_size)%nat
  then pack_loop node_states data 4
  else Ok data.

Section Update.
(** [Node._extract_best_objective] on a received node state: the slot it
    reads is fixed in [pybnb.node], which is not among the sources. *)
Variable _extract_best_objective : list float -> float.

(** [_update]; [update] is [_update] under the timer. *)
Definition _update (self : t) (junk : nat -> float)
    (best_objective previous_bound : float) (explored_nodes_count : Z)
    (node_states : list (list float)) : M (float * option (list float)) :=
  data ← lift (pack junk best_objective previous_bound explored_nodes_count node_states);
  _ ← Send (comm self) data (dispatcher_rank self) DispatcherAction.update;
  status ← Probe (comm self);
  _ ← lift (assert (status_error status =? 0));
  let tag := status_tag status in
  if tag =? DispatcherResponse.nowork then
    data ← recv_data (comm self) status;
    x ← lift (getitem data 0);
    mret (x, None)
  else
    _ ← lift (assert (tag =? DispatcherResponse.work));
    state ← recv_data (comm self) status;
    let best_objective := _extract_best_objective state in
    mret (best_objective, Some state).

Definition update := _update.

End Update.
End DispatcherProxy.
(** * Part II: properties *)

(** ** The order of the doubles *)

Section FloatOrder.

Definition sf_nan (x : spec_float) : bool :=
  match x with
  | S754_nan => true
  | _ => false
  end.

Ltac cmp_cases :=
  repeat match goal with
  | |- context [Z.compare ?a ?b] => destruct (Z.compare_spec a b)
  | H : context [Z.compare ?a ?b] |- _ => destruct (Z.compare_spec a b)
  | |- context [Pos.compare_cont Eq ?a ?b] =>
      change (Pos.compare_cont Eq a b) with (Pos.compare a b);
      destruct (Pos.compare_spec a b)
  | H : context [Pos.compare_cont Eq ?a ?b] |- _ =>
      change (Pos.compare_cont Eq a b) with (Pos.compare a b) in H;
      destruct (Pos.compare_spec a b)
  end.

Ltac sf_cases x := destruct x as [[]|[]| |[] ? ?].
Ltac sf_solve := simpl; try done; cmp_cases; simpl; try done; try lia.

Lemma SFltb_trans x y z : SFltb x y = true -> SFltb y z = true -> SFltb x z = true.
Proof. unfold SFltb. sf_cases x; sf_cases y; sf_cases z; sf_solve. Qed.

Lemma SFltb_asym x y : SFltb x y = true -> SFltb y x = false.
Proof. unfold SFltb. sf_cases x; sf_cases y; sf_solve. Qed.

Lemma SFltb_eqb x y : SFltb x y = true -> SFeqb x y = false.
Proof. unfold SFltb, SFeqb. sf_cases x; sf_cases y; sf_solve. Qed.

Lemma SFeqb_sym x y : SFeqb x y = SFeqb y x.
Proof. unfold SFeqb. sf_cases x; sf_cases y; sf_solve. Qed.

Lemma SFeqb_trans x y z : SFeqb x y = true -> SFeqb y z = true -> SFeqb x z = true.
Proof. unfold SFeqb. sf_cases x; sf_cases y; sf_cases z; sf_solve. Qed.

Lemma SFeqb_ltb_l x y z : SFeqb x y = true -> SFltb x z = SFltb y z.
Proof. unfold SFltb, SFeqb. sf_cases x; sf_cases y; sf_cases z; sf_solve. Qed.

Lemma SFeqb_ltb_r x y z : SFeqb x y = true -> SFltb z x = SFltb z y.
Proof. unfold SFltb, SFeqb. sf_cases x; sf_cases y; sf_cases z; sf_solve. Qed.

Lemma SFeqb_refl x : sf_nan x = false -> SFeqb x x = true.
Proof. unfold SFeqb. sf_cases x; sf_solve. Qed.

Lemma SFeqb_nan x y : SFeqb x y = true -> sf_nan x = false /\ sf_nan y = false.
Proof. unfold SFeqb. sf_cases x; sf_cases y; sf_solve. Qed.

Lemma SFltb_nan x y : SFltb x y = true -> sf_nan x = false /\ sf_nan y = false.
Proof. unfold SFltb. sf_cases x; sf_cases y; sf_solve. Qed.

Lemma SF_trichotomy x y :
  sf_nan x = false -> sf_nan y = false ->
  SFltb x y = true \/ SFeqb x y = true \/ SFltb y x = true.
Proof. unfold SFltb, SFeqb. sf_cases x; sf_cases y; sf_solve; auto. Qed.

Lemma SFopp_ltb x y : SFltb (SFopp x) (SFopp y) = SFltb y x.
Proof. unfold SFltb. sf_cases x; sf_cases y; sf_solve. Qed.

Lemma SFopp_eqb x y : SFeqb (SFopp x) (SFopp y) = SFeqb x y.
Proof. unfold SFeqb. sf_cases x; sf_cases y; sf_solve. Qed.

Lemma SFopp_involutive x : SFopp (SFopp x) = x.
Proof. by sf_cases x. Qed.

Lemma SFopp_nan x : sf_nan (SFopp x) = sf_nan x.
Proof. by sf_cases x. Qed.

Lemma SFleb_ltb x y :
  sf_nan x = false -> sf_nan y = false -> SFleb x y = negb (SFltb y x).
Proof. unfold SFleb, SFltb. sf_cases x; sf_cases y; sf_solve. Qed.

#[local] Open Scope float_scope.

Lemma is_nan_spec (x : float) : is_nan x = sf_nan (Prim2SF x).
Proof.
  unfold is_nan. rewrite FloatAxioms.eqb_spec.
  destruct (sf_nan (Prim2SF x)) eqn:H.
  - destruct (Prim2SF x); try done.
  - by rewrite (SFeqb_refl _ H).
Qed.

Lemma float_ltb_trans x y z : (x <? y) = true -> (y <? z) = true -> (x <? z) = true.
Proof. rewrite !FloatAxioms.ltb_spec. apply SFltb_trans. Qed.

Lemma float_ltb_asym x y : (x <? y) = true -> (y <? x) = false.
Proof. rewrite !FloatAxioms.ltb_spec. apply SFltb_asym. Qed.

Lemma float_ltb_eqb x y : (x <? y) = true -> (x =? y) = false.
Proof. rewrite FloatAxioms.ltb_spec, FloatAxioms.eqb_spec. apply SFltb_eqb. Qed.

Lemma float_eqb_sym x y : (x =? y) = (y =? x).
Proof. rewrite !FloatAxioms.eqb_spec. apply SFeqb_sym. Qed.

Lemma float_eqb_trans x y z : (x =? y) = true -> (y =? z) = true -> (x =? z) = true.
Proof. rewrite !FloatAxioms.eqb_spec. apply SFeqb_trans. Qed.

Lemma float_eqb_ltb_l x y z : (x =? y) = true -> (x <? z) = (y <? z).
Proof. rewrite !FloatAxioms.ltb_spec, FloatAxioms.eqb_spec. apply SFeqb_ltb_l. Qed.

Lemma float_eqb_ltb_r x y z : (x =? y) = true -> (z <? x) = (z <? y).
Proof. rewrite !FloatAxioms.ltb_spec, FloatAxioms.eqb_spec. apply SFeqb_ltb_r. Qed.

Lemma float_eqb_refl x : is_nan x = false -> (x =? x) = true.
Proof. unfold is_nan. by destruct (x =? x). Qed.

Lemma float_eqb_nan x y : (x =? y) = true -> is_nan x = false /\ is_nan y = false.
Proof. rewrite FloatAxioms.eqb_spec, !is_nan_spec. apply SFeqb_nan. Qed.

Lemma float_ltb_nan x y : (x <? y) = true -> is_nan x = false /\ is_nan y = false.
Proof. rewrite FloatAxioms.ltb_spec, !is_nan_spec. apply SFltb_nan. Qed.

Lemma float_trichotomy x y :
  is_nan x = false -> is_nan y = false ->
  (x <? y) = true \/ (x =? y) = true \/ (y <? x) = true.
Proof. rewrite !is_nan_spec, !FloatAxioms.ltb_spec, FloatAxioms.eqb_spec. apply SF_trichotomy. Qed.

Lemma float_opp_ltb x y : (- x <? - y) = (y <? x).
Proof. rewrite !FloatAxioms.ltb_spec, !FloatAxioms.opp_spec. apply SFopp_ltb. Qed.

Lemma float_opp_eqb x y : (- x =? - y) = (x =? y).
Proof. rewrite !FloatAxioms.eqb_spec, !FloatAxioms.opp_spec. apply SFopp_eqb. Qed.

Lemma float_opp_involutive x : - - x = x.
Proof. apply Prim2SF_inj. rewrite !FloatAxioms.opp_spec. apply SFopp_involutive. Qed.

Lemma float_opp_nan x : is_nan (- x) = is_nan x.
Proof. rewrite !is_nan_spec, FloatAxioms.opp_spec. apply SFopp_nan. Qed.

Lemma float_leb_ltb x y :
  is_nan x = false -> is_nan y = false -> (x <=? y) = negb (y <? x).
Proof.
  rewrite !is_nan_spec, FloatAxioms.leb_spec, FloatAxioms.ltb_spec. apply SFleb_ltb.
Qed.

End FloatOrder.

(** ** Integers stored as doubles *)

Lemma digits2_pos_iter p k : digits2_pos (Pos.iter xO p k) = (digits2_pos p + k)%positive.
Proof.
  induction k using Pos.peano_ind.
  - simpl. lia.
  - rewrite Pos.iter_succ. simpl. rewrite IHk. lia.
Qed.

Lemma iter_xO_val p k : Z.pos (Pos.iter xO p k) = Z.pos p * 2 ^ Z.pos k.
Proof.
  induction k using Pos.peano_ind.
  - simpl. lia.
  - rewrite Pos.iter_succ, Pos2Z.inj_xO, IHk, Pos2Z.inj_succ, Z.pow_succ_r; lia.
Qed.

Lemma digits2_pos_bounds p : 2 ^ (Z.pos (digits2_pos p) - 1) <= Z.pos p < 2 ^ Z.pos (digits2_pos p).
Proof.
  induction p as [p IH|p IH|]; simpl digits2_pos.
  - rewrite Pos2Z.inj_succ. replace (Z.succ (Z.pos (digits2_pos p)) - 1) with (Z.succ (Z.pos (digits2_pos p) - 1)) by lia.
    rewrite !Z.pow_succ_r by lia. lia.
  - rewrite Pos2Z.inj_succ. replace (Z.succ (Z.pos (digits2_pos p)) - 1) with (Z.succ (Z.pos (digits2_pos p) - 1)) by lia.
    rewrite !Z.pow_succ_r by lia. lia.
  - simpl. lia.
Qed.

(** The double of a positive integer of at most 53 bits: the integer
    itself, normalised to 53 bits. *)
Definition small_float (s : bool) (p : positive) : spec_float :=
  match 53 - Z.pos (digits2_pos p) with
  | Z.pos k => S754_finite s (Pos.iter xO p k) (- Z.pos k)
  | _ => S754_finite s p 0
  end.

Lemma binary_round_small s p :
  Z.pos (digits2_pos p) <= 53 ->
  binary_round prec emax s p 0 = small_float s p.
Proof.
  intros Hd. unfold binary_round, small_float.
  assert (Hf : fexp prec emax (Z.pos (digits2_pos p) + 0) = Z.pos (digits2_pos p) - 53).
  { unfold fexp, emin, prec, emax. lia. }
  rewrite Hf. unfold shl_align.
  assert (Haux : forall m e, Z.pos (digits2_pos m) = 53 -> -52 <= e <= 0 ->
    binary_round_aux prec emax s (Z.pos m) e loc_Exact = S754_finite s m e).
  { intros m e Hm He. unfold binary_round_aux, shr_fexp.
    cbn [Zdigits2 shr_record_of_loc]. rewrite Hm.
    assert (Hfe : fexp prec emax (53 + e) - e = 0).
    { unfold fexp, emin, prec, emax. lia. }
    rewrite Hfe. cbn [shr shr_m loc_of_shr_record round_nearest_even Zdigits2 shr_record_of_loc].
    rewrite Hm, Hfe. cbn [shr shr_m].
    destruct (Z.leb_spec e (emax - prec)); [done|]. unfold emax, prec in *. lia. }
  replace (Z.pos (digits2_pos p) - 53 - 0) with (- (53 - Z.pos (digits2_pos p))) by lia.
  destruct (53 - Z.pos (digits2_pos p)) as [|k|k] eqn:Hk; cbn [Z.opp].
  - apply Haux; lia.
  - replace (Z.pos (digits2_pos p) - 53) with (- Z.pos k) by lia.
    apply Haux; [|lia]. rewrite digits2_pos_iter. lia.
  - lia.
Qed.

Lemma small_float_spec s p :
  Z.pos (digits2_pos p) <= 53 ->
  exists m e, small_float s p = S754_finite s m e /\
    e = Z.pos (digits2_pos p) - 53 /\
    Z.pos m = Z.pos p * 2 ^ (- e) /\
    Z.pos (digits2_pos m) = 53.
Proof.
  intros Hd. unfold small_float.
  destruct (53 - Z.pos (digits2_pos p)) as [|k|k] eqn:Hk.
  - exists p, 0. repeat split; try lia.
  - exists (Pos.iter xO p k), (- Z.pos k).
    rewrite Z.opp_involutive, iter_xO_val, digits2_pos_iter. repeat split; lia.
  - lia.
Qed.

Lemma small_float_valid s p :
  Z.pos (digits2_pos p) <= 53 -> valid_binary (small_float s p) = true.
Proof.
  intros Hd. destruct (small_float_spec s p Hd) as (m & e & -> & He & Hm & Hdm).
  unfold SpecFloat.valid_binary, bounded, canonical_mantissa.
  rewrite Hdm. unfold fexp, emin, prec, emax.
  apply andb_true_intro. split; [apply Z.eqb_eq|apply Z.leb_le]; lia.
Qed.

Lemma digits2_pos_small p : Z.pos p < 2 ^ 53 -> Z.pos (digits2_pos p) <= 53.
Proof.
  intros Hp. pose proof (digits2_pos_bounds p) as [Hlo _].
  destruct (Z.le_gt_cases (Z.pos (digits2_pos p)) 53) as [|Hgt]; [done|].
  assert (2 ^ 53 <= 2 ^ (Z.pos (digits2_pos p) - 1)) by (apply Z.pow_le_mono_r; lia).
  lia.
Qed.

Lemma digits2_pos_mono p q : (p <= q)%positive -> Z.pos (digits2_pos p) <= Z.pos (digits2_pos q).
Proof.
  intros Hpq. pose proof (digits2_pos_bounds p) as [Hlo _].
  pose proof (digits2_pos_bounds q) as [_ Hhi].
  destruct (Z.le_gt_cases (Z.pos (digits2_pos p)) (Z.pos (digits2_pos q))) as [|Hgt]; [done|].
  assert (2 ^ Z.pos (digits2_pos q) <= 2 ^ (Z.pos (digits2_pos p) - 1)) by (apply Z.pow_le_mono_r; lia).
  lia.
Qed.

Lemma small_float_opp p : small_float true p = SFopp (small_float false p).
Proof. unfold small_float. by destruct (53 - Z.pos (digits2_pos p)). Qed.

Lemma small_float_lt p q :
  (p < q)%positive -> Z.pos q < 2 ^ 53 ->
  SFltb (small_float false p) (small_float false q) = true.
Proof.
  intros Hpq Hq.
  pose proof (digits2_pos_small q Hq) as Hdq.
  pose proof (digits2_pos_mono p q ltac:(lia)) as Hm.
  assert (Hdp : Z.pos (digits2_pos p) <= 53) by lia.
  destruct (small_float_spec false p Hdp) as (m1 & e1 & -> & He1 & Hm1 & _).
  destruct (small_float_spec false q Hdq) as (m2 & e2 & -> & He2 & Hm2 & _).
  unfold SFltb. cbn [SFcompare].
  change (Pos.compare_cont Eq m1 m2) with (Pos.compare m1 m2).
  destruct (Z.compare_spec e1 e2) as [Heq|Hlt|Hgt]; [|done|lia].
  assert (Hmm : (m1 < m2)%positive).
  { assert (0 < 2 ^ (- e1)) by (apply Z.pow_pos_nonneg; lia).
    rewrite <- Heq in Hm2. nia. }
  by rewrite (proj2 (Pos.compare_lt_iff m1 m2) Hmm).
Qed.

Definition small (z : Z) : Prop := Z.abs z < 2 ^ 53.

(** The double a small integer is stored as. *)
Definition sf_of_small (z : Z) : spec_float :=
  match z with
  | 0 => S754_zero false
  | Z.pos p => small_float false p
  | Z.neg p => small_float true p
  end.

Lemma float_of_int_small z :
  small z -> float_of_int z = Ok (SF2Prim (sf_of_small z)) /\
             Prim2SF (SF2Prim (sf_of_small z)) = sf_of_small z.
Proof.
  unfold small, float_of_int. intros Hz.
  destruct z as [|p|p]; cbn [binary_normalize sf_of_small].
  - done.
  - pose proof (digits2_pos_small p ltac:(lia)) as Hd.
    rewrite binary_round_small by done.
    split; [|by apply Prim2SF_SF2Prim, small_float_valid].
    by destruct (small_float_spec false p Hd) as (m & e & -> & _).
  - pose proof (digits2_pos_small p ltac:(lia)) as Hd.
    rewrite binary_round_small by done.
    split; [|by apply Prim2SF_SF2Prim, small_float_valid].
    by destruct (small_float_spec true p Hd) as (m & e & -> & _).
Qed.

Lemma sf_of_small_lt a b :
  small a -> small b -> a < b -> SFltb (sf_of_small a) (sf_of_small b) = true.
Proof.
  unfold small. intros Ha Hb Hab.
  destruct a as [|p|p], b as [|q|q]; try lia; cbn [sf_of_small].
  - by destruct (small_float_spec false q (digits2_pos_small q ltac:(lia))) as (m & e & -> & _).
  - apply small_float_lt; lia.
  - by destruct (small_float_spec true p (digits2_pos_small p ltac:(lia))) as (m & e & -> & _).
  - destruct (small_float_spec true p (digits2_pos_small p ltac:(lia))) as (m & e & -> & _).
    by destruct (small_float_spec false q (digits2_pos_small q ltac:(lia))) as (m' & e' & -> & _).
  - rewrite !small_float_opp, SFopp_ltb. apply small_float_lt; lia.
Qed.

Lemma int_of_float_small z :
  small z -> int_of_float (SF2Prim (sf_of_small z)) = Ok z.
Proof.
  intros Hz. unfold int_of_float.
  rewrite (proj2 (float_of_int_small z Hz)).
  unfold small in Hz.
  assert (Hgen : forall s p, Z.pos p < 2 ^ 53 ->
    match small_float s p with
    | S754_finite s' m e =>
        s' = s /\ match e with
        | Z.neg k => Z.shiftr (Z.pos m) (Z.pos k)
        | _ => Z.shiftl (Z.pos m) e
        end = Z.pos p
    | _ => False
    end).
  { intros s p Hp.
    destruct (small_float_spec s p (digits2_pos_small p Hp)) as (m & e & -> & He & Hm & _).
    split; [done|].
    pose proof (digits2_pos_small p Hp).
    destruct e as [|k|k]; try lia.
    - rewrite Z.shiftl_0_r. simpl in Hm. lia.
    - rewrite Z.shiftr_div_pow2 by lia. rewrite Hm.
      change (- Z.neg k) with (Z.pos k). rewrite Z.div_mul; [done|].
      apply Z.pow_nonzero; lia. }
  destruct z as [|p|p]; cbn [sf_of_small]; [done| |].
  - specialize (Hgen false p ltac:(lia)).
    destruct (small_float false p); try done. destruct Hgen as [-> ->]. done.
  - specialize (Hgen true p ltac:(lia)).
    destruct (small_float true p); try done. destruct Hgen as [-> ->]. done.
Qed.

Lemma exact_int_small z : Z.abs z <= 2 ^ 53 -> exact_int z = true.
Proof.
  intros Hz.
  destruct (Z.eq_dec (Z.abs z) (2 ^ 53)) as [Heq|Hne].
  - assert (z = 2 ^ 53 \/ z = - 2 ^ 53) as [->| ->] by lia; by vm_compute.
  - assert (Hs : small z) by (unfold small; lia).
    unfold exact_int. rewrite (proj1 (float_of_int_small z Hs)).
    rewrite int_of_float_small by done. by rewrite Z.eqb_refl.
Qed.

(** ** The heap of [heapq]

    [heap_le x y] is [not (y < x)], the order the heap keeps.  It is a total
    preorder on the items that satisfy [ok]; for the queues these are the
    triples whose key is not NaN. *)

Section HeapqFacts.
Import heapq.
#[local] Open Scope nat_scope.
Context {A : Type}.
Variable lt : A -> A -> bool.

Definition heap_le (x y : A) : bool := negb (lt y x).
Definition parent (i : nat) : nat := (i - 1) / 2.

Definition heap_from (k : nat) (h : list A) : Prop :=
  forall i x y, 0 < i -> k <= parent i ->
    h !! i = Some x -> h !! parent i = Some y -> heap_le y x = true.

Inductive desc (k : nat) : nat -> Prop :=
| desc_refl : desc k k
| desc_child i c : desc k i -> 0 < c -> parent c = i -> desc k c.

Lemma parent_lt i : 0 < i -> parent i < i.
Proof. intros. unfold parent. apply Nat.Div0.div_lt_upper_bound; lia. Qed.

Lemma parent_child_l i : parent (2 * i + 1) = i.
Proof. unfold parent. replace (2 * i + 1 - 1) with (i * 2) by lia. apply Nat.div_mul. lia. Qed.

Lemma parent_child_r i : parent (2 * i + 1 + 1) = i.
Proof.
  unfold parent. replace (2 * i + 1 + 1 - 1) with (1 + i * 2) by lia.
  rewrite Nat.div_add by lia. reflexivity.
Qed.

Lemma parent_inv c i : 0 < c -> parent c = i -> c = 2 * i + 1 \/ c = 2 * i + 1 + 1.
Proof.
  unfold parent. intros Hc <-.
  pose proof (Nat.div_mod_eq (c - 1) 2).
  pose proof (Nat.mod_upper_bound (c - 1) 2). lia.
Qed.

Lemma desc_le k i : desc k i -> k <= i.
Proof. induction 1; [lia|]. subst. pose proof (parent_lt c). lia. Qed.

Lemma desc_parent k i : desc k i -> i <> k -> desc k (parent i) /\ k <= parent i.
Proof.
  intros H Hne. destruct H; [congruence|]. subst. split; [assumption|by apply desc_le].
Qed.

Lemma insert_cons_perm (l : list A) i x y :
  l !! i = Some y -> x :: l ≡ₚ y :: <[i := x]> l.
Proof.
  revert i. induction l as [|a l IH]; intros [|i] H; simplify_eq/=.
  - apply perm_swap.
  - rewrite (perm_swap a y). rewrite <- (IH i H). apply perm_swap.
Qed.

Lemma insert_swap_perm (l : list A) i j x y :
  i <> j -> i < length l -> l !! j = Some y ->
  <[j := x]> (<[i := y]> l) ≡ₚ <[i := x]> l.
Proof.
  intros Hij Hi Hj.
  destruct (lookup_lt_is_Some_2 l i Hi) as [v Hv].
  assert (H1 : x :: <[i := y]> l ≡ₚ y :: <[j := x]> (<[i := y]> l)).
  { apply insert_cons_perm. rewrite list_lookup_insert_ne by done. done. }
  assert (H2 : y :: l ≡ₚ v :: <[i := y]> l) by (by apply insert_cons_perm).
  assert (H3 : x :: l ≡ₚ v :: <[i := x]> l) by (by apply insert_cons_perm).
  apply (Permutation_cons_inv (a := y)), (Permutation_cons_inv (a := v)).
  rewrite <- H1. rewrite (perm_swap x v). rewrite <- H2.
  rewrite (perm_swap y x), H3. apply perm_swap.
Qed.

Variable ok : A -> Prop.
Hypothesis heap_le_total : forall x y, ok x -> ok y -> heap_le x y = true \/ heap_le y x = true.
Hypothesis heap_le_trans : forall x y z, ok x -> ok y -> ok z ->
  heap_le x y = true -> heap_le y z = true -> heap_le x z = true.

Lemma heap_le_refl x : ok x -> heap_le x x = true.
Proof. intros H. by destruct (heap_le_total x x H H). Qed.

Lemma heap_lt_le x y : ok x -> ok y -> lt x y = true -> heap_le x y = true.
Proof.
  intros Hx Hy H. destruct (heap_le_total x y Hx Hy) as [|H']; [done|].
  unfold heap_le in H'. rewrite H in H'. done.
Qed.

Definition almost_up (k pos : nat) (h : list A) : Prop :=
  (forall i x y, 0 < i -> i <> pos -> k <= parent i ->
     h !! i = Some x -> h !! parent i = Some y -> heap_le y x = true) /\
  (k < pos -> forall c x y, 0 < c -> parent c = pos ->
     h !! c = Some x -> h !! parent pos = Some y -> heap_le y x = true).

Ltac ins_len := rewrite ?length_insert; lia.
Ltac ins_ne H := rewrite ?list_lookup_insert_ne in H by lia.
Ltac ins_eq H := rewrite list_lookup_insert_eq in H by ins_len; simplify_eq.
Ltac ins_eq' H := rewrite list_lookup_insert_eq in H by ins_len; apply (inj Some) in H.
Ltac old_lookup :=
  eauto; try lia;
  try (rewrite ?list_lookup_insert_ne by lia; done).

Lemma siftdown_loop_heap n heap k pos newitem :
  pos <= n -> pos < length heap -> desc k pos ->
  Forall ok (<[pos := newitem]> heap) ->
  almost_up k pos (<[pos := newitem]> heap) ->
  heap_from k (_siftdown_loop lt n heap k pos newitem).
Proof.
  revert heap pos. induction n as [|n IH]; intros heap pos Hn Hlen Hd Hok [W1 W2]; cbn [_siftdown_loop].
  - assert (pos = 0) by lia. subst. intros i x y Hi Hk Hx Hy. eapply W1; eauto. lia.
  - destruct (Nat.ltb_spec k pos) as [Hkp|Hkp].
    + pose proof (parent_lt pos ltac:(lia)) as Hpp. fold (parent pos).
      destruct (lookup_lt_is_Some_2 heap (parent pos) ltac:(lia)) as [p Hp].
      rewrite Hp.
      destruct (desc_parent k pos Hd ltac:(lia)) as [Hd' Hkp'].
      assert (Hnew : ok newitem).
      { rewrite Forall_lookup in Hok. apply (Hok pos). by apply list_lookup_insert_eq. }
      assert (Hokp : ok p).
      { rewrite Forall_lookup in Hok. apply (Hok (parent pos)).
        rewrite list_lookup_insert_ne by lia. done. }
      destruct (lt newitem p) eqn:Hlt.
      * assert (Hperm : <[parent pos := newitem]> (<[pos := p]> heap) ≡ₚ <[pos := newitem]> heap).
        { apply insert_swap_perm; [lia|lia|done]. }
        assert (Hok' : Forall ok (<[parent pos := newitem]> (<[pos := p]> heap))).
        { by rewrite Hperm. }
        apply IH; [lia|rewrite length_insert; lia|done|done|].
        split.
        -- intros i x y Hi Hne Hki Hx Hy.
           assert (okx : ok x) by (rewrite Forall_lookup in Hok'; eauto).
           assert (oky : ok y) by (rewrite Forall_lookup in Hok'; eauto).
           destruct (decide (i = pos)) as [->|Hip].
           { ins_eq Hy. ins_ne Hx. ins_eq Hx. by apply heap_lt_le. }
           pose proof (parent_lt i Hi).
           ins_ne Hx.
           destruct (decide (parent i = pos)) as [Hpi|Hpi].
           { rewrite Hpi in Hy. ins_ne Hy. ins_eq Hy.
             eapply (W2 Hkp i x y); old_lookup. }
           destruct (decide (parent i = parent pos)) as [Hpi'|Hpi'].
           { rewrite Hpi' in Hy. ins_eq Hy.
             apply (heap_le_trans y p x); [done|done|done|by apply heap_lt_le|].
             eapply (W1 i x p); old_lookup. rewrite Hpi'. old_lookup. }
           ins_ne Hy.
           eapply (W1 i x y); old_lookup.
        -- intros Hk' c x y Hc Hpc Hx Hy.
           assert (okx : ok x) by (rewrite Forall_lookup in Hok'; eauto).
           assert (oky : ok y) by (rewrite Forall_lookup in Hok'; eauto).
           pose proof (parent_lt (parent pos) ltac:(lia)).
           destruct (desc_parent k (parent pos) Hd' ltac:(lia)) as [_ Hkpp].
           ins_ne Hy.
           assert (Hgp : heap_le y p = true).
           { eapply (W1 (parent pos) p y); old_lookup. }
           destruct (decide (c = pos)) as [->|Hcp].
           { ins_ne Hx. ins_eq Hx. done. }
           pose proof (parent_lt c Hc).
           ins_ne Hx.
           apply (heap_le_trans y p x); [done|done|done|done|].
           eapply (W1 c x p); old_lookup. rewrite Hpc. old_lookup.
      * intros i x y Hi Hki Hx Hy.
        destruct (decide (i = pos)) as [->|Hip]; [|by eapply W1].
        ins_eq Hx. ins_ne Hy. simplify_eq. unfold heap_le. by rewrite Hlt.
    + assert (pos = k) by (apply desc_le in Hd; lia). subst.
      intros i x y Hi Hki Hx Hy.
      destruct (decide (i = k)) as [->|Hip]; [|by eapply W1].
      pose proof (parent_lt k Hi). lia.
Qed.

Definition almost_down (k pos : nat) (h : list A) : Prop :=
  (forall i x y, 0 < i -> k <= parent i -> parent i <> pos ->
     h !! i = Some x -> h !! parent i = Some y -> heap_le y x = true) /\
  (k < pos -> forall c x y, 0 < c -> parent c = pos ->
     h !! c = Some x -> h !! parent pos = Some y -> heap_le y x = true).

Lemma siftup_step_inv heap k pos c s vc :
  desc k pos -> Forall ok heap -> almost_down k pos heap ->
  parent c = pos -> 0 < c -> parent s = pos -> 0 < s -> c <> s ->
  heap !! c = Some vc ->
  (forall vs, heap !! s = Some vs -> heap_le vc vs = true) ->
  almost_down k c (<[pos := vc]> heap).
Proof.
  intros Hd Hok [P1 P2] Hpc Hc Hps Hs Hcs Hvc Hsib.
  pose proof (parent_lt c Hc) as Hlt.
  pose proof (desc_le _ _ Hd) as Hkp.
  assert (Hpl : pos < length heap).
  { apply lookup_lt_Some in Hvc. lia. }
  assert (okc : ok vc) by (rewrite Forall_lookup in Hok; eauto).
  split.
  - intros i x y Hi Hki Hne Hx Hy.
    pose proof (parent_lt i Hi).
    destruct (decide (parent i = pos)) as [Hpi|Hpi].
    + rewrite Hpi in Hy. ins_eq' Hy. subst y. ins_ne Hx.
      destruct (decide (i = s)) as [->|His]; [by apply Hsib|].
      assert (i = c).
      { destruct (parent_inv c pos Hc Hpc), (parent_inv s pos Hs Hps),
          (parent_inv i pos Hi Hpi); lia. }
      subst i. rewrite Hvc in Hx. apply (inj Some) in Hx. subst x. by apply heap_le_refl.
    + ins_ne Hy. destruct (decide (i = pos)) as [Hip|Hip].
      * rewrite Hip in Hx, Hy. ins_eq' Hx. subst x. eapply (P2 ltac:(lia) c); eauto.
      * ins_ne Hx. eapply P1; eauto.
  - intros Hkc g x y Hg Hpg Hx Hy.
    pose proof (parent_lt g Hg).
    ins_ne Hx. rewrite Hpc in Hy. ins_eq' Hy. subst y.
    eapply (P1 g); eauto; try lia. by rewrite Hpg.
Qed.

Lemma siftup_loop_spec n heap k pos heap' pos' :
  length heap - pos <= n -> pos < length heap -> desc k pos ->
  Forall ok heap -> almost_down k pos heap ->
  _siftup_loop lt n heap (length heap) pos = (heap', pos') ->
  length heap' = length heap /\ pos' < length heap /\
  length heap <= 2 * pos' + 1 /\ desc k pos' /\ Forall ok heap' /\
  almost_down k pos' heap' /\
  (forall x, <[pos' := x]> heap' ≡ₚ <[pos := x]> heap).
Proof.
  revert heap pos. induction n as [|n IH]; intros heap pos Hn Hlen Hd Hok Hdown;
    cbn [_siftup_loop]; [lia|].
  destruct (Nat.ltb_spec (2 * pos + 1) (length heap)) as [Hc|Hc];
    [|intros [= <- <-]; repeat split; try done; try lia; apply Hdown].
  destruct (lookup_lt_is_Some_2 heap (2 * pos + 1) Hc) as [l Hl]. rewrite Hl.
  assert (okl : ok l) by (rewrite Forall_lookup in Hok; eauto).
  assert (Hstep : forall c s vc,
    parent c = pos -> 0 < c -> parent s = pos -> 0 < s -> c <> s -> heap !! c = Some vc ->
    (forall vs, heap !! s = Some vs -> heap_le vc vs = true) ->
    _siftup_loop lt n (<[pos := vc]> heap) (length heap) c = (heap', pos') ->
    length heap' = length heap /\ pos' < length heap /\
    length heap <= 2 * pos' + 1 /\ desc k pos' /\ Forall ok heap' /\
    almost_down k pos' heap' /\
    (forall x, <[pos' := x]> heap' ≡ₚ <[pos := x]> heap)).
  { intros c s vc Hpc Hc0 Hps Hs0 Hcs Hvc Hsib Heq.
    pose proof (parent_lt c Hc0).
    assert (c < length heap) by (by apply lookup_lt_Some in Hvc).
    assert (okc : ok vc) by (rewrite Forall_lookup in Hok; eauto).
    rewrite <- (length_insert heap pos vc) in Heq.
    apply IH in Heq; rewrite ?length_insert in *; try lia.
    - destruct Heq as (?&?&?&?&?&Hd'&Hp). repeat split; try done; try apply Hd'.
      intros x. rewrite Hp. apply insert_swap_perm; [lia|lia|done].
    - eapply desc_child; eauto.
    - by apply Forall_insert.
    - eapply siftup_step_inv; eauto. }
  destruct (heap !! (2 * pos + 1 + 1)) as [r|] eqn:Hr.
  - assert (okr : ok r) by (rewrite Forall_lookup in Hok; eauto).
    pose proof (lookup_lt_Some _ _ _ Hr) as Hrl.
    destruct (Nat.ltb_spec (2 * pos + 1 + 1) (length heap)); [|lia].
    cbn [andb]. destruct (lt l r) eqn:Hlr; cbn [negb].
    + rewrite Hl. apply (Hstep (2 * pos + 1) (2 * pos + 1 + 1)); try done; try lia.
      * apply parent_child_l.
      * apply parent_child_r.
      * intros vs Hvs. simplify_eq. by apply heap_lt_le.
    + rewrite Hr. apply (Hstep (2 * pos + 1 + 1) (2 * pos + 1)); try done; try lia.
      * apply parent_child_r.
      * apply parent_child_l.
      * intros vs Hvs. simplify_eq. unfold heap_le. by rewrite Hlr.
  - rewrite Hl. apply (Hstep (2 * pos + 1) (2 * pos + 1 + 1)); try done; try lia.
    * apply parent_child_l.
    * apply parent_child_r.
    * intros vs Hvs. simplify_eq.
Qed.

Lemma siftdown_loop_perm n heap k pos newitem :
  pos < length heap ->
  _siftdown_loop lt n heap k pos newitem ≡ₚ <[pos := newitem]> heap.
Proof.
  revert heap pos. induction n as [|n IH]; intros heap pos Hlen; cbn [_siftdown_loop]; [done|].
  destruct (Nat.ltb_spec k pos) as [Hkp|Hkp]; [|done].
  pose proof (parent_lt pos ltac:(lia)) as Hpp. fold (parent pos).
  destruct (lookup_lt_is_Some_2 heap (parent pos) ltac:(lia)) as [p Hp]. rewrite Hp.
  destruct (lt newitem p); [|done].
  rewrite IH by ins_len. apply insert_swap_perm; [lia|lia|done].
Qed.

Lemma siftdown_perm heap k pos : _siftdown lt heap k pos ≡ₚ heap.
Proof.
  unfold _siftdown. destruct (heap !! pos) as [x|] eqn:Hx; [|done].
  rewrite siftdown_loop_perm by (by eapply lookup_lt_Some).
  by rewrite list_insert_id.
Qed.

Lemma siftdown_heap heap k pos :
  desc k pos -> Forall ok heap -> almost_up k pos heap ->
  heap_from k (_siftdown lt heap k pos).
Proof.
  intros Hd Hok Hup. unfold _siftdown.
  destruct (heap !! pos) as [x|] eqn:Hx.
  - apply siftdown_loop_heap; try done.
    + by eapply lookup_lt_Some.
    + by rewrite list_insert_id.
    + by rewrite list_insert_id.
  - apply lookup_ge_None in Hx. destruct Hup as [W1 _].
    intros i a b Hi Hki Ha Hb. eapply W1; eauto.
    apply lookup_lt_Some in Ha. lia.
Qed.

Lemma siftup_perm heap pos : _siftup lt heap pos ≡ₚ heap.
Proof.
  unfold _siftup. destruct (heap !! pos) as [x|] eqn:Hx; [|done].
  destruct (_siftup_loop lt (length heap) heap (length heap) pos) as [heap' pos'] eqn:Hloop.
  rewrite siftdown_perm.
  assert (Hgen : forall n h p h' p', _siftup_loop lt n h (length heap) p = (h', p') ->
    length h = length heap -> p < length h ->
    forall y, <[p' := y]> h' ≡ₚ <[p := y]> h).
  { clear. induction n as [|n IH]; intros h p h' p' Heq Hl Hp y; cbn [_siftup_loop] in Heq;
      [by simplify_eq|].
    destruct (Nat.ltb_spec (2 * p + 1) (length heap)); [|by simplify_eq].
    set (c := match h !! (2 * p + 1) with
              | Some l => match h !! (2 * p + 1 + 1) with
                          | Some r => if (2 * p + 1 + 1 <? length heap) && negb (lt l r)
                                      then 2 * p + 1 + 1 else 2 * p + 1
                          | None => 2 * p + 1
                          end
              | None => 2 * p + 1
              end) in *.
    assert (Hcp : p < c).
    { subst c. repeat case_match; lia. }
    destruct (h !! c) as [vc|] eqn:Hvc; [|by simplify_eq].
    apply IH with (y := y) in Heq; [|ins_len|rewrite length_insert; by eapply lookup_lt_Some].
    rewrite Heq. apply insert_swap_perm; [lia|lia|done]. }
  rewrite (Hgen _ _ _ _ _ Hloop eq_refl (lookup_lt_Some _ _ _ Hx)).
  by rewrite list_insert_id.
Qed.

Lemma siftup_heap heap k :
  k < length heap -> Forall ok heap -> heap_from (S k) heap ->
  heap_from k (_siftup lt heap k).
Proof.
  intros Hk Hok Hh. unfold _siftup.
  destruct (lookup_lt_is_Some_2 heap k Hk) as [x Hx]. rewrite Hx.
  destruct (_siftup_loop lt (length heap) heap (length heap) k) as [heap' pos'] eqn:Hloop.
  assert (okx : ok x) by (rewrite Forall_lookup in Hok; eauto).
  apply siftup_loop_spec with (k := k) in Hloop; try done; try lia.
  - destruct Hloop as (Hl&Hp'&Hleaf&Hd&Hok'&[P1 P2]&_).
    apply siftdown_heap; [done|by apply Forall_insert|].
    split.
    + intros i a b Hi Hne Hki Ha Hb. ins_ne Ha.
      pose proof (lookup_lt_Some _ _ _ Ha).
      assert (parent i <> pos').
      { intros Hpi. destruct (parent_inv i pos' Hi Hpi); lia. }
      ins_ne Hb. eapply P1; eauto.
    + intros Hkp c a b Hc Hpc Ha Hb.
      apply lookup_lt_Some in Ha. rewrite length_insert in Ha.
      destruct (parent_inv c pos' Hc Hpc); lia.
  - constructor.
  - split; [|lia]. intros i a b Hi Hki Hne Ha Hb. eapply Hh; eauto. lia.
Qed.

Definition is_heap (h : list A) : Prop := heap_from 0 h.

Lemma desc_root i : desc 0 i.
Proof.
  induction i as [i IH] using lt_wf_ind.
  destruct (decide (i = 0)) as [->|]; [constructor|].
  apply (desc_child 0 (parent i)); [|lia|done].
  apply IH, parent_lt. lia.
Qed.

Lemma heappush_perm heap item : heappush lt heap item ≡ₚ item :: heap.
Proof.
  unfold heappush. rewrite siftdown_perm. by rewrite Permutation_app_comm.
Qed.

Lemma heappush_heap heap item :
  ok item -> Forall ok heap -> is_heap heap -> is_heap (heappush lt heap item).
Proof.
  intros Hi Hok Hh. apply siftdown_heap.
  - apply desc_root.
  - apply Forall_app; split; [done|by constructor].
  - split.
    + intros i x y H0 Hne Hk Hx Hy.
      pose proof (parent_lt i H0).
      pose proof (lookup_lt_Some _ _ _ Hx) as Hl. rewrite length_app in Hl. simpl in Hl.
      rewrite lookup_app_l in Hx by lia. rewrite lookup_app_l in Hy by lia.
      eapply Hh; eauto.
    + intros _ c x y Hc Hpc Hx Hy.
      pose proof (parent_lt c Hc).
      apply lookup_lt_Some in Hx. rewrite length_app in Hx. simpl in Hx. lia.
Qed.

Lemma heap_root_min h r :
  Forall ok h -> is_heap h -> h !! 0 = Some r ->
  forall i x, h !! i = Some x -> heap_le r x = true.
Proof.
  intros Hok Hh Hr i. induction i as [i IH] using lt_wf_ind. intros x Hx.
  assert (okr : ok r) by (rewrite Forall_lookup in Hok; eauto).
  assert (okx : ok x) by (rewrite Forall_lookup in Hok; eauto).
  destruct (decide (i = 0)) as [->|Hi]; [simplify_eq; by apply heap_le_refl|].
  pose proof (parent_lt i ltac:(lia)) as Hp.
  destruct (lookup_lt_is_Some_2 h (parent i)) as [y Hy].
  { apply lookup_lt_Some in Hx. lia. }
  assert (oky : ok y) by (rewrite Forall_lookup in Hok; eauto).
  apply (heap_le_trans r y x); try done.
  - by apply (IH (parent i)).
  - eapply (Hh i); eauto; lia.
Qed.

Lemma heappop_None heap : heappop lt heap = None <-> heap = [].
Proof.
  unfold heappop. destruct (last heap) eqn:Hl.
  - split; [by repeat case_match|]. intros ->. done.
  - apply last_None in Hl. by subst.
Qed.

Lemma heappop_Some heap x heap' :
  heappop lt heap = Some (x, heap') ->
  heap !! 0 = Some x /\ heap ≡ₚ x :: heap' /\
  (Forall ok heap -> is_heap heap -> is_heap heap').
Proof.
  unfold heappop. destruct (last heap) as [lastelt|] eqn:Hl; [|done].
  apply last_Some in Hl as [rest ->].
  rewrite removelast_last.
  destruct rest as [|returnitem rest']; intros [= <- <-].
  - split; [done|]. split; [done|]. intros _ _ i a b ? ? Ha. by destruct i.
  - split; [done|]. split.
    + rewrite siftup_perm. simpl. constructor. by rewrite Permutation_app_comm.
    + intros Hok Hh. simpl.
      apply Forall_app in Hok as [Hok Hlast].
      apply Forall_cons in Hok as [Hret Hok]. apply Forall_cons in Hlast as [Hlast _].
      apply siftup_heap; simpl; [lia|by constructor|].
      intros i a b Hi Hki Ha Hb.
      pose proof (parent_lt i Hi).
      destruct i as [|i]; [lia|]. destruct (parent (S i)) as [|pi] eqn:Hpi; [lia|].
      simpl in Ha, Hb.
      apply (Hh (S i) a b); try lia.
      * simpl. rewrite lookup_app_l; [done|]. by eapply lookup_lt_Some.
      * rewrite Hpi. simpl. rewrite lookup_app_l; [done|]. by eapply lookup_lt_Some.
Qed.

Lemma heapify_perm x : heapify lt x ≡ₚ x.
Proof.
  unfold heapify. generalize (reverse (seq 0 (length x / 2))). intros l.
  revert x. induction l as [|i l IH]; intros x; simpl; [done|].
  by rewrite IH, siftup_perm.
Qed.

Lemma heapify_heap x : Forall ok x -> is_heap (heapify lt x).
Proof.
  intros Hok. unfold heapify.
  assert (Hgen : forall m h, m <= length h / 2 -> Forall ok h -> heap_from m h ->
    heap_from 0 (foldl (_siftup lt) h (reverse (seq 0 m)))).
  { clear Hok. induction m as [|m IH]; intros h Hm Hok Hh; [done|].
    rewrite seq_S, reverse_app. simpl.
    assert (Hmh : m < length h).
    { pose proof (Nat.Div0.div_le_upper_bound (length h) 2 (length h)).
      pose proof (Nat.Div0.mul_div_le (length h) 2). lia. }
    pose proof (siftup_perm h m) as Hp.
    apply IH.
    - rewrite (Permutation_length Hp). lia.
    - by rewrite Hp.
    - by apply siftup_heap. }
  apply Hgen; [done|done|].
  intros i a b Hi Hk Ha Hb. apply lookup_lt_Some in Ha.
  pose proof (Nat.Div0.mul_div_le (length x) 2).
  pose proof (Nat.div_mod_eq (length x) 2). pose proof (Nat.mod_upper_bound (length x) 2).
  destruct (parent_inv i (parent i) Hi eq_refl); lia.
Qed.
End HeapqFacts.

(** ** The order of the triples *)

Section TupleOrder.
Context {item : Type}.
Implicit Types x y z : float * Z * item.

(** A triple whose key is a number. *)
Definition key_ok (x : float * Z * item) : Prop := is_nan x.1.1 = false.

Definition tuple_le (x y : float * Z * item) : bool := heap_le tuple_lt x y.

Lemma tuple_le_spec x y :
  tuple_le x y = true <->
  PrimFloat.ltb y.1.1 x.1.1 = false /\
  (PrimFloat.eqb x.1.1 y.1.1 = true -> x.1.2 <= y.1.2).
Proof.
  destruct x as [[k1 c1] d1], y as [[k2 c2] d2]. unfold tuple_le, heap_le, tuple_lt. simpl.
  rewrite (float_eqb_sym k1 k2).
  destruct (PrimFloat.eqb k2 k1) eqn:He.
  - destruct (PrimFloat.ltb k2 k1) eqn:Hl.
    + apply float_ltb_eqb in Hl. congruence.
    + rewrite negb_true_iff, Z.ltb_ge. tauto.
  - rewrite negb_true_iff. split; [done|tauto].
Qed.

Lemma tuple_le_total x y : key_ok x -> key_ok y -> tuple_le x y = true \/ tuple_le y x = true.
Proof.
  intros _ _. rewrite !tuple_le_spec.
  destruct (PrimFloat.ltb y.1.1 x.1.1) eqn:H1.
  - right. split; [by apply float_ltb_asym|].
    intros He. apply float_ltb_eqb in H1. congruence.
  - destruct (PrimFloat.ltb x.1.1 y.1.1) eqn:H2.
    + left. split; [done|]. intros He. apply float_ltb_eqb in H2. congruence.
    + rewrite (float_eqb_sym y.1.1 x.1.1).
      destruct (Z.le_ge_cases x.1.2 y.1.2); [left|right]; split; auto; lia.
Qed.

Lemma tuple_le_trans x y z :
  key_ok x -> key_ok y -> key_ok z ->
  tuple_le x y = true -> tuple_le y z = true -> tuple_le x z = true.
Proof.
  unfold key_ok. rewrite !tuple_le_spec.
  intros Hx Hy Hz [H1 H1'] [H2 H2'].
  destruct (float_trichotomy x.1.1 y.1.1 Hx Hy) as [Hlt|[Heq|Hgt]]; [| |congruence].
  - split.
    + destruct (PrimFloat.ltb z.1.1 x.1.1) eqn:H; [|done].
      pose proof (float_ltb_trans _ _ _ H Hlt). congruence.
    + intros He. rewrite (float_eqb_ltb_l _ _ _ He) in Hlt. congruence.
  - split.
    + by rewrite (float_eqb_ltb_r _ _ _ Heq).
    + intros He. specialize (H1' Heq).
      assert (PrimFloat.eqb y.1.1 z.1.1 = true).
      { rewrite float_eqb_sym in Heq. by apply (float_eqb_trans _ x.1.1). }
      specialize (H2' H). lia.
Qed.

End TupleOrder.

(** ** [_NoThreadingMaxPriorityFirstQueue] *)

Section BaseQueue.
Context {item : Type}.
Import _NoThreadingMaxPriorityFirstQueue.
Implicit Types self : _NoThreadingMaxPriorityFirstQueue.t item.

(** The heap of a queue is well formed: its keys are numbers and it is
    ordered as [heapq] expects. *)
Definition heap_wf (heap : list (float * Z * item)) : Prop :=
  Forall key_ok heap /\ is_heap tuple_lt heap.

Lemma heap_wf_nil : heap_wf [].
Proof. split; [constructor|]. intros i x y _ _ Hx. by destruct i. Qed.

Lemma queue_put_spec self it priority :
  let '(cnt, self') := put self it priority in
  cnt = _count self /\ _count self' = _count self + 1 /\
  _heap self' ≡ₚ (PrimFloat.opp priority, cnt, it) :: _heap self /\
  (is_nan priority = false -> heap_wf (_heap self) -> heap_wf (_heap self')).
Proof.
  unfold put. cbn [_count _heap].
  split; [done|]. split; [done|]. split; [apply heappush_perm|].
  intros Hnan [Hok Hh].
  assert (Hk : key_ok (PrimFloat.opp priority, _count self, it)).
  { unfold key_ok. simpl. by rewrite float_opp_nan. }
  split.
  - rewrite heappush_perm. by constructor.
  - by apply (heappush_heap tuple_lt key_ok tuple_le_total tuple_le_trans).
Qed.

Lemma queue_size_pos self : (0 <? size self) = true <-> _heap self <> [].
Proof.
  unfold size. rewrite Z.ltb_lt. destruct (_heap self); simpl; split; try done; lia.
Qed.

Lemma queue_get_empty self : _heap self = [] -> get self = (None, self).
Proof.
  intros H. unfold get.
  destruct (0 <? size self) eqn:Hs; [|done].
  apply queue_size_pos in Hs. done.
Qed.

Lemma queue_get_nonempty self :
  _heap self <> [] ->
  exists k c it heap',
    get self = (Some it, {| _count := _count self; _heap := heap' |}) /\
    _heap self !! 0%nat = Some (k, c, it) /\
    _heap self ≡ₚ (k, c, it) :: heap' /\
    (heap_wf (_heap self) ->
     heap_wf heap' /\ Forall (fun e => tuple_le (k, c, it) e = true) (_heap self)).
Proof.
  intros Hne. unfold get.
  rewrite (proj2 (queue_size_pos self) Hne).
  destruct (heapq.heappop tuple_lt (_heap self)) as [[[[k c] it] heap']|] eqn:Hpop.
  - exists k, c, it, heap'.
    pose proof (heappop_Some tuple_lt key_ok tuple_le_total tuple_le_trans _ _ _ Hpop)
      as (H0 & Hperm & Hheap).
    split; [done|]. split; [done|]. split; [done|].
    intros [Hok Hh]. split; [split|].
    + rewrite Hperm in Hok. by apply Forall_cons in Hok as [_ Hok].
    + by apply Hheap.
    + apply Forall_lookup. intros i e He.
      apply (heap_root_min tuple_lt key_ok tuple_le_total tuple_le_trans _ _ Hok Hh H0 i e He).
  - apply heappop_None in Hpop. done.
Qed.

(** The triples [filter] removes, with their keys. *)
Fixpoint filter_removed (func : float -> item -> bool) (heap : list (float * Z * item))
    : list (float * Z * item) :=
  match heap with
  | [] => []
  | (priority, cnt, it) :: heap' =>
      if func (PrimFloat.opp priority) it
      then filter_removed func heap'
      else (priority, cnt, it) :: filter_removed func heap'
  end.

Lemma filter_loop_spec func heap :
  let '(heap_new, removed) := filter_loop func heap in
  removed = (fun e => (e.1.2, e.2)) <$> filter_removed func heap /\
  heap ≡ₚ heap_new ++ filter_removed func heap /\
  Forall (fun e => func (PrimFloat.opp e.1.1) e.2 = true) heap_new /\
  Forall (fun e => func (PrimFloat.opp e.1.1) e.2 = false) (filter_removed func heap).
Proof.
  induction heap as [|[[k c] it] heap IH]; cbn [filter_loop filter_removed].
  - repeat split; constructor.
  - destruct (filter_loop func heap) as [heap_new removed].
    destruct IH as (-> & Hperm & Hkeep & Hrem).
    destruct (func (PrimFloat.opp k) it) eqn:Hf.
    + repeat split; try done.
      * simpl. by constructor.
      * by constructor.
    + repeat split; try done.
      * rewrite <- Permutation_middle. by constructor.
      * by constructor.
Qed.

Lemma queue_filter_counters_spec self func :
  let '(removed, self') := filter_counters self func in
  _count self' = _count self /\
  removed = (fun e => (e.1.2, e.2)) <$> filter_removed func (_heap self) /\
  _heap self ≡ₚ _heap self' ++ filter_removed func (_heap self) /\
  Forall (fun e => func (PrimFloat.opp e.1.1) e.2 = true) (_heap self') /\
  Forall (fun e => func (PrimFloat.opp e.1.1) e.2 = false)
    (filter_removed func (_heap self)) /\
  (Forall key_ok (_heap self) -> heap_wf (_heap self')).
Proof.
  unfold filter_counters.
  pose proof (filter_loop_spec func (_heap self)) as H.
  destruct (filter_loop func (_heap self)) as [heap_new removed].
  destruct H as (-> & Hperm & Hkeep & Hrem). cbn [_count _heap].
  pose proof (heapify_perm tuple_lt heap_new) as Hp.
  split; [done|]. split; [done|]. split; [by rewrite Hp|]. split; [by rewrite Hp|].
  split; [done|]. intros Hok.
  rewrite Hperm in Hok. apply Forall_app in Hok as [Hok _]. split.
  - by rewrite Hp.
  - by apply (heapify_heap tuple_lt key_ok tuple_le_total tuple_le_trans).
Qed.

End BaseQueue.

(** ** [WorstBoundFirstPriorityQueue] *)

Section WorstBoundFirst.
Import _NoThreadingMaxPriorityFirstQueue WorstBoundFirstPriorityQueue.
Variable conv : ConvergenceChecker.

(** The queues that arise from an empty one by [put], [get] and
    [update_for_best_objective] when every node the queue accepted has a
    bound that is a number.  The condition is on the nodes, not on the
    checker: whatever the checker decides, it holds of every run in which
    no bound is NaN. *)
Inductive wbf_reachable : WorstBoundFirstPriorityQueue.t -> Prop :=
| wbf_reach_init best :
    wbf_reachable (__init__ best conv)
| wbf_reach_put self data b self' data' :
    wbf_reachable self -> put self data = Ok (b, self', data') ->
    (b = true -> is_nan (Node.bound data) = false) ->
    wbf_reachable self'
| wbf_reach_get self r self' :
    wbf_reachable self -> get self = (r, self') ->
    wbf_reachable self'
| wbf_reach_update self best removed self' :
    wbf_reachable self -> update_for_best_objective self best = (removed, self') ->
    wbf_reachable self'.

Definition wbf_priority (bound : float) : float :=
  if decide (sense conv = minimize) then PrimFloat.opp bound else bound.

Definition wbf_entry_ok (n : Z) (e : float * Z * Node.data) : Prop :=
  is_nan (Node.bound e.2) = false /\
  e.1.1 = PrimFloat.opp (wbf_priority (Node.bound e.2)) /\
  Node.queue_priority e.2 = Some (wbf_priority (Node.bound e.2)) /\
  0 <= e.1.2 < n.

Definition wbf_inv (self : WorstBoundFirstPriorityQueue.t) : Prop :=
  _converger self = conv /\
  0 <= _count (_queue self) /\
  Forall (wbf_entry_ok (_count (_queue self))) (_heap (_queue self)) /\
  is_heap tuple_lt (_heap (_queue self)) /\
  NoDup ((fun e => e.1.2) <$> _heap (_queue self)).

Lemma wbf_priority_nan b : is_nan (wbf_priority b) = is_nan b.
Proof. unfold wbf_priority. case_decide; [apply float_opp_nan|done]. Qed.

Lemma wbf_entry_key_ok n e : wbf_entry_ok n e -> key_ok e.
Proof.
  intros (Hn & Hk & _). unfold key_ok. by rewrite Hk, float_opp_nan, wbf_priority_nan.
Qed.

Lemma wbf_entry_ok_mono n m e : n <= m -> wbf_entry_ok n e -> wbf_entry_ok m e.
Proof. intros Hnm (?&?&?&?). repeat split; try done; lia. Qed.

Lemma wbf_inv_heap_wf self : wbf_inv self -> heap_wf (_heap (_queue self)).
Proof.
  intros (_ & _ & Hok & Hh & _). split; [|done].
  eapply Forall_impl; [done|]. intros e. apply wbf_entry_key_ok.
Qed.

Lemma wbf_put_spec self data :
  wbf_inv self ->
  if objective_can_improve conv (_best_objective self) (Node.bound data) then
    exists self' data',
      put self data = Ok (true, self', data') /\
      Node.queue_priority data' = Some (wbf_priority (Node.bound data)) /\
      Node.bound data' = Node.bound data /\
      Node.tree_depth data' = Node.tree_depth data /\
      _count (_queue self') = _count (_queue self) + 1 /\
      _heap (_queue self') ≡ₚ
        (PrimFloat.opp (wbf_priority (Node.bound data)), _count (_queue self), data')
          :: _heap (_queue self) /\
      (is_nan (Node.bound data) = false -> wbf_inv self')
  else put self data = Ok (false, self, data).
Proof.
  intros (Hc & Hn & Hok & Hh & Hnd). unfold put. rewrite Hc. unfold Node._extract_bound.
  destruct (objective_can_improve conv (_best_objective self) (Node.bound data)) eqn:Himp;
    [|done].
  fold (wbf_priority (Node.bound data)).
  cbn [Node._insert_queue_priority to_float mbind result_bind].
  set (data' := {| Node.best_objective := _; Node.queue_priority := Some _ |}).
  pose proof (queue_put_spec (_queue self) data' (wbf_priority (Node.bound data))) as Hput.
  destruct (_NoThreadingMaxPriorityFirstQueue.put (_queue self) data'
              (wbf_priority (Node.bound data))) as [cnt queue].
  destruct Hput as (-> & Hcount & Hperm & Hwf).
  eexists _, data'. split; [reflexivity|]. cbn [_queue _converger].
  split; [done|]. split; [done|]. split; [done|]. split; [done|]. split; [done|].
  intros Hnan.
  assert (Hnew : wbf_entry_ok (_count queue)
            (PrimFloat.opp (wbf_priority (Node.bound data)), _count (_queue self), data')).
  { repeat split; try done; simpl; lia. }
  split; [done|]. cbn [_queue]. split; [lia|]. split; [|split].
  - rewrite Hperm. constructor; [done|].
    eapply Forall_impl; [done|]. intros e. apply wbf_entry_ok_mono. lia.
  - apply Hwf.
    + by rewrite wbf_priority_nan.
    + split; [|done]. eapply Forall_impl; [done|]. intros e. apply wbf_entry_key_ok.
  - rewrite Hperm. simpl. constructor; [|done].
    rewrite list_elem_of_fmap. intros (e & He & Hin).
    rewrite Forall_forall in Hok. destruct (Hok e Hin) as (_ & _ & _ & Hlt). simpl in He. lia.
Qed.

Lemma wbf_get_spec self :
  wbf_inv self ->
  match _heap (_queue self) with
  | [] => get self = (None, self)
  | _ =>
    exists ka ca a self',
      get self = (Some a, self') /\
      _heap (_queue self) ≡ₚ (ka, ca, a) :: _heap (_queue self') /\
      _count (_queue self') = _count (_queue self) /\
      Forall (fun e => tuple_le (ka, ca, a) e = true) (_heap (_queue self)) /\
      wbf_inv self'
  end.
Proof.
  intros Hinv. pose proof (wbf_inv_heap_wf self Hinv) as Hwf.
  destruct Hinv as (Hc & Hn & Hok & Hh & Hnd). unfold get.
  destruct (_heap (_queue self)) as [|e heap] eqn:Hheap.
  - rewrite queue_get_empty by done. by destruct self.
  - destruct (queue_get_nonempty (_queue self)) as (k & c & it & heap' & Hget & _ & Hperm & Hmin).
    { by rewrite Hheap. }
    rewrite Hget. rewrite Hheap in Hperm, Hmin.
    destruct (Hmin Hwf) as [[Hok' Hh'] Hall].
    eexists k, c, it, _. split; [reflexivity|]. cbn [_queue _heap _count _converger].
    split; [done|]. split; [done|]. split; [done|].
    split; [done|]. split; [done|]. split; [|split].
    + rewrite Hperm in Hok. by apply Forall_cons in Hok as [_ Hok].
    + done.
    + rewrite Hperm in Hnd. simpl in Hnd. by apply NoDup_cons in Hnd as [_ Hnd].
Qed.

Lemma wbf_update_spec self best :
  let '(removed, self') := update_for_best_objective self best in
  _heap (_queue self) ≡ₚ _heap (_queue self') ++
    filter_removed (fun _ d => objective_can_improve (_converger self) best (Node.bound d))
      (_heap (_queue self)) /\
  removed = (filter_removed (fun _ d => objective_can_improve (_converger self) best (Node.bound d))
      (_heap (_queue self))).*2 /\
  Forall (fun d => objective_can_improve (_converger self) best (Node.bound d) = true)
    (items self') /\
  Forall (fun d => objective_can_improve (_converger self) best (Node.bound d) = false)
    removed /\
  _best_objective self' = best /\
  _converger self' = _converger self /\
  (wbf_inv self -> wbf_inv self').
Proof.
  unfold update_for_best_objective, filter, items, _NoThreadingMaxPriorityFirstQueue.items.
  set (func := fun (_ : float) data_ =>
    objective_can_improve (_converger self) best (Node._extract_bound data_)).
  pose proof (queue_filter_counters_spec (_queue self) func) as H.
  destruct (filter_counters (_queue self) func) as [removed queue].
  destruct H as (Hcount & -> & Hperm & Hkeep & Hrem & Hwf). cbn [_queue _best_objective _converger].
  split; [done|]. split.
  { rewrite <- list_fmap_compose. by apply list_fmap_ext. }
  split; [by apply Forall_fmap|]. split.
  { rewrite <- list_fmap_compose. by apply Forall_fmap. }
  split; [done|]. split; [done|].
  intros Hinv. pose proof (wbf_inv_heap_wf self Hinv) as [Hok _].
  destruct Hinv as (Hc & Hn & Hok' & Hh & Hnd).
  split; [done|]. cbn [_queue]. rewrite Hcount. split; [done|].
  split; [|split].
  - rewrite Hperm in Hok'. by apply Forall_app in Hok' as [Hok' _].
  - by apply Hwf.
  - rewrite Hperm, fmap_app in Hnd. by apply NoDup_app in Hnd as [Hnd _].
Qed.

Lemma wbf_reachable_inv self : wbf_reachable self -> wbf_inv self.
Proof.
  induction 1 as [best|self data b self' data' _ IH Hput Hnum|self r self' _ IH Hget|
                  self best removed self' _ IH Hupd].
  - repeat split; try done; simpl; try constructor.
  - pose proof (wbf_put_spec self data IH) as Hspec.
    destruct (objective_can_improve conv (_best_objective self) (Node.bound data)).
    + destruct Hspec as (s & d & Heq & _ & _ & _ & _ & _ & Hinv). rewrite Hput in Heq.
      simplify_eq. apply Hinv. by apply Hnum.
    + rewrite Hput in Hspec. by simplify_eq.
  - pose proof (wbf_get_spec self IH) as Hspec.
    destruct (_heap (_queue self)).
    + rewrite Hget in Hspec. by simplify_eq.
    + destruct Hspec as (k & c & a & s & Heq & _ & _ & _ & Hinv). rewrite Hget in Heq.
      by simplify_eq.
  - pose proof (wbf_update_spec self best) as Hspec. rewrite Hupd in Hspec.
    by apply Hspec.
Qed.

End WorstBoundFirst.

(** ** [SortedList] on the triples *)

Section SortedTuples.
Context {item : Type}.
Implicit Types x y e : float * Z * item.
Implicit Types l : list (float * Z * item).

Definition tuple_sorted l : Prop := StronglySorted (fun x y => tuple_le x y = true) l.

Lemma tuple_lt_spec x y :
  tuple_lt x y = true <->
  PrimFloat.ltb x.1.1 y.1.1 = true \/
  (PrimFloat.eqb x.1.1 y.1.1 = true /\ x.1.2 < y.1.2).
Proof.
  destruct x as [[k1 c1] d1], y as [[k2 c2] d2]. unfold tuple_lt. simpl.
  destruct (PrimFloat.eqb k1 k2) eqn:He.
  - rewrite Z.ltb_lt. split; [auto|]. intros [Hl|[_ ?]]; [|done].
    apply float_ltb_eqb in Hl. congruence.
  - split; [auto|]. intros [?|[? _]]; done.
Qed.

Lemma tuple_eqb_spec x y :
  tuple_eqb x y = true <-> PrimFloat.eqb x.1.1 y.1.1 = true /\ x.1.2 = y.1.2.
Proof.
  destruct x as [[k1 c1] d1], y as [[k2 c2] d2]. unfold tuple_eqb. simpl.
  by rewrite andb_true_iff, Z.eqb_eq.
Qed.

Lemma tuple_lt_le x y : tuple_lt x y = false <-> tuple_le y x = true.
Proof. unfold tuple_le, heap_le. by rewrite negb_true_iff. Qed.

Lemma sorted_add_perm l x : SortedList.add tuple_lt l x ≡ₚ x :: l.
Proof.
  induction l as [|y l IH]; simpl; [done|].
  destruct (tuple_lt x y); [done|]. rewrite IH. apply perm_swap.
Qed.

Lemma sorted_add_sorted l x :
  key_ok x -> Forall key_ok l -> tuple_sorted l -> tuple_sorted (SortedList.add tuple_lt l x).
Proof.
  intros Hx Hl Hs. induction Hs as [|y l Hs IH Hy]; simpl.
  - repeat constructor.
  - apply Forall_cons in Hl as [Hoky Hl].
    destruct (tuple_lt x y) eqn:Hlt.
    + assert (Hxy : tuple_le x y = true).
      { apply (heap_lt_le tuple_lt key_ok tuple_le_total); done. }
      constructor; [by constructor|]. constructor; [done|].
      rewrite Forall_forall in Hy, Hl |- *. intros z Hz.
      apply (tuple_le_trans x y z); auto.
    + constructor; [by apply IH|].
      rewrite sorted_add_perm. constructor; [|done]. by apply tuple_lt_le.
Qed.

Lemma sorted_remove_spec l x e :
  Forall key_ok l -> tuple_sorted l -> key_ok x ->
  e ∈ l -> tuple_eqb e x = true ->
  (forall e', e' ∈ l -> tuple_eqb e' x = true -> e' = e) ->
  exists l', SortedList.remove tuple_lt tuple_eqb l x = Ok l' /\
             l ≡ₚ e :: l' /\ tuple_sorted l'.
Proof.
  intros Hl Hs Hx Hin He Huniq. induction Hs as [|y l Hs IH Hy]; [by apply elem_of_nil in Hin|].
  apply Forall_cons in Hl as [Hoky Hl]. cbn [SortedList.remove].
  apply tuple_eqb_spec in He as [Hke Hce].
  assert (Hoke : key_ok e) by (rewrite Forall_forall in Hl; apply elem_of_cons in Hin as [->|?]; auto).
  destruct (tuple_lt y x) eqn:Hlt.
  - assert (Hne : e <> y).
    { intros ->. apply tuple_lt_spec in Hlt as [Hlt|[_ ?]]; [|lia].
      apply float_ltb_eqb in Hlt. congruence. }
    apply elem_of_cons in Hin as [?|Hin]; [done|].
    destruct IH as (l' & -> & Hperm & Hs'); try done.
    { intros e' He'. apply Huniq. by right. }
    exists (y :: l'). cbn [mbind result_bind]. split; [done|]. split.
    + rewrite Hperm. apply perm_swap.
    + constructor; [done|]. rewrite Hperm in Hy. by apply Forall_cons in Hy as [_ Hy].
  - destruct (tuple_eqb y x) eqn:Heq.
    + assert (y = e) as -> by (apply Huniq; [by left|done]).
      exists l. done.
    + exfalso.
      assert (Hye : tuple_le y e = true).
      { apply elem_of_cons in Hin as [->|Hin].
        - apply (heap_le_refl tuple_lt key_ok tuple_le_total); done.
        - rewrite Forall_forall in Hy. auto. }
      apply tuple_le_spec in Hye as [Hye1 Hye2].
      pose proof Hlt as Hlt'.
      apply tuple_lt_le, tuple_le_spec in Hlt as [Hxy1 Hxy2].
      destruct (float_trichotomy y.1.1 x.1.1 Hoky Hx) as [H|[H|H]].
      * assert (tuple_lt y x = true) by (apply tuple_lt_spec; auto). congruence.
      * assert (PrimFloat.eqb y.1.1 e.1.1 = true).
        { rewrite float_eqb_sym in Hke. by apply (float_eqb_trans _ x.1.1). }
        rewrite float_eqb_sym in H.
        specialize (Hye2 ltac:(done)). specialize (Hxy2 H).
        assert (tuple_eqb y x = true).
        { apply tuple_eqb_spec. rewrite float_eqb_sym. split; [done|lia]. }
        congruence.
      * rewrite <- (float_eqb_ltb_l _ _ _ Hke) in H. congruence.
Qed.

End SortedTuples.

(** ** [CustomPriorityQueue] *)

Lemma NoDup_fmap_eq {A B : Type} (f : A -> B) (l : list A) x y :
  NoDup (f <$> l) -> x ∈ l -> y ∈ l -> f x = f y -> x = y.
Proof.
  induction l as [|a l IH]; simpl; intros Hnd Hx Hy Hf; [by apply elem_of_nil in Hx|].
  apply NoDup_cons in Hnd as [Ha Hnd].
  apply elem_of_cons in Hx as [->|Hx], Hy as [->|Hy]; try done.
  - destruct Ha. rewrite Hf. by apply list_elem_of_fmap_2.
  - destruct Ha. rewrite <- Hf. by apply list_elem_of_fmap_2.
  - by apply IH.
Qed.

Section Custom.
Import _NoThreadingMaxPriorityFirstQueue CustomPriorityQueue.
Variable conv : ConvergenceChecker.

(** The counter and the node of a triple. *)
Definition cnt_item (e : float * Z * Node.data) : Z * Node.data := (e.1.2, e.2).

Definition sbb_entry_ok (e : float * Z * Node.data) : Prop :=
  is_nan (Node.bound e.2) = false /\
  e.1.1 = signed_bound conv (Node.bound e.2).

(** The two indices hold the same counters and nodes, the counters are
    distinct and below the next one, and [_sorted_by_bound] is sorted
    under keys that are the signed bounds of its nodes. *)
Definition custom_inv (self : CustomPriorityQueue.t) : Prop :=
  _converger self = conv /\
  0 <= _count (_queue self) /\
  Forall (fun e => 0 <= e.1.2 < _count (_queue self)) (_heap (_queue self)) /\
  NoDup ((fun e => e.1.2) <$> _heap (_queue self)) /\
  cnt_item <$> _heap (_queue self) ≡ₚ cnt_item <$> _sorted_by_bound self /\
  Forall sbb_entry_ok (_sorted_by_bound self) /\
  tuple_sorted (_sorted_by_bound self).

Lemma signed_bound_nan b : is_nan (signed_bound conv b) = is_nan b.
Proof. unfold signed_bound. case_decide; [apply float_opp_nan|done]. Qed.

Lemma sbb_entry_key_ok e : sbb_entry_ok e -> key_ok e.
Proof. intros [Hn Hk]. unfold key_ok. by rewrite Hk, signed_bound_nan. Qed.

Lemma cnt_item_fst (l : list (float * Z * Node.data)) :
  (cnt_item <$> l).*1 = (fun e => e.1.2) <$> l.
Proof. rewrite <- list_fmap_compose. by apply list_fmap_ext. Qed.

Lemma cnt_item_snd (l : list (float * Z * Node.data)) :
  (cnt_item <$> l).*2 = l.*2.
Proof. rewrite <- list_fmap_compose. by apply list_fmap_ext. Qed.

Lemma custom_inv_sbb_nodup self :
  custom_inv self -> NoDup ((fun e => e.1.2) <$> _sorted_by_bound self).
Proof.
  intros (_ & _ & _ & Hnd & Hperm & _).
  rewrite <- cnt_item_fst, <- Hperm, cnt_item_fst. done.
Qed.

Lemma custom_put_spec self data p :
  custom_inv self -> Node.queue_priority data = Some p ->
  if objective_can_improve conv (_best_objective self) (Node.bound data) then
    exists self',
      put self data = Ok (true, self') /\
      _count (_queue self') = _count (_queue self) + 1 /\
      _best_objective self' = _best_objective self /\
      _heap (_queue self') ≡ₚ
        (PrimFloat.opp p, _count (_queue self), data) :: _heap (_queue self) /\
      _sorted_by_bound self' ≡ₚ
        (signed_bound conv (Node.bound data), _count (_queue self), data)
          :: _sorted_by_bound self /\
      (is_nan p = false -> heap_wf (_heap (_queue self)) -> heap_wf (_heap (_queue self'))) /\
      (is_nan (Node.bound data) = false -> custom_inv self')
  else put self data = Ok (false, self).
Proof.
  intros (Hc & Hn & Hlt & Hnd & Hperm & Hok & Hs) Hp. unfold put.
  unfold Node._has_queue_priority, Node._extract_queue_priority, Node._extract_bound.
  rewrite Hp, Hc. cbn [assert mbind result_bind].
  destruct (objective_can_improve conv (_best_objective self) (Node.bound data)) eqn:Himp;
    [|done].
  pose proof (queue_put_spec (_queue self) data p) as Hput.
  destruct (_NoThreadingMaxPriorityFirstQueue.put (_queue self) data p) as [cnt queue].
  destruct Hput as (-> & Hcount & Hpermq & Hwf).
  eexists. split; [reflexivity|]. cbn [_queue _converger _sorted_by_bound _best_objective].
  split; [done|]. split; [done|]. split; [done|].
  split; [apply sorted_add_perm|]. split; [done|].
  intros Hnan.
  assert (Hnew : sbb_entry_ok (signed_bound conv (Node.bound data), _count (_queue self), data)).
  { by split. }
  unfold custom_inv. cbn [_queue _converger _sorted_by_bound _best_objective].
  split; [done|]. split; [lia|]. split; [|split; [|split; [|split]]].
  - rewrite Hpermq. constructor; [simpl; lia|].
    eapply Forall_impl; [done|]. simpl. intros; lia.
  - rewrite Hpermq. simpl. constructor; [|done].
    rewrite list_elem_of_fmap. intros (e & He & Hin).
    rewrite Forall_forall in Hlt. specialize (Hlt e Hin). simpl in *. lia.
  - rewrite Hpermq, sorted_add_perm. simpl. by constructor.
  - rewrite sorted_add_perm. by constructor.
  - apply sorted_add_sorted; try done.
    + by apply sbb_entry_key_ok.
    + eapply Forall_impl; [done|]. apply sbb_entry_key_ok.
Qed.

Lemma custom_put_unset self data :
  Node.queue_priority data = None -> put self data = Raise AssertionError.
Proof.
  intros Hp. unfold put, Node._has_queue_priority. by rewrite Hp.
Qed.

Lemma custom_get_spec self :
  custom_inv self ->
  match _heap (_queue self) with
  | [] => get self = Ok (None, self)
  | _ =>
    exists k c a self',
      get self = Ok (Some a, self') /\
      _heap (_queue self) !! 0%nat = Some (k, c, a) /\
      _heap (_queue self) ≡ₚ (k, c, a) :: _heap (_queue self') /\
      _sorted_by_bound self ≡ₚ
        (signed_bound conv (Node.bound a), c, a) :: _sorted_by_bound self' /\
      _count (_queue self') = _count (_queue self) /\
      _best_objective self' = _best_objective self /\
      (heap_wf (_heap (_queue self)) ->
       heap_wf (_heap (_queue self')) /\
       Forall (fun e => tuple_le (k, c, a) e = true) (_heap (_queue self))) /\
      custom_inv self'
  end.
Proof.
  intros Hinv. pose proof (custom_inv_sbb_nodup self Hinv) as Hnds.
  destruct Hinv as (Hc & Hn & Hlt & Hnd & Hperm & Hok & Hs). unfold get.
  destruct (_heap (_queue self)) as [|e0 heap] eqn:Hheap.
  - assert (Hsz : (0 <? _NoThreadingMaxPriorityFirstQueue.size (_queue self)) = false).
    { unfold _NoThreadingMaxPriorityFirstQueue.size. by rewrite Hheap. }
    by rewrite Hsz.
  - destruct (queue_get_nonempty (_queue self)) as (k & c & a & heap' & Hget & H0 & Hpermq & Hmin).
    { by rewrite Hheap. }
    rewrite (proj2 (queue_size_pos (_queue self))) by (by rewrite Hheap).
    rewrite Hheap in H0, Hpermq, Hmin. simpl in H0. injection H0 as ->.
    rewrite Hget. unfold Node._extract_bound. rewrite Hc.
    set (x := (signed_bound conv (Node.bound a), c, a)).
    assert (Hin : cnt_item x ∈ cnt_item <$> _sorted_by_bound self).
    { rewrite <- Hperm. simpl. left. }
    apply list_elem_of_fmap in Hin as (e & He & Hin).
    assert (Hoke : sbb_entry_ok e) by (rewrite Forall_forall in Hok; auto).
    assert (e = x) as ->.
    { destruct e as [[ke ce] de], Hoke as [_ Hk]. unfold cnt_item in He. simpl in *.
      simplify_eq. done. }
    destruct (sorted_remove_spec (_sorted_by_bound self) x x) as (l' & Hrem & Hperms & Hs');
      try done.
    + eapply Forall_impl; [done|]. apply sbb_entry_key_ok.
    + by apply sbb_entry_key_ok.
    + apply tuple_eqb_spec. split; [|done]. apply float_eqb_refl. by apply sbb_entry_key_ok.
    + intros e' He' Heq. apply tuple_eqb_spec in Heq as [_ Heq].
      by apply (NoDup_fmap_eq (fun e => e.1.2) (_sorted_by_bound self)).
    + rewrite Hrem. cbn [mbind result_bind].
      eexists k, c, a, _. split; [reflexivity|].
      cbn [_queue _heap _count _converger _sorted_by_bound _best_objective].
      split; [done|]. split; [done|]. split; [done|]. split; [done|]. split; [done|].
      split; [done|]. unfold custom_inv.
      cbn [_queue _heap _count _converger _sorted_by_bound _best_objective].
      split; [done|]. split; [done|]. split; [|split; [|split; [|split]]].
      * rewrite Hpermq in Hlt. by apply Forall_cons in Hlt as [_ Hlt].
      * rewrite Hpermq in Hnd. simpl in Hnd. by apply NoDup_cons in Hnd as [_ Hnd].
      * rewrite Hpermq, Hperms in Hperm. simpl in Hperm.
        by apply Permutation_cons_inv in Hperm.
      * rewrite Hperms in Hok. by apply Forall_cons in Hok as [_ Hok].
      * done.
Qed.

Lemma update_loop_spec R sbb H :
  Forall sbb_entry_ok sbb -> tuple_sorted sbb ->
  NoDup ((fun e => e.1.2) <$> sbb) ->
  cnt_item <$> sbb ≡ₚ cnt_item <$> (H ++ R) ->
  exists sbb',
    update_loop conv (cnt_item <$> R) sbb = Ok (R.*2, sbb') /\
    cnt_item <$> sbb' ≡ₚ cnt_item <$> H /\
    Forall sbb_entry_ok sbb' /\ tuple_sorted sbb'.
Proof.
  revert sbb. induction R as [|r R IH]; intros sbb Hok Hs Hnd Hperm; cbn [fmap list_fmap update_loop].
  - exists sbb. rewrite app_nil_r in Hperm. done.
  - destruct r as [[kr c] a]. cbn [cnt_item fst snd]. unfold Node._extract_bound.
    set (x := (signed_bound conv (Node.bound a), c, a)).
    rewrite <- Permutation_middle in Hperm. cbn [fmap list_fmap cnt_item fst snd] in Hperm.
    assert (Hin : (c, a) ∈ cnt_item <$> sbb) by (rewrite Hperm; left).
    apply list_elem_of_fmap in Hin as (e & He & Hin).
    assert (Hoke : sbb_entry_ok e) by (rewrite Forall_forall in Hok; auto).
    assert (e = x) as ->.
    { destruct e as [[ke ce] de], Hoke as [_ Hk]. unfold cnt_item in He. simpl in *.
      simplify_eq. done. }
    destruct (sorted_remove_spec sbb x x) as (l' & Hrem & Hperms & Hs'); try done.
    + eapply Forall_impl; [done|]. apply sbb_entry_key_ok.
    + by apply sbb_entry_key_ok.
    + apply tuple_eqb_spec. split; [|done]. apply float_eqb_refl. by apply sbb_entry_key_ok.
    + intros e' He' Heq. apply tuple_eqb_spec in Heq as [_ Heq].
      by apply (NoDup_fmap_eq (fun e => e.1.2) sbb).
    + rewrite Hrem. cbn [mbind result_bind].
      destruct (IH l') as (sbb' & Hloop & Hp' & Hok' & Hs'').
      * rewrite Hperms in Hok. by apply Forall_cons in Hok as [_ Hok].
      * done.
      * rewrite Hperms in Hnd. simpl in Hnd. by apply NoDup_cons in Hnd as [_ Hnd].
      * rewrite Hperms in Hperm. simpl in Hperm. by apply Permutation_cons_inv in Hperm.
      * rewrite Hloop. cbn [mbind result_bind]. exists sbb'. done.
Qed.

Lemma custom_update_spec self best :
  custom_inv self ->
  exists removed self',
    update_for_best_objective self best = Ok (removed, self') /\
    _heap (_queue self) ≡ₚ _heap (_queue self') ++
      filter_removed (fun _ d => objective_can_improve conv best (Node.bound d))
        (_heap (_queue self)) /\
    removed = (filter_removed (fun _ d => objective_can_improve conv best (Node.bound d))
        (_heap (_queue self))).*2 /\
    Forall (fun d => objective_can_improve conv best (Node.bound d) = true) (items self') /\
    Forall (fun d => objective_can_improve conv best (Node.bound d) = true)
      (_sorted_by_bound self').*2 /\
    Forall (fun d => objective_can_improve conv best (Node.bound d) = false) removed /\
    _best_objective self' = best /\
    _count (_queue self') = _count (_queue self) /\
    (Forall key_ok (_heap (_queue self)) -> heap_wf (_heap (_queue self'))) /\
    custom_inv self'.
Proof.
  intros Hinv. pose proof (custom_inv_sbb_nodup self Hinv) as Hnds.
  destruct Hinv as (Hc & Hn & Hlt & Hnd & Hperm & Hok & Hs).
  unfold update_for_best_objective, items, _NoThreadingMaxPriorityFirstQueue.items.
  rewrite Hc.
  set (func := fun (_ : float) data_ =>
    objective_can_improve conv best (Node._extract_bound data_)).
  pose proof (queue_filter_counters_spec (_queue self) func) as H.
  destruct (filter_counters (_queue self) func) as [pairs queue].
  destruct H as (Hcount & -> & Hpermq & Hkeep & Hrem & Hwf).
  destruct (update_loop_spec (filter_removed func (_heap (_queue self)))
              (_sorted_by_bound self) (_heap queue)) as (sbb' & Hloop & Hp' & Hok' & Hs');
    try done.
  { rewrite <- Hperm. by apply fmap_Permutation. }
  unfold cnt_item in Hloop. rewrite Hloop. cbn [mbind result_bind].
  eexists _, _. split; [reflexivity|].
  cbn [_queue _heap _count _converger _sorted_by_bound _best_objective].
  split; [done|]. split; [done|]. split; [by apply Forall_fmap|].
  split.
  { rewrite <- cnt_item_snd, Hp', cnt_item_snd. by apply Forall_fmap. }
  split; [by apply Forall_fmap|]. split; [done|]. split; [done|]. split; [done|].
  unfold custom_inv. cbn [_queue _heap _count _converger _sorted_by_bound _best_objective].
  rewrite Hcount.
  split; [done|]. split; [done|]. split; [|split; [|split; [|split]]]; try done.
  - rewrite Hpermq in Hlt. by apply Forall_app in Hlt as [Hlt _].
  - rewrite Hpermq, fmap_app in Hnd. by apply NoDup_app in Hnd as [Hnd _].
Qed.

End Custom.

(** The integers of magnitude at most 2^53, all of them doubles. *)
Definition storable (z : Z) : Prop := Z.abs z <= 2 ^ 53.

Lemma sf_of_small_shape z :
  small z ->
  match sf_of_small z with
  | S754_zero s => z = 0
  | S754_finite s m e => e <= 0 /\ (s = true <-> z < 0)
  | _ => False
  end.
Proof.
  intros Hz. unfold small in Hz. destruct z as [|p|p]; cbn [sf_of_small]; [done| |].
  - destruct (small_float_spec false p (digits2_pos_small p ltac:(lia))) as (m & e & -> & He & _).
    pose proof (digits2_pos_small p ltac:(lia)). split; [lia|]. split; [done|lia].
  - destruct (small_float_spec true p (digits2_pos_small p ltac:(lia))) as (m & e & -> & He & _).
    pose proof (digits2_pos_small p ltac:(lia)). split; [lia|]. split; [lia|done].
Qed.

Lemma binary_normalize_lt a b :
  storable a -> storable b -> a < b ->
  SFltb (binary_normalize prec emax a 0 false) (binary_normalize prec emax b 0 false) = true.
Proof.
  unfold storable. intros Ha Hb Hab.
  assert (Hsmall : forall z, small z -> binary_normalize prec emax z 0 false = sf_of_small z).
  { intros z Hz. pose proof (float_of_int_small z Hz) as [H _]. unfold float_of_int in H.
    unfold small in Hz. destruct z as [|p|p]; cbn [binary_normalize sf_of_small] in *; [done| |].
    - by rewrite binary_round_small by (apply digits2_pos_small; lia).
    - by rewrite binary_round_small by (apply digits2_pos_small; lia). }
  destruct (Z.eq_dec b (2 ^ 53)) as [->|Hb'].
  - destruct (Z.eq_dec a (- 2 ^ 53)) as [->|Ha']; [by vm_compute|].
    assert (Hs : small a) by (unfold small; lia).
    rewrite (Hsmall a Hs). pose proof (sf_of_small_shape a Hs) as Hshape.
    change (binary_normalize prec emax (2 ^ 53) 0 false)
      with (S754_finite false 4503599627370496 1).
    destruct (sf_of_small a) as [s|s| |s m e]; try done; try (by destruct s).
    destruct Hshape as [He _]. unfold SFltb. cbn [SFcompare]. destruct s; [done|].
    by rewrite (proj2 (Z.compare_lt_iff e 1)) by lia.
  - destruct (Z.eq_dec a (- 2 ^ 53)) as [->|Ha'].
    + assert (Hs : small b) by (unfold small; lia).
      rewrite (Hsmall b Hs). pose proof (sf_of_small_shape b Hs) as Hshape.
      change (binary_normalize prec emax (- 2 ^ 53) 0 false)
        with (S754_finite true 4503599627370496 1).
      destruct (sf_of_small b) as [s|s| |s m e]; try done; try (by destruct s).
      destruct Hshape as [He _]. unfold SFltb. cbn [SFcompare]. destruct s; [|done].
      by rewrite (proj2 (Z.compare_gt_iff 1 e)) by lia.
    + assert (Hsa : small a) by (unfold small; lia).
      assert (Hsb : small b) by (unfold small; lia).
      rewrite (Hsmall a Hsa), (Hsmall b Hsb). by apply sf_of_small_lt.
Qed.

Lemma float_of_int_storable z :
  storable z ->
  exists f, float_of_int z = Ok f /\ is_nan f = false /\
            Prim2SF f = binary_normalize prec emax z 0 false.
Proof.
  unfold storable. intros Hz.
  destruct (Z.eq_dec (Z.abs z) (2 ^ 53)) as [Heq|Hne].
  - assert (z = 2 ^ 53 \/ z = - 2 ^ 53) as [->| ->] by lia; eexists; by vm_compute.
  - assert (Hs : small z) by (unfold small; lia).
    destruct (float_of_int_small z Hs) as [Hf Hp].
    exists (SF2Prim (sf_of_small z)). split; [done|]. split.
    + rewrite is_nan_spec, Hp. pose proof (sf_of_small_shape z Hs).
      by destruct (sf_of_small z).
    + rewrite Hp. unfold float_of_int in Hf. unfold small in Hs.
      destruct z as [|p|p]; cbn [binary_normalize sf_of_small]; [done| |];
        by rewrite binary_round_small by (apply digits2_pos_small; lia).
Qed.

Lemma float_of_int_lt a b fa fb :
  storable a -> storable b ->
  float_of_int a = Ok fa -> float_of_int b = Ok fb ->
  a < b -> PrimFloat.ltb fa fb = true.
Proof.
  intros Ha Hb Hfa Hfb Hab.
  destruct (float_of_int_storable a Ha) as (fa' & Hfa' & _ & Hpa).
  destruct (float_of_int_storable b Hb) as (fb' & Hfb' & _ & Hpb).
  rewrite Hfa in Hfa'. rewrite Hfb in Hfb'. simplify_eq.
  rewrite FloatAxioms.ltb_spec, Hpa, Hpb. by apply binary_normalize_lt.
Qed.

(** ** Concrete inputs *)

(** A checker for minimisation without tolerances: a bound can improve
    an incumbent when it is strictly below it. *)
Definition example_minimize : ConvergenceChecker :=
  {| sense := minimize;
     objective_can_improve := fun objective bound => PrimFloat.ltb bound objective |}.

Definition example_maximize : ConvergenceChecker :=
  {| sense := maximize;
     objective_can_improve := fun objective bound => PrimFloat.ltb objective bound |}.

Definition example_node (bound : float) (tree_depth : Z) : Node.data :=
  {| Node.best_objective := infinity;
     Node.bound := bound;
     Node.tree_depth := tree_depth;
     Node.queue_priority := None;
     Node.user_state := [] |}.

(** The checker of the purge scenario of the specification, read as it
    is written: a bound is pruned when [bound >= best].  A bound that is
    not a number is not pruned. *)
Definition example_prune_geq : ConvergenceChecker :=
  {| sense := minimize;
     objective_can_improve := fun objective bound => negb (PrimFloat.leb objective bound) |}.

(** ** C1 *)

Section C1.
Import _NoThreadingMaxPriorityFirstQueue WorstBoundFirstPriorityQueue.

(** C1, as the code has it.  Take the minimize sense and a queue that
    has accepted no node whose bound is NaN, whatever the checker.
    [put] of a node that passes the improvement test writes
    [queue_priority = -bound] into the node and pushes it under the next
    counter, above every counter in the queue; and whenever [get] returns
    a node [a], no node [b] that is in the queue at that moment has
    [b.bound < a.bound], and a node [b] with [b.bound == a.bound] has a
    counter that is not below the counter of [a]: of two nodes that are
    in the queue together the one with the smaller bound is returned
    first, ties in insertion order.  [get] returns a node whenever the
    queue is not empty. *)
Theorem wbf_minimize_order (conv : ConvergenceChecker) (self : WorstBoundFirstPriorityQueue.t) :
  sense conv = minimize -> wbf_reachable conv self ->
  (forall data,
     objective_can_improve conv (_best_objective self) (Node.bound data) = true ->
     exists self' data',
       put self data = Ok (true, self', data') /\
       Node.queue_priority data' = Some (PrimFloat.opp (Node.bound data)) /\
       Node.bound data' = Node.bound data /\
       _heap (_queue self') ≡ₚ
         (PrimFloat.opp (PrimFloat.opp (Node.bound data)), _count (_queue self), data')
           :: _heap (_queue self) /\
       Forall (fun e => e.1.2 < _count (_queue self)) (_heap (_queue self))) /\
  (forall a self',
     get self = (Some a, self') ->
     exists ka ca,
       _heap (_queue self) ≡ₚ (ka, ca, a) :: _heap (_queue self') /\
       forall kb cb b, (kb, cb, b) ∈ _heap (_queue self) ->
         PrimFloat.ltb (Node.bound b) (Node.bound a) = false /\
         (PrimFloat.eqb (Node.bound b) (Node.bound a) = true -> ca <= cb)) /\
  (_heap (_queue self) <> [] -> exists a self', get self = (Some a, self')).
Proof.
  intros Hmin Hreach.
  pose proof (wbf_reachable_inv conv self Hreach) as Hinv.
  assert (Hprio : forall b, wbf_priority conv b = PrimFloat.opp b).
  { intros b. unfold wbf_priority. by rewrite decide_True. }
  split; [|split].
  - intros data Himp. pose proof (wbf_put_spec conv self data Hinv) as Hput.
    rewrite Himp in Hput. destruct Hput as (self' & data' & Hput & Hq & Hb & _ & _ & Hperm & _).
    rewrite Hprio in Hq, Hperm. exists self', data'. repeat split; try done.
    destruct Hinv as (_ & _ & Hok & _).
    eapply Forall_impl; [done|]. intros e (_ & _ & _ & ?). lia.
  - intros a self' Hget. pose proof (wbf_get_spec conv self Hinv) as Hspec.
    destruct (_heap (_queue self)) as [|e0 heap] eqn:Hheap.
    { rewrite Hget in Hspec. simplify_eq. }
    destruct Hspec as (ka & ca & a' & self'' & Hget' & Hperm & _ & Hall & _).
    rewrite Hget in Hget'. injection Hget' as <- <-. exists ka, ca. split; [done|].
    intros kb cb b Hin. rewrite Forall_forall in Hall. specialize (Hall _ Hin).
    apply tuple_le_spec in Hall as [H1 H2]. simpl in H1, H2.
    destruct Hinv as (_ & _ & Hok & _). rewrite Hheap, Forall_forall in Hok.
    destruct (Hok _ Hin) as (_ & Hkb & _). simpl in Hkb.
    assert (Hina : (ka, ca, a) ∈ e0 :: heap) by (rewrite Hperm; left).
    destruct (Hok _ Hina) as (_ & Hka & _). simpl in Hka.
    rewrite Hprio, float_opp_involutive in Hka, Hkb. subst ka kb.
    split; [done|]. intros He. apply H2. by rewrite float_eqb_sym.
  - intros Hne. pose proof (wbf_get_spec conv self Hinv) as Hspec.
    destruct (_heap (_queue self)); [done|].
    destruct Hspec as (ka & ca & a & self' & Hget & _). eauto.
Qed.

(** [put] of each node of a list, in order. *)
Fixpoint wbf_put_all (self : WorstBoundFirstPriorityQueue.t) (nodes : list Node.data)
    : result WorstBoundFirstPriorityQueue.t :=
  match nodes with
  | [] => Ok self
  | data :: nodes' =>
      match put self data with
      | Ok (_, self', _) => wbf_put_all self' nodes'
      | Raise e => Raise e
      end
  end.

Lemma wbf_put_all_reachable conv self nodes self' :
  Forall (fun d => is_nan (Node.bound d) = false) nodes ->
  wbf_reachable conv self -> wbf_put_all self nodes = Ok self' -> wbf_reachable conv self'.
Proof.
  intros Hnum. revert self.
  induction Hnum as [|data nodes Hd _ IH]; intros self Hr Hp; simpl in Hp.
  - by simplify_eq.
  - destruct (put self data) as [[[b s] d]|] eqn:Hput; [|done].
    apply (IH s); [|done]. by eapply wbf_reach_put.
Qed.

(** The queue after [put] of nodes with bounds 5, 1 and 3. *)
Definition example_wbf : WorstBoundFirstPriorityQueue.t :=
  Eval vm_compute in
    match wbf_put_all (__init__ infinity example_minimize)
            [example_node 5 0; example_node 1 0; example_node 3 0] with
    | Ok self => self
    | Raise _ => __init__ infinity example_minimize
    end.

Lemma example_wbf_reachable : wbf_reachable example_minimize example_wbf.
Proof.
  apply (wbf_put_all_reachable _ (__init__ infinity example_minimize)
           [example_node 5 0; example_node 1 0; example_node 3 0]).
  - by repeat constructor.
  - constructor.
  - by vm_compute.
Qed.

Lemma wbf_minimize_order_witness :
  sense example_minimize = minimize /\
  wbf_reachable example_minimize example_wbf /\
  (forall a self',
     get example_wbf = (Some a, self') ->
     exists ka ca,
       _heap (_queue example_wbf) ≡ₚ (ka, ca, a) :: _heap (_queue self') /\
       forall kb cb b, (kb, cb, b) ∈ _heap (_queue example_wbf) ->
         PrimFloat.ltb (Node.bound b) (Node.bound a) = false /\
         (PrimFloat.eqb (Node.bound b) (Node.bound a) = true -> ca <= cb)).
Proof.
  split; [reflexivity|]. split; [apply example_wbf_reachable|].
  apply (wbf_minimize_order example_minimize example_wbf eq_refl example_wbf_reachable).
Defined.

End C1.

(** ** The three classes over [CustomPriorityQueue] *)

Section Variants.
Import _NoThreadingMaxPriorityFirstQueue CustomPriorityQueue.

(** The class of a queue object decides which [put] runs; [get], [bound]
    and [update_for_best_objective] are those of [CustomPriorityQueue]. *)
Inductive variant : Type :=
| Custom
| BreadthFirst
| DepthFirst.

#[global] Instance variant_eq_dec : EqDecision variant.
Proof. solve_decision. Defined.

Definition variant_put (v : variant) (self : CustomPriorityQueue.t) (data : Node.data)
    : result (bool * CustomPriorityQueue.t * Node.data) :=
  match v with
  | Custom => '(b, self') ← CustomPriorityQueue.put self data; Ok (b, self', data)
  | BreadthFirst => BreadthFirstPriorityQueue.put self data
  | DepthFirst => DepthFirstPriorityQueue.put self data
  end.

(** The queues of a class that arise from an empty one by [put], [get]
    and [update_for_best_objective] when every node the queue accepted
    has a bound that is a number. *)
Inductive custom_reachable (conv : ConvergenceChecker) (v : variant)
    : CustomPriorityQueue.t -> Prop :=
| custom_reach_init best :
    custom_reachable conv v (__init__ best conv)
| custom_reach_put self data b self' data' :
    custom_reachable conv v self -> variant_put v self data = Ok (b, self', data') ->
    (b = true -> is_nan (Node.bound data) = false) ->
    custom_reachable conv v self'
| custom_reach_get self r self' :
    custom_reachable conv v self -> get self = Ok (r, self') ->
    custom_reachable conv v self'
| custom_reach_update self best removed self' :
    custom_reachable conv v self ->
    update_for_best_objective self best = Ok (removed, self') ->
    custom_reachable conv v self'.

(** The node a depth-derived [put] hands on: the node with its priority
    slot overwritten. *)
Definition with_priority (data : Node.data) (p : float) : Node.data :=
  {| Node.best_objective := Node.best_objective data;
     Node.bound := Node.bound data;
     Node.tree_depth := Node.tree_depth data;
     Node.queue_priority := Some p;
     Node.user_state := Node.user_state data |}.

(** The integer a variant derives the priority from. *)
Definition depth_priority (v : variant) (data : Node.data) : Z :=
  match v with
  | BreadthFirst => - Node.tree_depth data
  | _ => Node.tree_depth data
  end.

Lemma custom_put_Ok self data b self' :
  put self data = Ok (b, self') ->
  exists p, Node.queue_priority data = Some p /\
    b = objective_can_improve (_converger self) (_best_objective self) (Node.bound data) /\
    (b = false -> self' = self).
Proof.
  unfold put, Node._has_queue_priority, Node._extract_queue_priority, Node._extract_bound.
  destruct (Node.queue_priority data) as [p|]; [|done]. cbn [assert mbind result_bind].
  intros H. exists p. split; [done|].
  destruct (objective_can_improve _ _ _).
  - destruct (_NoThreadingMaxPriorityFirstQueue.put _ _ _). by simplify_eq.
  - by simplify_eq.
Qed.

Lemma depth_put_spec v self data :
  v <> Custom ->
  variant_put v self data =
    (_ ← assert (0 <=? Node.tree_depth data);
     p ← float_of_int (depth_priority v data);
     '(b, self') ← put self (with_priority data p);
     Ok (b, self', with_priority data p)).
Proof.
  intros Hv. destruct v; [done| |];
    unfold variant_put, BreadthFirstPriorityQueue.put, DepthFirstPriorityQueue.put,
      Node._extract_tree_depth, Node._insert_queue_priority, depth_priority;
    destruct (assert (0 <=? Node.tree_depth data)); cbn [mbind result_bind to_float]; try done.
  - by destruct (float_of_int (- Node.tree_depth data)).
  - by destruct (float_of_int (Node.tree_depth data)).
Qed.

Lemma variant_put_inv conv v self data b self' data' :
  (b = true -> is_nan (Node.bound data) = false) -> custom_inv conv self ->
  variant_put v self data = Ok (b, self', data') -> custom_inv conv self'.
Proof.
  intros Hnum Hinv Hput.
  assert (Hgen : forall d b' s, put self d = Ok (b', s) ->
            (b' = true -> is_nan (Node.bound d) = false) -> custom_inv conv s).
  { intros d b' s Hp Hd. destruct (custom_put_Ok _ _ _ _ Hp) as (p & Hq & _ & _).
    pose proof (custom_put_spec conv self d p Hinv Hq) as Hspec.
    assert (Hc : _converger self = conv) by apply Hinv.
    destruct (objective_can_improve conv (_best_objective self) (Node.bound d)).
    - destruct Hspec as (s' & Heq & _ & _ & _ & _ & _ & Hi). rewrite Hp in Heq.
      simplify_eq. apply Hi. by apply Hd.
    - rewrite Hp in Hspec. by simplify_eq. }
  destruct (decide (v = Custom)) as [->|Hv].
  - simpl in Hput. destruct (put self data) as [[b' s]|] eqn:Hp; [|done].
    cbn [mbind result_bind] in Hput. simplify_eq. by eapply Hgen.
  - rewrite depth_put_spec in Hput by done.
    destruct (assert (0 <=? Node.tree_depth data)); [|done].
    destruct (float_of_int (depth_priority v data)) as [p|]; [|done].
    cbn [mbind result_bind] in Hput.
    destruct (put self (with_priority data p)) as [[b' s]|] eqn:Hp; [|done].
    cbn [mbind result_bind] in Hput. simplify_eq. by eapply Hgen.
Qed.

Lemma custom_init_inv conv best : custom_inv conv (__init__ best conv).
Proof. repeat split; try done; simpl; constructor. Qed.

Lemma custom_reachable_inv conv v self :
  custom_reachable conv v self -> custom_inv conv self.
Proof.
  induction 1 as [best|self data b self' data' _ IH Hput Hnum|self r self' _ IH Hget|
                  self best removed self' _ IH Hupd].
  - apply custom_init_inv.
  - by eapply variant_put_inv.
  - pose proof (custom_get_spec conv self IH) as Hspec.
    destruct (_heap (_queue self)).
    + rewrite Hget in Hspec. by simplify_eq.
    + destruct Hspec as (k & c & a & s & Heq & Hrest). rewrite Hget in Heq.
      simplify_eq. apply Hrest.
  - destruct (custom_update_spec conv self best IH) as (rem & s & Heq & Hrest).
    rewrite Hupd in Heq. simplify_eq. apply Hrest.
Qed.

End Variants.

Section CustomClaims.
Import _NoThreadingMaxPriorityFirstQueue.

(** [put] of each node of a list, in order. *)
Fixpoint custom_put_all (v : variant) (self : CustomPriorityQueue.t)
    (nodes : list Node.data) : result CustomPriorityQueue.t :=
  match nodes with
  | [] => Ok self
  | data :: nodes' =>
      match variant_put v self data with
      | Ok (_, self', _) => custom_put_all v self' nodes'
      | Raise e => Raise e
      end
  end.

Lemma custom_put_all_reachable conv v self nodes self' :
  Forall (fun d => is_nan (Node.bound d) = false) nodes ->
  custom_reachable conv v self -> custom_put_all v self nodes = Ok self' ->
  custom_reachable conv v self'.
Proof.
  intros Hnum. revert self.
  induction Hnum as [|data nodes Hd _ IH]; intros self Hr Hp; simpl in Hp.
  - by simplify_eq.
  - destruct (variant_put v self data) as [[[b s] d]|] eqn:Hput; [|done].
    apply (IH s); [|done]. by eapply custom_reach_put.
Qed.

Definition example_nodes : list Node.data :=
  [example_node 1 2; example_node 4 0; example_node 7 1; example_node 10 2].

(** A depth-first queue holding nodes of bounds 1, 4, 7 and 10. *)
Definition example_custom : CustomPriorityQueue.t :=
  Eval vm_compute in
    match custom_put_all DepthFirst (CustomPriorityQueue.__init__ infinity example_minimize)
            example_nodes with
    | Ok self => self
    | Raise _ => CustomPriorityQueue.__init__ infinity example_minimize
    end.

Lemma example_custom_reachable : custom_reachable example_minimize DepthFirst example_custom.
Proof.
  apply (custom_put_all_reachable _ _
           (CustomPriorityQueue.__init__ infinity example_minimize) example_nodes).
  - by repeat constructor.
  - constructor.
  - by vm_compute.
Qed.

(** C2, as the code has it.  [update_for_best_objective(best)] leaves in
    the queue only nodes whose bound can improve [best] and returns only
    nodes whose bound cannot; the queue before is the queue after
    together with the nodes returned.  For [WorstBoundFirstPriorityQueue]
    this holds in every state; for [CustomPriorityQueue] and its
    subclasses it holds in every state of a queue that has accepted no
    node whose bound is NaN: there the call does not raise, the nodes
    left in [_sorted_by_bound] pass the test too, and the heap and
    [_sorted_by_bound] have one length afterwards. *)
Theorem update_for_best_objective_purges (conv : ConvergenceChecker) (v : variant)
    (wself : WorstBoundFirstPriorityQueue.t) (cself : CustomPriorityQueue.t)
    (best : float) :
  custom_reachable conv v cself ->
  (let '(removed, wself') :=
     WorstBoundFirstPriorityQueue.update_for_best_objective wself best in
   let can_improve d :=
     objective_can_improve (WorstBoundFirstPriorityQueue._converger wself) best (Node.bound d) in
   Forall (fun d => can_improve d = true) (WorstBoundFirstPriorityQueue.items wself') /\
   Forall (fun d => can_improve d = false) removed /\
   WorstBoundFirstPriorityQueue.items wself ≡ₚ
     WorstBoundFirstPriorityQueue.items wself' ++ removed) /\
  (exists removed cself',
     CustomPriorityQueue.update_for_best_objective cself best = Ok (removed, cself') /\
     Forall (fun d => objective_can_improve conv best (Node.bound d) = true)
       (CustomPriorityQueue.items cself') /\
     Forall (fun d => objective_can_improve conv best (Node.bound d) = true)
       (CustomPriorityQueue._sorted_by_bound cself').*2 /\
     Forall (fun d => objective_can_improve conv best (Node.bound d) = false) removed /\
     CustomPriorityQueue.items cself ≡ₚ CustomPriorityQueue.items cself' ++ removed /\
     length (_heap (CustomPriorityQueue._queue cself')) =
       length (CustomPriorityQueue._sorted_by_bound cself')).
Proof.
  intros Hreach. split.
  - pose proof (wbf_update_spec conv wself best) as H.
    destruct (WorstBoundFirstPriorityQueue.update_for_best_objective wself best)
      as [removed wself'].
    destruct H as (Hperm & -> & Hkeep & Hrem & _). split; [done|]. split; [done|].
    unfold WorstBoundFirstPriorityQueue.items, items.
    rewrite <- fmap_app. by apply fmap_Permutation.
  - pose proof (custom_reachable_inv conv v cself Hreach) as Hinv.
    destruct (custom_update_spec conv cself best Hinv)
      as (removed & cself' & Heq & Hperm & -> & Hkeep & Hsbb & Hrem & _ & _ & _ & Hinv').
    eexists _, cself'. split; [done|]. split; [done|]. split; [done|]. split; [done|]. split.
    + unfold CustomPriorityQueue.items, items.
      rewrite <- fmap_app. by apply fmap_Permutation.
    + destruct Hinv' as (_ & _ & _ & _ & Hp & _).
      apply Permutation_length in Hp. by rewrite !length_fmap in Hp.
Qed.

Lemma update_for_best_objective_purges_witness :
  custom_reachable example_minimize DepthFirst example_custom /\
  exists removed cself',
    CustomPriorityQueue.update_for_best_objective example_custom 5 = Ok (removed, cself') /\
    Forall (fun d => objective_can_improve example_minimize 5 (Node.bound d) = true)
      (CustomPriorityQueue.items cself') /\
    Forall (fun d => objective_can_improve example_minimize 5 (Node.bound d) = true)
      (CustomPriorityQueue._sorted_by_bound cself').*2 /\
    Forall (fun d => objective_can_improve example_minimize 5 (Node.bound d) = false) removed /\
    CustomPriorityQueue.items example_custom ≡ₚ CustomPriorityQueue.items cself' ++ removed /\
    length (_heap (CustomPriorityQueue._queue cself')) =
      length (CustomPriorityQueue._sorted_by_bound cself').
Proof.
  split; [apply example_custom_reachable|].
  apply (update_for_best_objective_purges example_minimize DepthFirst example_wbf
           example_custom 5 example_custom_reachable).
Defined.

End CustomClaims.

Section CustomClaims2.
#[local] Abbreviation _heap := _NoThreadingMaxPriorityFirstQueue._heap.
#[local] Abbreviation size := _NoThreadingMaxPriorityFirstQueue.size.
#[local] Abbreviation items := _NoThreadingMaxPriorityFirstQueue.items.

Lemma filter_fmap_not_elem_of {A : Type} (f : A -> Z) (l : list A) (c : Z) :
  c ∉ f <$> l -> filter (fun e => f e = c) l = [].
Proof.
  induction l as [|a l IH]; simpl; intros Hc; [done|].
  apply not_elem_of_cons in Hc as [Hne Hc].
  rewrite filter_cons. destruct (decide (f a = c)); [done|]. by apply IH.
Qed.

Lemma NoDup_fmap_filter_length {A : Type} (f : A -> Z) (l : list A) (c : Z) :
  NoDup (f <$> l) -> c ∈ f <$> l -> length (filter (fun e => f e = c) l) = 1%nat.
Proof.
  induction l as [|a l IH]; simpl; intros Hnd Hc; [by apply elem_of_nil in Hc|].
  apply NoDup_cons in Hnd as [Ha Hnd].
  rewrite filter_cons. destruct (decide (f a = c)) as [Heq|Hne].
  - simpl. f_equal. rewrite filter_fmap_not_elem_of; [done|]. by rewrite <- Heq.
  - apply IH; [done|]. apply elem_of_cons in Hc as [?|?]; [congruence|done].
Qed.

(** C3, as the code has it.  In a queue of class [CustomPriorityQueue],
    [BreadthFirstPriorityQueue] or [DepthFirstPriorityQueue] that arose
    from an empty one by [put], [get] and [update_for_best_objective]
    and has accepted no node whose bound is NaN, the heap and
    [_sorted_by_bound] have one length, and for every triple of the heap
    exactly one triple of [_sorted_by_bound] carries its counter; that
    triple holds the same node under the signed bound of the node. *)
Theorem custom_indices_agree (conv : ConvergenceChecker) (v : variant)
    (self : CustomPriorityQueue.t) :
  custom_reachable conv v self ->
  length (_heap (CustomPriorityQueue._queue self)) =
    length (CustomPriorityQueue._sorted_by_bound self) /\
  forall k cnt data, (k, cnt, data) ∈ _heap (CustomPriorityQueue._queue self) ->
    length (filter (fun e => e.1.2 = cnt) (CustomPriorityQueue._sorted_by_bound self)) = 1%nat /\
    (CustomPriorityQueue.signed_bound conv (Node.bound data), cnt, data)
      ∈ CustomPriorityQueue._sorted_by_bound self.
Proof.
  intros Hreach.
  pose proof (custom_reachable_inv conv v self Hreach) as Hinv.
  pose proof (custom_inv_sbb_nodup conv self Hinv) as Hnds.
  destruct Hinv as (_ & _ & _ & Hnd & Hperm & Hok & _). split.
  - apply Permutation_length in Hperm. by rewrite !length_fmap in Hperm.
  - intros k cnt data Hin.
    assert (Hc : cnt_item (k, cnt, data) ∈ cnt_item <$> CustomPriorityQueue._sorted_by_bound self).
    { rewrite <- Hperm. by apply list_elem_of_fmap_2. }
    apply list_elem_of_fmap in Hc as (e & He & Hine). split.
    + apply NoDup_fmap_filter_length; [done|].
      apply list_elem_of_fmap. exists e. split; [|done].
      unfold cnt_item in He. simpl in He. congruence.
    + rewrite Forall_forall in Hok. destruct (Hok e Hine) as [_ Hk].
      destruct e as [[ke ce] de]. unfold cnt_item in He. simpl in *. by simplify_eq.
Qed.

Lemma custom_indices_agree_witness :
  custom_reachable example_minimize DepthFirst example_custom /\
  length (_heap (CustomPriorityQueue._queue example_custom)) =
    length (CustomPriorityQueue._sorted_by_bound example_custom) /\
  forall k cnt data, (k, cnt, data) ∈ _heap (CustomPriorityQueue._queue example_custom) ->
    length (filter (fun e => e.1.2 = cnt)
              (CustomPriorityQueue._sorted_by_bound example_custom)) = 1%nat /\
    (CustomPriorityQueue.signed_bound example_minimize (Node.bound data), cnt, data)
      ∈ CustomPriorityQueue._sorted_by_bound example_custom.
Proof.
  split; [apply example_custom_reachable|].
  apply (custom_indices_agree example_minimize DepthFirst example_custom
           example_custom_reachable).
Defined.

(** C6, as the code has it.  [bound()] and [get()] return [None] on an
    empty queue, for [WorstBoundFirstPriorityQueue] and for
    [CustomPriorityQueue] and its subclasses.  On a non-empty queue of
    the latter that arose from an empty one and has accepted no node
    whose bound is NaN, [bound()] returns the bound of a queued node
    which, under the minimize sense, is not above the bound of any
    queued node and, under the maximize sense, is not below the bound of
    any queued node. *)
Theorem bound_is_weakest (conv : ConvergenceChecker) (v : variant)
    (wself : WorstBoundFirstPriorityQueue.t) (self : CustomPriorityQueue.t) :
  custom_reachable conv v self ->
  (_heap (WorstBoundFirstPriorityQueue._queue wself) = [] ->
   WorstBoundFirstPriorityQueue.bound wself = Ok None /\
   WorstBoundFirstPriorityQueue.get wself = (None, wself)) /\
  (_heap (CustomPriorityQueue._queue self) = [] ->
   CustomPriorityQueue.bound self = Ok None /\
   CustomPriorityQueue.get self = Ok (None, self)) /\
  (_heap (CustomPriorityQueue._queue self) <> [] ->
   exists b,
     CustomPriorityQueue.bound self = Ok (Some b) /\
     (exists data, data ∈ CustomPriorityQueue.items self /\ Node.bound data = b) /\
     forall data, data ∈ CustomPriorityQueue.items self ->
       (sense conv = minimize -> PrimFloat.leb b (Node.bound data) = true) /\
       (sense conv = maximize -> PrimFloat.leb (Node.bound data) b = true)).
Proof.
  intros Hreach.
  pose proof (custom_reachable_inv conv v self Hreach) as Hinv.
  split; [|split].
  - intros Hempty. split.
    + unfold WorstBoundFirstPriorityQueue.bound, size. by rewrite Hempty.
    + unfold WorstBoundFirstPriorityQueue.get. rewrite queue_get_empty by done.
      by destruct wself.
  - intros Hempty. split.
    + destruct Hinv as (_ & _ & _ & _ & Hperm & _).
      rewrite Hempty in Hperm. apply Permutation_nil_l in Hperm. symmetry in Hperm.
      apply fmap_nil_inv in Hperm.
      unfold CustomPriorityQueue.bound, size. by rewrite Hempty, Hperm.
    + pose proof (custom_get_spec conv self Hinv) as H. by rewrite Hempty in H.
  - intros Hne.
    destruct Hinv as (Hc & _ & _ & _ & Hperm & Hok & Hs).
    assert (Hlen : length (_heap (CustomPriorityQueue._queue self)) =
                   length (CustomPriorityQueue._sorted_by_bound self)).
    { apply Permutation_length in Hperm. by rewrite !length_fmap in Hperm. }
    destruct (CustomPriorityQueue._sorted_by_bound self) as [|[[k0 c0] d0] sbb] eqn:Hsbb.
    { destruct (_heap (CustomPriorityQueue._queue self)); done. }
    exists (Node.bound d0). split; [|split].
    + unfold CustomPriorityQueue.bound, size. rewrite Hsbb, Hlen, Z.eqb_refl.
      cbn [assert mbind result_bind]. by destruct (0 <? _) eqn:E.
    + exists d0. split; [|done]. unfold CustomPriorityQueue.items, items.
      rewrite <- cnt_item_snd, Hperm, cnt_item_snd. simpl. left.
    + intros data Hin. unfold CustomPriorityQueue.items, items in Hin.
      rewrite <- cnt_item_snd, Hperm, cnt_item_snd in Hin.
      apply list_elem_of_fmap in Hin as (e & -> & Hin).
      rewrite Forall_forall in Hok.
      destruct (Hok e Hin) as [Hne' Hke].
      destruct (Hok (k0, c0, d0) ltac:(left)) as [Hn0 Hk0]. simpl in Hn0, Hk0.
      assert (Hle : tuple_le (k0, c0, d0) e = true).
      { apply elem_of_cons in Hin as [->|Hin].
        - apply (heap_le_refl tuple_lt key_ok tuple_le_total). by apply (sbb_entry_key_ok conv).
        - apply StronglySorted_inv in Hs as [_ Hall]. rewrite Forall_forall in Hall. auto. }
      apply tuple_le_spec in Hle as [Hle _]. simpl in Hle. rewrite Hke, Hk0 in Hle.
      unfold CustomPriorityQueue.signed_bound in Hle. split; intros Hsense.
      * rewrite !decide_False in Hle by congruence.
        rewrite float_leb_ltb by done. by rewrite Hle.
      * rewrite !decide_True in Hle by done. rewrite float_opp_ltb in Hle.
        rewrite float_leb_ltb by done. by rewrite Hle.
Qed.

Lemma bound_is_weakest_witness :
  custom_reachable example_minimize DepthFirst example_custom /\
  exists b,
    CustomPriorityQueue.bound example_custom = Ok (Some b) /\
    (exists data, data ∈ CustomPriorityQueue.items example_custom /\ Node.bound data = b) /\
    forall data, data ∈ CustomPriorityQueue.items example_custom ->
      (sense example_minimize = minimize -> PrimFloat.leb b (Node.bound data) = true) /\
      (sense example_minimize = maximize -> PrimFloat.leb (Node.bound data) b = true).
Proof.
  split; [apply example_custom_reachable|].
  apply (bound_is_weakest example_minimize DepthFirst example_wbf example_custom
           example_custom_reachable).
  by vm_compute.
Defined.

End CustomClaims2.

Section DepthPut.

Lemma custom_put_total self data p :
  Node.queue_priority data = Some p ->
  exists self',
    CustomPriorityQueue.put self data =
      Ok (objective_can_improve (CustomPriorityQueue._converger self)
            (CustomPriorityQueue._best_objective self) (Node.bound data), self') /\
    (objective_can_improve (CustomPriorityQueue._converger self)
       (CustomPriorityQueue._best_objective self) (Node.bound data) = false -> self' = self).
Proof.
  intros Hp. unfold CustomPriorityQueue.put, Node._has_queue_priority,
    Node._extract_queue_priority, Node._extract_bound.
  rewrite Hp. cbn [assert mbind result_bind].
  destruct (objective_can_improve _ _ _).
  - destruct (_NoThreadingMaxPriorityFirstQueue.put _ _ _). eexists. by split.
  - eexists. by split.
Qed.

(** C10.  [put] of [BreadthFirstPriorityQueue] and of
    [DepthFirstPriorityQueue] returns the node with its [queue_priority]
    overwritten by the double of [-tree_depth] and of [tree_depth],
    whatever priority the node carried before, and it does so also when
    the improvement test fails: [put] then returns [False], the queue is
    unchanged and the node is overwritten all the same. *)
Theorem depth_put_overwrites_priority (self : CustomPriorityQueue.t) (data : Node.data)
    (pb pd : float) :
  0 <= Node.tree_depth data ->
  float_of_int (- Node.tree_depth data) = Ok pb ->
  float_of_int (Node.tree_depth data) = Ok pd ->
  let b := objective_can_improve (CustomPriorityQueue._converger self)
             (CustomPriorityQueue._best_objective self) (Node.bound data) in
  (exists self',
     BreadthFirstPriorityQueue.put self data = Ok (b, self', with_priority data pb) /\
     (b = false -> self' = self)) /\
  (exists self',
     DepthFirstPriorityQueue.put self data = Ok (b, self', with_priority data pd) /\
     (b = false -> self' = self)).
Proof.
  intros Hd Hb Hp b. split.
  - pose proof (depth_put_spec BreadthFirst self data ltac:(done)) as H.
    cbn [variant_put depth_priority] in H. rewrite H, Hb.
    rewrite (proj2 (Z.leb_le _ _) Hd). cbn [assert mbind result_bind].
    destruct (custom_put_total self (with_priority data pb) pb eq_refl) as (self' & -> & Hs).
    exists self'. by split.
  - pose proof (depth_put_spec DepthFirst self data ltac:(done)) as H.
    cbn [variant_put depth_priority] in H. rewrite H, Hp.
    rewrite (proj2 (Z.leb_le _ _) Hd). cbn [assert mbind result_bind].
    destruct (custom_put_total self (with_priority data pd) pd eq_refl) as (self' & -> & Hs).
    exists self'. by split.
Qed.

(** A node of depth 2 and bound 9 that already carries the priority 42. *)
Definition example_prioritised : Node.data :=
  {| Node.best_objective := infinity;
     Node.bound := 9;
     Node.tree_depth := 2;
     Node.queue_priority := Some 42%float;
     Node.user_state := [] |}.

(** The example queue with the incumbent 5: a bound of 9 cannot improve. *)
Definition example_pruned : CustomPriorityQueue.t :=
  Eval vm_compute in
    match CustomPriorityQueue.update_for_best_objective example_custom 5 with
    | Ok (_, self) => self
    | Raise _ => example_custom
    end.

Lemma depth_put_overwrites_priority_witness :
  (exists self',
     BreadthFirstPriorityQueue.put example_pruned example_prioritised =
       Ok (false, self', with_priority example_prioritised (-2)%float) /\
     (false = false -> self' = example_pruned)) /\
  (exists self',
     DepthFirstPriorityQueue.put example_pruned example_prioritised =
       Ok (false, self', with_priority example_prioritised 2%float) /\
     (false = false -> self' = example_pruned)).
Proof.
  apply (depth_put_overwrites_priority example_pruned example_prioritised
           (-2)%float 2%float); [by vm_compute|by vm_compute|by vm_compute].
Defined.

End DepthPut.

(** ** Draining a depth-first or breadth-first queue *)

Section Drain.
#[local] Abbreviation _heap := _NoThreadingMaxPriorityFirstQueue._heap.
#[local] Abbreviation _count := _NoThreadingMaxPriorityFirstQueue._count.
Import CustomPriorityQueue.

(** Successive [get] until the queue is empty: the nodes in the order
    [get] returns them, each with the counter it was filed under, which is
    read from the root of the heap as [get] itself reads it. *)
Fixpoint drain (n : nat) (self : CustomPriorityQueue.t) : result (list (Z * Node.data)) :=
  match n with
  | O => Ok []
  | S n' =>
      match _heap (_queue self) with
      | [] => Ok []
      | (_, cnt, _) :: _ =>
          '(r, self') ← get self;
          match r with
          | Some data => rest ← drain n' self'; Ok ((cnt, data) :: rest)
          | None => Ok []
          end
      end
  end.

(** The node as a depth-derived [put] stamps it. *)
Definition stamp (v : variant) (data : Node.data) : Node.data :=
  match float_of_int (depth_priority v data) with
  | Ok p => with_priority data p
  | Raise _ => data
  end.

(** [x] is returned before [y]: the deeper node first for depth-first,
    the shallower first for breadth-first, the lower counter first at one
    depth. *)
Definition drains_before (v : variant) (x y : Z * Node.data) : Prop :=
  match v with
  | BreadthFirst => Node.tree_depth x.2 < Node.tree_depth y.2
  | _ => Node.tree_depth y.2 < Node.tree_depth x.2
  end \/
  (Node.tree_depth x.2 = Node.tree_depth y.2 /\ x.1 < y.1).

Definition depth_entry_ok (v : variant) (e : float * Z * Node.data) : Prop :=
  exists p, e.1.1 = PrimFloat.opp p /\
            float_of_int (depth_priority v e.2) = Ok p /\
            storable (depth_priority v e.2).

Lemma depth_entry_key_ok v e : depth_entry_ok v e -> key_ok e.
Proof.
  intros (p & Hk & Hp & Hs). unfold key_ok. rewrite Hk, float_opp_nan.
  destruct (float_of_int_storable _ Hs) as (f & Hf & Hn & _). congruence.
Qed.

Lemma depth_entries_order v x y :
  v <> Custom -> depth_entry_ok v x -> depth_entry_ok v y ->
  tuple_le x y = true -> x.1.2 <> y.1.2 ->
  drains_before v (cnt_item x) (cnt_item y).
Proof.
  intros Hv (px & Hkx & Hpx & Hsx) (py & Hky & Hpy & Hsy) Hle Hne.
  apply tuple_le_spec in Hle as [Hlt Heq]. rewrite Hkx, Hky in Hlt, Heq.
  rewrite float_opp_ltb in Hlt. rewrite float_opp_eqb in Heq.
  destruct (Z.lt_trichotomy (depth_priority v x.2) (depth_priority v y.2)) as [H|[H|H]].
  - rewrite (float_of_int_lt _ _ _ _ Hsx Hsy Hpx Hpy H) in Hlt. done.
  - right. rewrite H in Hpx. rewrite Hpx in Hpy. simplify_eq.
    destruct (float_of_int_storable _ Hsy) as (f & Hf & Hn & _).
    rewrite Hf in Hpx. simplify_eq.
    specialize (Heq (float_eqb_refl _ Hn)). unfold cnt_item. simpl.
    split; [|lia]. destruct v; simpl in H; try done; lia.
  - left. unfold cnt_item. simpl. destruct v; simpl in H; try done; lia.
Qed.

Lemma drain_spec n self conv :
  custom_inv conv self -> heap_wf (_heap (_queue self)) ->
  (length (_heap (_queue self)) <= n)%nat ->
  exists E, drain n self = Ok (cnt_item <$> E) /\
            E ≡ₚ _heap (_queue self) /\ tuple_sorted E.
Proof.
  revert self. induction n as [|n IH]; intros self Hinv Hwf Hlen.
  - destruct (_heap (_queue self)) eqn:Hh; [|simpl in Hlen; lia].
    exists []. simpl. split; [done|]. split; [done|constructor].
  - cbn [drain]. pose proof (custom_get_spec conv self Hinv) as Hget.
    destruct (_heap (_queue self)) as [|[[k0 c0] d0] heap] eqn:Hh.
    { exists []. split; [done|]. split; [done|constructor]. }
    destruct Hget as (k & c & a & self' & Hget & H0 & Hperm & _ & _ & _ & Hmin & Hinv').
    rewrite <- Hh in Hwf.
    simpl in H0. injection H0 as <- <- <-.
    rewrite Hget. cbn [mbind result_bind].
    rewrite Hh in Hwf. destruct (Hmin Hwf) as [Hwf' Hall].
    destruct (IH self' Hinv' Hwf') as (E & -> & HpE & HsE).
    { apply Permutation_length in Hperm. simpl in Hperm, Hlen. lia. }
    cbn [mbind result_bind]. exists ((k0, c0, d0) :: E). split; [done|]. split.
    + by rewrite Hperm, HpE.
    + constructor; [done|]. rewrite HpE. rewrite Hperm in Hall.
      by apply Forall_cons in Hall as [_ Hall].
Qed.

Lemma sorted_entries_drain_order v E :
  v <> Custom -> Forall (depth_entry_ok v) E -> NoDup ((fun e => e.1.2) <$> E) ->
  tuple_sorted E -> StronglySorted (drains_before v) (cnt_item <$> E).
Proof.
  intros Hv Hok Hnd Hs. induction Hs as [|x E Hs IH Hall]; simpl; [constructor|].
  apply Forall_cons in Hok as [Hx Hok]. simpl in Hnd. apply NoDup_cons in Hnd as [Hnx Hnd].
  constructor; [by apply IH|].
  apply Forall_fmap, Forall_forall. intros y Hy. simpl.
  rewrite Forall_forall in Hall, Hok.
  apply depth_entries_order; auto.
  intros Heq. apply Hnx. rewrite Heq.
  apply (list_elem_of_fmap_2 (fun e : float * Z * Node.data => e.1.2) E y Hy).
Qed.

End Drain.

Section DrainOrder.
#[local] Abbreviation _heap := _NoThreadingMaxPriorityFirstQueue._heap.
#[local] Abbreviation _count := _NoThreadingMaxPriorityFirstQueue._count.
Import CustomPriorityQueue.
Variable conv : ConvergenceChecker.
Variable v : variant.
Variable best : float.
Hypothesis v_depth : v <> Custom.

(** The nodes [put] files when the incumbent is [best]. *)
Definition accepted (nodes : list Node.data) : list Node.data :=
  base.filter (fun d => objective_can_improve conv best (Node.bound d) = true) nodes.

(** The nodes filed, stamped, each with the counter it is filed under:
    its index among the nodes filed. *)
Definition filed (nodes : list Node.data) : list (Z * Node.data) :=
  imap (fun i d => (Z.of_nat i, stamp v d)) (accepted nodes).

Definition depth_inv (self : CustomPriorityQueue.t) (acc : list Node.data) : Prop :=
  custom_inv conv self /\
  heap_wf (_heap (_queue self)) /\
  Forall (depth_entry_ok v) (_heap (_queue self)) /\
  _best_objective self = best /\
  _count (_queue self) = Z.of_nat (length acc) /\
  cnt_item <$> _heap (_queue self) ≡ₚ imap (fun i d => (Z.of_nat i, stamp v d)) acc.

Lemma depth_priority_storable data :
  0 <= Node.tree_depth data <= 2 ^ 53 -> storable (depth_priority v data).
Proof. unfold storable. destruct v; simpl; lia. Qed.

Lemma depth_put_step self acc data :
  depth_inv self acc -> 0 <= Node.tree_depth data <= 2 ^ 53 ->
  is_nan (Node.bound data) = false ->
  exists b self' data',
    variant_put v self data = Ok (b, self', data') /\
    depth_inv self'
      (if objective_can_improve conv best (Node.bound data) then acc ++ [data] else acc).
Proof.
  intros (Hinv & Hwf & Hok & Hbest & Hcount & Hperm) Hd Hnum.
  rewrite depth_put_spec by done.
  rewrite (proj2 (Z.leb_le _ _) (proj1 Hd)). cbn [assert mbind result_bind].
  pose proof (depth_priority_storable data Hd) as Hs.
  destruct (float_of_int_storable _ Hs) as (p & Hp & Hn & _).
  rewrite Hp. cbn [mbind result_bind].
  pose proof (custom_put_spec conv self (with_priority data p) p Hinv eq_refl) as Hput.
  rewrite Hbest in Hput. cbn [with_priority Node.bound] in Hput.
  destruct (objective_can_improve conv best (Node.bound data)) eqn:Himp.
  - destruct Hput as (self' & -> & Hc' & Hb' & Hph & _ & Hwf' & Hinv').
    cbn [mbind result_bind]. eexists _, self', _. split; [done|].
    split; [by apply Hinv'|]. split; [by apply Hwf'|]. split; [|split; [|split]].
    + rewrite Hph. constructor; [|done]. exists p. by repeat split.
    + congruence.
    + rewrite Hc', Hcount, length_app. simpl. lia.
    + rewrite Hph, imap_app. simpl. rewrite Hperm, Hcount, Nat.add_0_r.
      unfold cnt_item at 1. simpl. unfold stamp. rewrite Hp.
      apply Permutation_cons_append.
  - rewrite Hput. cbn [mbind result_bind]. eexists _, self, _. split; [done|]. done.
Qed.

Lemma depth_put_all self acc nodes :
  depth_inv self acc ->
  Forall (fun d => 0 <= Node.tree_depth d <= 2 ^ 53) nodes ->
  Forall (fun d => is_nan (Node.bound d) = false) nodes ->
  exists self',
    custom_put_all v self nodes = Ok self' /\
    depth_inv self' (acc ++ accepted nodes).
Proof.
  revert self acc. induction nodes as [|data nodes IH]; intros self acc Hinv Hd Hnum; simpl.
  - exists self. by rewrite app_nil_r.
  - apply Forall_cons in Hd as [Hd Hds]. apply Forall_cons in Hnum as [Hn Hns].
    destruct (depth_put_step self acc data Hinv Hd Hn) as (b & self1 & data' & -> & Hinv1).
    destruct (IH _ _ Hinv1 Hds Hns) as (self' & -> & Hinv'). exists self'. split; [done|].
    unfold accepted in *. rewrite filter_cons.
    destruct (objective_can_improve conv best (Node.bound data)) eqn:Himp.
    + rewrite decide_True by done. by rewrite <- app_assoc in Hinv'.
    + rewrite decide_False by done. done.
Qed.

Lemma depth_init_inv : depth_inv (__init__ best conv) [].
Proof.
  split; [apply custom_init_inv|]. split; [apply heap_wf_nil|]. by repeat split.
Qed.

End DrainOrder.

(** C9, as the code has it.  Put nodes of depths between 0 and 2^53,
    with bounds that are not NaN, into an empty
    [DepthFirstPriorityQueue] or [BreadthFirstPriorityQueue] and [get]
    until the queue is empty.  No call raises; the nodes returned are the
    nodes filed, each stamped with the double of its depth (depth-first)
    or of minus its depth (breadth-first) as [queue_priority]; and they
    come in the order of [drains_before]: by depth, non-increasing for
    depth-first and non-decreasing for breadth-first, nodes of one depth
    in the order of their counters, which is the order they were put. *)
Theorem depth_breadth_drain_order (conv : ConvergenceChecker) (v : variant)
    (best : float) (nodes : list Node.data) :
  v <> Custom ->
  Forall (fun d => 0 <= Node.tree_depth d <= 2 ^ 53) nodes ->
  Forall (fun d => is_nan (Node.bound d) = false) nodes ->
  exists self l,
    custom_put_all v (CustomPriorityQueue.__init__ best conv) nodes = Ok self /\
    drain (length (_NoThreadingMaxPriorityFirstQueue._heap (CustomPriorityQueue._queue self)))
      self = Ok l /\
    l ≡ₚ filed conv v best nodes /\
    StronglySorted (drains_before v) l.
Proof.
  intros Hv Hd Hnum.
  destruct (depth_put_all conv v best Hv _ [] nodes (depth_init_inv conv v best) Hd Hnum)
    as (self & Hput & Hinv & Hwf & Hok & _ & _ & Hperm).
  simpl in Hperm.
  destruct (drain_spec _ self conv Hinv Hwf (Nat.le_refl _)) as (E & Hdrain & HpE & HsE).
  exists self, (cnt_item <$> E). split; [done|]. split; [done|]. split.
  - unfold filed. by rewrite HpE, Hperm.
  - apply sorted_entries_drain_order; try done.
    + by rewrite HpE.
    + rewrite HpE. apply Hinv.
Qed.

Definition example_depths : list Node.data :=
  [example_node 5 2; example_node 1 0; example_node 3 1;
   example_node 4 2; example_node 7 0; example_node 10 3].

Lemma depth_breadth_drain_order_witness :
  DepthFirst <> Custom /\
  Forall (fun d => 0 <= Node.tree_depth d <= 2 ^ 53) example_depths /\
  Forall (fun d => is_nan (Node.bound d) = false) example_depths /\
  exists self l,
    custom_put_all DepthFirst (CustomPriorityQueue.__init__ infinity example_minimize)
      example_depths = Ok self /\
    drain (length (_NoThreadingMaxPriorityFirstQueue._heap (CustomPriorityQueue._queue self)))
      self = Ok l /\
    l ≡ₚ filed example_minimize DepthFirst infinity example_depths /\
    StronglySorted (drains_before DepthFirst) l.
Proof.
  assert (H1 : DepthFirst <> Custom) by done.
  assert (H2 : Forall (fun d => 0 <= Node.tree_depth d <= 2 ^ 53) example_depths).
  { repeat constructor; by vm_compute. }
  assert (H3 : Forall (fun d => is_nan (Node.bound d) = false) example_depths).
  { by repeat constructor. }
  split; [done|]. split; [done|]. split; [done|].
  apply (depth_breadth_drain_order example_minimize DepthFirst infinity example_depths
           H1 H2 H3).
Defined.

(** ** Bounds that are not numbers, and depths that are not doubles

    Whether a node is accepted is the checker's decision.  Under the
    checker [example_prune_geq] a node whose bound is NaN is accepted, and
    the comparisons of the heap and of [_sorted_by_bound], which are all
    false on NaN, no longer order the entries. *)

Section OutsideTheConditions.
#[local] Abbreviation _heap := _NoThreadingMaxPriorityFirstQueue._heap.

(** A worst-bound-first queue after [put] of nodes with the bounds 5,
    NaN, 6 and 1. *)
Definition example_wbf_nan : WorstBoundFirstPriorityQueue.t :=
  Eval vm_compute in
    match wbf_put_all (WorstBoundFirstPriorityQueue.__init__ infinity example_prune_geq)
            [example_node 5 0; example_node nan 0; example_node 6 0; example_node 1 0] with
    | Ok self => self
    | Raise _ => WorstBoundFirstPriorityQueue.__init__ infinity example_prune_geq
    end.

(** A depth-first queue after [put] of a node of bound NaN and depth 1
    and of a node of bound 3 and depth 0. *)
Definition example_custom_nan : CustomPriorityQueue.t :=
  Eval vm_compute in
    match custom_put_all DepthFirst
            (CustomPriorityQueue.__init__ infinity example_prune_geq)
            [example_node nan 1; example_node 3 0] with
    | Ok self => self
    | Raise _ => CustomPriorityQueue.__init__ infinity example_prune_geq
    end.

(** After [put] of nodes with the bounds 5, NaN, 6 and 1 under the
    minimize sense, [get] returns the node of bound 5 while the node of
    bound 1 is in the queue. *)
Lemma wbf_nan_bound_misorders :
  sense example_prune_geq = minimize /\
  wbf_put_all (WorstBoundFirstPriorityQueue.__init__ infinity example_prune_geq)
    [example_node 5 0; example_node nan 0; example_node 6 0; example_node 1 0] =
    Ok example_wbf_nan /\
  exists a self' b,
    WorstBoundFirstPriorityQueue.get example_wbf_nan = (Some a, self') /\
    Node.bound a = 5%float /\
    WorstBoundFirstPriorityQueue.items example_wbf_nan !! 3%nat = Some b /\
    Node.bound b = 1%float /\
    PrimFloat.ltb (Node.bound b) (Node.bound a) = true.
Proof.
  split; [reflexivity|]. split; [by vm_compute|].
  eexists _, _, _. split; [vm_compute; reflexivity|]. split; [reflexivity|].
  split; [vm_compute; reflexivity|]. split; reflexivity.
Qed.

(** With a node of bound NaN and a node of bound 3 in the queue,
    [update_for_best_objective(2)] filters the node of bound 3 out of the
    heap and then fails to remove it from [_sorted_by_bound]: the call
    raises [ValueError], one entry is left in the heap and two in
    [_sorted_by_bound]. *)
Lemma custom_nan_bound_update_raises :
  custom_put_all DepthFirst (CustomPriorityQueue.__init__ infinity example_prune_geq)
    [example_node nan 1; example_node 3 0] = Ok example_custom_nan /\
  CustomPriorityQueue.update_for_best_objective example_custom_nan 2 = Raise ValueError /\
  length (_heap (_NoThreadingMaxPriorityFirstQueue.filter_counters
                   (CustomPriorityQueue._queue example_custom_nan)
                   (fun _ data_ => objective_can_improve example_prune_geq 2
                                     (Node._extract_bound data_))).2) = 1%nat /\
  length (CustomPriorityQueue._sorted_by_bound example_custom_nan) = 2%nat.
Proof. repeat split; by vm_compute. Qed.

(** With a node of bound NaN and a node of bound 3 in the queue, [get]
    pops the heap and then fails to remove the node from
    [_sorted_by_bound]: the call raises [ValueError], one entry is left in
    the heap and two in [_sorted_by_bound]. *)
Lemma custom_nan_bound_get_raises :
  custom_put_all DepthFirst (CustomPriorityQueue.__init__ infinity example_prune_geq)
    [example_node nan 1; example_node 3 0] = Ok example_custom_nan /\
  CustomPriorityQueue.get example_custom_nan = Raise ValueError /\
  length (_heap (_NoThreadingMaxPriorityFirstQueue.get
                   (CustomPriorityQueue._queue example_custom_nan)).2) = 1%nat /\
  length (CustomPriorityQueue._sorted_by_bound example_custom_nan) = 2%nat.
Proof. repeat split; by vm_compute. Qed.

(** With a node of bound NaN and a node of bound 3 in the queue, under
    the minimize sense, [bound()] returns NaN, which is not the least
    bound in the queue. *)
Lemma custom_nan_bound_is_not_weakest :
  sense example_prune_geq = minimize /\
  custom_put_all DepthFirst (CustomPriorityQueue.__init__ infinity example_prune_geq)
    [example_node nan 1; example_node 3 0] = Ok example_custom_nan /\
  exists b data,
    CustomPriorityQueue.bound example_custom_nan = Ok (Some b) /\
    is_nan b = true /\
    CustomPriorityQueue.items example_custom_nan !! 1%nat = Some data /\
    Node.bound data = 3%float /\
    PrimFloat.leb b (Node.bound data) = false.
Proof.
  split; [reflexivity|]. split; [by vm_compute|].
  eexists _, _. split; [vm_compute; reflexivity|]. split; [reflexivity|].
  split; [vm_compute; reflexivity|]. split; reflexivity.
Qed.

(** A depth-first queue does not drain when it holds a node of bound
    NaN: the first [get] raises [ValueError].  And depths beyond 2^53 are
    rounded when they are stored as priorities: nodes of depth 2^53 and
    2^53 + 1, put in this order, leave a depth-first queue in this
    order, the shallower first. *)
Lemma depth_drain_outside_conditions :
  (custom_put_all DepthFirst (CustomPriorityQueue.__init__ infinity example_prune_geq)
     [example_node nan 1; example_node 3 0] = Ok example_custom_nan /\
   drain 2 example_custom_nan = Raise ValueError) /\
  exists self l,
    custom_put_all DepthFirst (CustomPriorityQueue.__init__ infinity example_minimize)
      [example_node 1 (2 ^ 53); example_node 1 (2 ^ 53 + 1)] = Ok self /\
    drain 2 self = Ok l /\
    (fun e : Z * Node.data => Node.tree_depth e.2) <$> l = [2 ^ 53; 2 ^ 53 + 1].
Proof.
  split; [split; by vm_compute|].
  eexists _, _. split; [vm_compute; reflexivity|]. split; [vm_compute; reflexivity|].
  reflexivity.
Qed.

End OutsideTheConditions.

(** ** The handshake *)

Section Handshake.
Import MPI DispatcherProxy.

(** Every member passes a process type and exactly one passes
    [dispatcher]: the process types sum to 1. *)
Definition one_dispatcher (peers : list Z) : Prop :=
  Forall (fun p => p = ProcessType.worker \/ p = ProcessType.dispatcher) peers /\
  foldr Z.add 0 peers = ProcessType.dispatcher.

Lemma sum_zero_replicate (l : list Z) :
  Forall (fun p => p = 0 \/ p = 1) l -> foldr Z.add 0 l = 0 -> l = replicate (length l) 0.
Proof.
  induction 1 as [|p l Hp Hl IH]; simpl; [done|]. intros Hs.
  assert (0 <= foldr Z.add 0 l).
  { clear -Hl. induction Hl as [|q l Hq _ IH]; simpl; lia. }
  assert (p = 0) by lia. subst. f_equal. apply IH. lia.
Qed.

Lemma one_dispatcher_shape peers :
  one_dispatcher peers ->
  exists a b, peers = replicate a 0 ++ 1 :: replicate b 0.
Proof.
  unfold one_dispatcher, ProcessType.worker, ProcessType.dispatcher. intros [Hall Hsum].
  induction Hall as [|p l Hp Hl IH]; simpl in Hsum; [done|].
  assert (0 <= foldr Z.add 0 l).
  { clear -Hl. induction Hl as [|q l Hq _ IH]; simpl; lia. }
  destruct Hp as [->| ->].
  - destruct IH as (a & b & ->); [lia|]. by exists (S a), b.
  - exists 0%nat, (length l). simpl. f_equal. apply sum_zero_replicate; [done|lia].
Qed.

Lemma foldl_SUM x l : foldl SUM x l = x + foldr Z.add 0 l.
Proof.
  revert x. induction l as [|y l IH]; intros x; simpl; [lia|]. rewrite IH. unfold SUM. lia.
Qed.

Lemma foldl_MAXLOC_found i b js :
  foldl MAXLOC (1, i) (zip (replicate b 0) js) = (1, i).
Proof.
  revert js. induction b as [|b IH]; intros js; simpl; [done|].
  destruct js as [|j js]; simpl; [done|]. apply IH.
Qed.

Lemma foldl_MAXLOC_search i a b k :
  foldl MAXLOC (0, i)
    (zip (replicate a 0 ++ 1 :: replicate b 0) (Z.of_nat <$> seq k (a + S b))) =
  (1, Z.of_nat (k + a)).
Proof.
  revert i k. induction a as [|a IH]; intros i k; simpl.
  - rewrite foldl_MAXLOC_found. by rewrite Nat.add_0_r.
  - rewrite IH. f_equal. lia.
Qed.

Lemma allreduce_MAXLOC_shape a b :
  foldl MAXLOC
    (match zip (replicate a 0 ++ 1 :: replicate b 0) (Z.of_nat <$> seq 0 (a + S b)) with
     | x :: _ => x
     | [] => (0, 0)
     end)
    (tail (zip (replicate a 0 ++ 1 :: replicate b 0) (Z.of_nat <$> seq 0 (a + S b)))) =
  (1, Z.of_nat a).
Proof.
  destruct a as [|a]; simpl.
  - apply foldl_MAXLOC_found.
  - by rewrite foldl_MAXLOC_search.
Qed.

(** The colours the members pass to [Split] and the communicator a member
    gets back. *)
Definition split_colors (n : nat) (drank : Z) : list Z :=
  (fun r => if negb (r =? drank) then 0 else 1) <$> (Z.of_nat <$> seq 0 n).

Definition split_comm (n : nat) (drank : Z) (r : nat) : Comm :=
  let color := if negb (Z.of_nat r =? drank) then 0 else 1 in
  {| group := Split_group (world n (Z.of_nat r)) (split_colors n drank) color;
     rank := Split_rank (world n (Z.of_nat r)) (split_colors n drank) color |}.

Definition root_rank (n : nat) (drank : Z) : Z :=
  if drank =? Z.of_nat n - 1 then Z.of_nat n - 1 - 1 else Z.of_nat n - 1.

Lemma _init_shape a b r s :
  let n := (a + S b)%nat in
  let peers := replicate a 0 ++ 1 :: replicate b 0 in
  (r < n)%nat ->
  _init (world n (Z.of_nat r)) peers (default 0 (peers !! r)) s =
    Return (Z.of_nat a, root_rank n (Z.of_nat a), split_comm n (Z.of_nat a) r)
      {| calls := calls s ++
           [CallAllreduce (world n (Z.of_nat r)); CallAllreduce (world n (Z.of_nat r));
            CallSplit (world n (Z.of_nat r)) (if negb (Z.of_nat r =? Z.of_nat a) then 0 else 1)];
         inbox := inbox s |}.
Proof.
  intros n peers Hr.
  assert (Hlen : length peers = n).
  { unfold peers. rewrite length_app, length_replicate. simpl. by rewrite length_replicate. }
  destruct (lookup_lt_is_Some_2 peers r ltac:(lia)) as [ptype Hp].
  rewrite Hp. change (default 0 (Some ptype)) with ptype. unfold _init. cbv zeta. cbn [rank world]. rewrite Nat2Z.id.
  rewrite (list_insert_id peers r ptype Hp), Hlen.
  assert (Hpt : ptype = (if decide (r = a) then 1 else 0)).
  { unfold peers in Hp. destruct (decide (r = a)) as [->|Hne].
    - rewrite lookup_app_r in Hp by (rewrite length_replicate; lia).
      rewrite length_replicate, Nat.sub_diag in Hp. simpl in Hp. by simplify_eq.
    - destruct (decide (r < a)%nat).
      + rewrite lookup_app_l in Hp by (rewrite length_replicate; lia).
        apply lookup_replicate in Hp as [? _]. done.
      + rewrite lookup_app_r in Hp by (rewrite length_replicate; lia).
        rewrite length_replicate in Hp.
        destruct (r - a)%nat as [|j] eqn:Hj; [lia|]. simpl in Hp.
        apply lookup_replicate in Hp as [? _]. done. }
  assert (Hsum : foldr Z.add 0 peers = 1).
  { unfold peers. clear. induction a as [|a IH]; simpl.
    - induction b as [|b IH]; simpl; lia.
    - done. }
  cbv beta iota zeta delta [mbind M_bind lift allreduce log mret M_ret
    ProcessType.worker ProcessType.dispatcher].
  assert (Ha : ((ptype =? 0) || (ptype =? 1)) = true).
  { rewrite Hpt. by case_decide. }
  rewrite Ha. cbn [assert].
  destruct peers as [|p0 rest] eqn:Hpeers; [simpl in Hlen; lia|].
  rewrite foldl_SUM. change (p0 + foldr Z.add 0 rest) with (foldr Z.add 0 (p0 :: rest)).
  rewrite Hsum, Z.eqb_refl. cbn [assert calls inbox].
  pose proof (allreduce_MAXLOC_shape a b) as Hmax. fold peers in Hmax.
  unfold n in *. rewrite Hpeers in Hmax.
  destruct (zip (p0 :: rest) (Z.of_nat <$> seq 0 (a + S b))) as [|x zs] eqn:Hzip;
    [by destruct (a + S b)%nat|].
  cbn [tail] in Hmax. rewrite Hmax, Z.eqb_refl. cbn [assert calls inbox].
  assert (Hassert :
    (if ptype =? 1
     then assert (Z.of_nat a =? Z.of_nat r)
     else assert (negb (Z.of_nat a =? Z.of_nat r))) = Ok tt).
  { rewrite Hpt. case_decide as Hra; simpl.
    - subst. by rewrite Z.eqb_refl.
    - by rewrite (proj2 (Z.eqb_neq _ _)) by lia. }
  rewrite Hassert. unfold Split. cbn [rank world]. rewrite Nat2Z.id.
  fold (split_colors (a + S b) (Z.of_nat a)).
  assert (Hcol : split_colors (a + S b) (Z.of_nat a) !! r =
                 Some (if negb (Z.of_nat r =? Z.of_nat a) then 0 else 1)).
  { unfold split_colors. rewrite !list_lookup_fmap, lookup_seq_lt by lia. done. }
  rewrite Hcol.
  cbv beta iota zeta delta [mbind M_bind lift allreduce log mret M_ret].
  cbn [calls inbox]. unfold size, root_rank, split_comm. cbn [group world].
  rewrite !length_fmap, length_seq. rewrite <- !app_assoc. done.
Qed.

End Handshake.

Section Handshake2.
Import MPI DispatcherProxy.

Lemma root_rank_spec (a b : nat) :
  (2 <= a + S b)%nat ->
  root_rank (a + S b) (Z.of_nat a) <> Z.of_nat a /\
  0 <= root_rank (a + S b) (Z.of_nat a) < Z.of_nat (a + S b).
Proof.
  intros Hn. unfold root_rank.
  destruct (Z.eqb_spec (Z.of_nat a) (Z.of_nat (a + S b) - 1)); lia.
Qed.

(** C7.  In a group of at least two processes of which exactly one
    passes [dispatcher], every rank returns from [_init] with the same
    dispatcher rank, the rank of the process that passed [dispatcher], and
    with the same root rank: [comm.size - 1], or [comm.size - 2] when the
    dispatcher has rank [comm.size - 1]; the root rank is a rank of the
    group and is not the dispatcher rank. *)
Theorem handshake_elects_dispatcher_and_root (peers : list Z) :
  (2 <= length peers)%nat -> one_dispatcher peers ->
  exists drank root : Z,
    peers !! Z.to_nat drank = Some ProcessType.dispatcher /\
    0 <= drank < Z.of_nat (length peers) /\
    root = (if drank =? Z.of_nat (length peers) - 1
            then Z.of_nat (length peers) - 1 - 1
            else Z.of_nat (length peers) - 1) /\
    root <> drank /\
    0 <= root < Z.of_nat (length peers) /\
    forall (r : nat) (ptype : Z) (s : state),
      peers !! r = Some ptype ->
      exists wcomm s',
        _init (world (length peers) (Z.of_nat r)) peers ptype s =
          Return (drank, root, wcomm) s'.
Proof.
  intros Hn Hone. destruct (one_dispatcher_shape peers Hone) as (a & b & ->).
  assert (Hlen : length (replicate a 0 ++ 1 :: replicate b 0) = (a + S b)%nat).
  { rewrite length_app, length_replicate. simpl. by rewrite length_replicate. }
  rewrite Hlen in *. destruct (root_rank_spec a b Hn) as [Hne Hrange].
  exists (Z.of_nat a), (root_rank (a + S b) (Z.of_nat a)).
  split; [|split; [lia|split; [done|split; [done|split; [done|]]]]].
  - rewrite Nat2Z.id, lookup_app_r by (by rewrite length_replicate).
    by rewrite length_replicate, Nat.sub_diag.
  - intros r ptype s Hp.
    pose proof (lookup_lt_Some _ _ _ Hp) as Hr. rewrite Hlen in Hr.
    pose proof (_init_shape a b r s Hr) as H. cbv zeta in H. rewrite Hp in H.
    eexists _, _. exact H.
Qed.

Lemma handshake_elects_dispatcher_and_root_witness :
  (2 <= length [0; 1; 0])%nat /\ one_dispatcher [0; 1; 0] /\
  exists drank root : Z,
    [0; 1; 0] !! Z.to_nat drank = Some ProcessType.dispatcher /\
    0 <= drank < Z.of_nat (length [0; 1; 0]) /\
    root = (if drank =? Z.of_nat (length [0; 1; 0]) - 1
            then Z.of_nat (length [0; 1; 0]) - 1 - 1
            else Z.of_nat (length [0; 1; 0]) - 1) /\
    root <> drank /\
    0 <= root < Z.of_nat (length [0; 1; 0]) /\
    forall (r : nat) (ptype : Z) (s : state),
      [0; 1; 0] !! r = Some ptype ->
      exists wcomm s',
        _init (world (length [0; 1; 0]) (Z.of_nat r)) [0; 1; 0] ptype s =
          Return (drank, root, wcomm) s'.
Proof.
  assert (H1 : (2 <= length [0; 1; 0])%nat) by (simpl; lia).
  assert (H2 : one_dispatcher [0; 1; 0]).
  { split; [|reflexivity]. repeat constructor; by vm_compute; auto. }
  split; [done|]. split; [done|].
  apply (handshake_elects_dispatcher_and_root [0; 1; 0] H1 H2).
Defined.

End Handshake2.

Section ProxyInit.
Import MPI DispatcherProxy.

Lemma fmap_constant {A B : Type} (f : A -> B) (c : B) (l : list A) :
  Forall (fun x => f x = c) l -> f <$> l = replicate (length l) c.
Proof. induction 1 as [|x l Hx _ IH]; csimpl; [done|]. by rewrite Hx, IH. Qed.

Lemma split_colors_shape (a b : nat) :
  split_colors (a + S b) (Z.of_nat a) = replicate a 0 ++ 1 :: replicate b 0.
Proof.
  unfold split_colors. rewrite seq_app. simpl seq. rewrite !fmap_app, !fmap_cons.
  rewrite <- !list_fmap_compose. f_equal; [|f_equal].
  - rewrite (fmap_constant _ 0); [by rewrite length_seq|].
    apply Forall_forall. intros x Hx. apply elem_of_seq in Hx. simpl.
    by rewrite (proj2 (Z.eqb_neq _ _)) by lia.
  - simpl. by rewrite Z.eqb_refl.
  - rewrite (fmap_constant _ 0); [by rewrite length_seq|].
    apply Forall_forall. intros x Hx. apply elem_of_seq in Hx. simpl.
    by rewrite (proj2 (Z.eqb_neq _ _)) by lia.
Qed.

Lemma filter_zero_replicate (k : nat) :
  base.filter (fun x : Z => x = 0) (replicate k 0) = replicate k 0.
Proof. induction k as [|k IH]; simpl; [done|]. by rewrite filter_cons_True, IH. Qed.

(** The rank of a worker in the communicator of the workers: the
    dispatcher is skipped. *)
Lemma split_comm_worker_rank (a b r : nat) :
  (r < a + S b)%nat -> r <> a ->
  rank (split_comm (a + S b) (Z.of_nat a) r) =
    if (r <? a)%nat then Z.of_nat r else Z.of_nat r - 1.
Proof.
  intros Hr Hne. unfold split_comm. cbn [rank].
  rewrite (proj2 (Z.eqb_neq _ _)) by lia. cbn [negb].
  unfold Split_rank. cbn [rank world]. rewrite Nat2Z.id, split_colors_shape.
  destruct (Nat.ltb_spec r a) as [Hlt|Hge].
  - rewrite take_app_le by (rewrite length_replicate; lia).
    rewrite take_replicate, filter_zero_replicate, length_replicate. lia.
  - rewrite take_app_ge by (rewrite length_replicate; lia).
    rewrite length_replicate.
    destruct (r - a)%nat as [|j] eqn:Hj; [lia|]. simpl take.
    rewrite filter_app, filter_cons_False by done.
    rewrite take_replicate, !filter_zero_replicate, length_app, !length_replicate. lia.
Qed.

Lemma root_worker_rank (a b : nat) :
  (2 <= a + S b)%nat ->
  rank (split_comm (a + S b) (Z.of_nat a)
          (Z.to_nat (root_rank (a + S b) (Z.of_nat a)))) = Z.of_nat (a + S b) - 2.
Proof.
  intros Hn. destruct (root_rank_spec a b Hn) as [Hne Hrange].
  rewrite split_comm_worker_rank by lia.
  unfold root_rank in *.
  destruct (Z.eqb_spec (Z.of_nat a) (Z.of_nat (a + S b) - 1)) as [Heq|Hneq].
  - destruct (Nat.ltb_spec (Z.to_nat (Z.of_nat (a + S b) - 1 - 1)) a); lia.
  - destruct (Nat.ltb_spec (Z.to_nat (Z.of_nat (a + S b) - 1)) a); lia.
Qed.

Lemma __init___head_shape a b r s :
  let n := (a + S b)%nat in
  let peers := replicate a 0 ++ 1 :: replicate b 0 in
  (r < n)%nat -> r <> a ->
  __init___head (world n (Z.of_nat r)) peers s =
    Return (Z.of_nat a, root_rank n (Z.of_nat a), split_comm n (Z.of_nat a) r,
            if Z.of_nat r =? root_rank n (Z.of_nat a)
            then Some (rank (split_comm n (Z.of_nat a) r)) else None)
      {| calls := calls s ++
           [CallAllreduce (world n (Z.of_nat r)); CallAllreduce (world n (Z.of_nat r));
            CallSplit (world n (Z.of_nat r)) 0];
         inbox := inbox s |}.
Proof.
  intros n peers Hr Hne. unfold __init___head.
  pose proof (_init_shape a b r s Hr) as H. cbv zeta in H. fold n peers in H.
  assert (Hp : peers !! r = Some 0).
  { unfold peers. destruct (decide (r < a)%nat).
    - rewrite lookup_app_l by (rewrite length_replicate; lia).
      apply lookup_replicate. split; [done|lia].
    - rewrite lookup_app_r by (rewrite length_replicate; lia).
      rewrite length_replicate. destruct (r - a)%nat as [|j] eqn:Hj; [lia|]. simpl.
      apply lookup_replicate. split; [done|]. unfold n in Hr. lia. }
  rewrite Hp in H. change (default 0 (Some 0)) with 0 in H.
  rewrite (proj2 (Z.eqb_neq (Z.of_nat r) (Z.of_nat a))) in H by lia. cbn [negb] in H.
  unfold mbind, M_bind at 1. unfold ProcessType.worker. rewrite H.
  cbv beta iota zeta delta [mret M_ret]. cbn [rank world]. done.
Qed.

(** C8, as the code has it.  In a group of at least two processes with
    exactly one dispatcher, [__init__] on a worker returns a proxy whose
    [root_worker_worker_comm_rank] is the rank the root worker has in the
    communicator of the workers, [comm.size - 2]; the value comes from one
    broadcast, the last MPI call of [__init__], which is made on [comm],
    the communicator of all processes, with the root worker's rank in
    [comm] as root. *)
Theorem proxy_init_broadcasts_root_worker_rank (peers : list Z) (r : nat) (s : state) :
  (2 <= length peers)%nat -> one_dispatcher peers ->
  peers !! r = Some ProcessType.worker ->
  exists proxy wcomm s',
    __init__ (world (length peers) (Z.of_nat r)) peers s = Return proxy s' /\
    comm proxy = world (length peers) (Z.of_nat r) /\
    worker_comm proxy = Some wcomm /\
    root_worker_worker_comm_rank proxy = Some (Z.of_nat (length peers) - 2) /\
    (Z.of_nat r = root_worker_comm_rank proxy ->
     rank wcomm = Z.of_nat (length peers) - 2) /\
    calls s' = calls s ++
      [CallAllreduce (comm proxy); CallAllreduce (comm proxy);
       CallSplit (comm proxy) 0;
       CallBcast (comm proxy) (root_worker_comm_rank proxy)].
Proof.
  intros Hn Hone Hp. destruct (one_dispatcher_shape peers Hone) as (a & b & ->).
  assert (Hlen : length (replicate a 0 ++ 1 :: replicate b 0) = (a + S b)%nat).
  { rewrite length_app, length_replicate. simpl. by rewrite length_replicate. }
  rewrite Hlen in *.
  pose proof (lookup_lt_Some _ _ _ Hp) as Hr. rewrite Hlen in Hr.
  assert (Hne : r <> a).
  { intros ->. rewrite lookup_app_r in Hp by (by rewrite length_replicate).
    rewrite length_replicate, Nat.sub_diag in Hp. done. }
  destruct (root_rank_spec a b Hn) as [Hrne Hrange].
  set (root := root_rank (a + S b) (Z.of_nat a)) in *.
  unfold __init__.
  pose proof (__init___head_shape a b r s Hr Hne) as Hhead. cbv zeta in Hhead.
  unfold mbind, M_bind at 1. rewrite Hhead. fold root.
  assert (Hobj : (passed_to_bcast (world (a + S b) (Z.of_nat r))
                    (replicate a 0 ++ 1 :: replicate b 0) <$>
                  (Z.of_nat <$> seq 0 (length (group (world (a + S b) (Z.of_nat r))))))
                 !! Z.to_nat root = Some (Some (Z.of_nat (a + S b) - 2))).
  { cbn [group world]. rewrite length_fmap, length_seq.
    rewrite !list_lookup_fmap, lookup_seq_lt by lia. cbn [fmap option_fmap option_map].
    f_equal. unfold passed_to_bcast. cbn [group world].
    change {| group := Z.of_nat <$> seq 0 (a + S b); rank := Z.of_nat (0 + Z.to_nat root) |}
      with (world (a + S b) (Z.of_nat (Z.to_nat root))).
    pose proof (__init___head_shape a b (Z.to_nat root) {| calls := []; inbox := [] |}
                  ltac:(lia) ltac:(lia)) as Hroot.
    cbv zeta in Hroot. simpl Nat.add. rewrite Hroot. fold root.
    rewrite (proj2 (Z.eqb_eq _ _)) by lia. f_equal. by apply root_worker_rank. }
  unfold bcast. cbv beta iota zeta delta [mbind M_bind log lift mret M_ret].
  cbn [calls inbox].
  assert (Hin : ((0 <=? root) && (root <? size (world (a + S b) (Z.of_nat r)))) = true).
  { unfold size. cbn [group world]. rewrite length_fmap, length_seq.
    apply andb_true_intro. split; [apply Z.leb_le|apply Z.ltb_lt]; lia. }
  rewrite Hin, Hobj.
  eexists _, _, _. split; [reflexivity|]. cbn [comm worker_comm root_worker_worker_comm_rank
    root_worker_comm_rank calls].
  split; [done|]. split; [done|]. split; [done|]. split.
  - intros Heq. rewrite <- (root_worker_rank a b Hn). fold root. rewrite <- Heq.
    by rewrite Nat2Z.id.
  - by rewrite <- !app_assoc.
Qed.

End ProxyInit.

(** ** The update frame *)

Section Pack.
Import MPI DispatcherProxy.

(** The double an integer is stored as. *)
Definition the_float (z : Z) : float :=
  match float_of_int z with
  | Ok f => f
  | Raise _ => nan
  end.

Lemma exact_int_spec z :
  exact_int z = true ->
  float_of_int z = Ok (the_float z) /\
  int_of_float (the_float z) = Ok z /\
  is_nan (the_float z) = false.
Proof.
  unfold exact_int, the_float. destruct (float_of_int z) as [f|]; [|done].
  destruct (int_of_float f) as [z'|] eqn:Hi; [|done].
  intros Hz. apply Z.eqb_eq in Hz. subst. split; [done|]. split; [done|].
  unfold int_of_float in Hi. rewrite is_nan_spec. by destruct (Prim2SF f).
Qed.

(** The part of the frame that holds the node states. *)
Definition frame_states (node_states : list (list float)) : list float :=
  concat ((fun udata => the_float (Z.of_nat (length udata)) :: udata) <$> node_states).

Lemma frame_states_cons udata node_states :
  frame_states (udata :: node_states) =
  the_float (Z.of_nat (length udata)) :: udata ++ frame_states node_states.
Proof. done. Qed.

Lemma pack_size node_states (size : nat) :
  foldl (fun size udata => (size + 1 + length udata)%nat) size node_states =
  (size + length (frame_states node_states))%nat.
Proof.
  revert size. induction node_states as [|u l IH]; intros size.
  - unfold frame_states. simpl. lia.
  - cbn [foldl]. rewrite IH, frame_states_cons. cbn [length].
    rewrite length_app. lia.
Qed.

Lemma pack_loop_spec node_states pre rest :
  Forall (fun udata => exact_int (Z.of_nat (length udata)) = true) node_states ->
  length rest = length (frame_states node_states) ->
  pack_loop node_states (pre ++ rest) (length pre) = Ok (pre ++ frame_states node_states).
Proof.
  intros Hall. revert pre rest.
  induction Hall as [|u l Hu _ IH]; intros pre rest Hlen.
  - destruct rest; [done|]. done.
  - cbn [pack_loop]. destruct (exact_int_spec _ Hu) as (-> & _ & _).
    cbn [mbind result_bind].
    rewrite frame_states_cons in *. cbn [length] in Hlen. rewrite length_app in Hlen.
    destruct rest as [|r0 rest]; [simpl in Hlen; lia|]. cbn [length] in Hlen.
    rewrite insert_app_r_alt by lia. rewrite Nat.sub_diag. simpl.
    replace (pre ++ the_float (Z.of_nat (length u)) :: rest)
      with ((pre ++ [the_float (Z.of_nat (length u))]) ++ rest) by (by rewrite <- app_assoc).
    replace (length pre + 1)%nat
      with (length (pre ++ [the_float (Z.of_nat (length u))]) + 0)%nat
      by (rewrite length_app; simpl; lia).
    rewrite list_inserts_app_r.
    rewrite <- (take_drop (length u) rest).
    rewrite list_inserts_0_r by (rewrite length_take; lia).
    replace (length (pre ++ [the_float (Z.of_nat (length u))]) + 0 + length u)%nat
      with (length ((pre ++ [the_float (Z.of_nat (length u))]) ++ u))
      by (rewrite !length_app; simpl; lia).
    rewrite (app_assoc _ u). rewrite IH by (rewrite length_drop; lia).
    f_equal. rewrite <- !app_assoc. done.
Qed.

(** C4, as the code has it.  When the best objective and the previous
    bound are numbers and the integers of the call are exactly
    representable, [_update] builds the frame: best objective, previous
    bound, the number of explored nodes, the number of node states, then
    for each node state its length and its doubles. *)
Theorem pack_frame_layout (junk : nat -> float) (best_objective previous_bound : float)
    (explored_nodes_count : Z) (node_states : list (list float)) :
  is_nan best_objective = false -> is_nan previous_bound = false ->
  exact_int explored_nodes_count = true ->
  exact_int (Z.of_nat (length node_states)) = true ->
  Forall (fun udata => exact_int (Z.of_nat (length udata)) = true) node_states ->
  pack junk best_objective previous_bound explored_nodes_count node_states =
    Ok ([best_objective; previous_bound; the_float explored_nodes_count;
         the_float (Z.of_nat (length node_states))] ++ frame_states node_states).
Proof.
  intros Hb Hp He Hk Hall. unfold pack.
  rewrite pack_size.
  destruct (exact_int_spec _ He) as (He1 & He2 & He3).
  destruct (exact_int_spec _ Hk) as (Hk1 & Hk2 & Hk3).
  rewrite He1, Hk1.
  cbn [Nat.add seq fmap list_fmap insert list_insert getitem lookup list_lookup
       mbind result_bind].
  rewrite (float_eqb_refl _ Hb), (float_eqb_refl _ Hp), (float_eqb_refl _ He3),
    (float_eqb_refl _ Hk3), He2, Hk2.
  cbn [assert mbind result_bind]. rewrite !Z.eqb_refl.
  cbn [assert mbind result_bind].
  set (pre := [best_objective; previous_bound; the_float explored_nodes_count;
               the_float (Z.of_nat (length node_states))]).
  destruct node_states as [|u l]; [done|].
  cbn [length Nat.ltb Nat.leb].
  change 4%nat with (length pre).
  match goal with
  | |- pack_loop _ (?a :: ?b :: ?c :: ?d :: ?rest) _ = _ =>
      change (a :: b :: c :: d :: rest) with (pre ++ rest)
  end.
  apply pack_loop_spec; [done|]. by rewrite length_fmap, length_seq.
Qed.

Lemma pack_frame_layout_witness :
  pack (fun _ => 0%float) 2 1.5 7 [[0.1; 0.2]; [0.3]]%float =
    Ok [2; 1.5; 7; 2; 2; 0.1; 0.2; 1; 0.3]%float.
Proof.
  apply (pack_frame_layout (fun _ => 0%float) 2 1.5 7 [[0.1; 0.2]; [0.3]]%float);
    try (by vm_compute). repeat constructor.
Defined.

(** A best objective that is not a number fails the first assertion of
    [_update]: no frame is built. *)
Lemma pack_nan_raises :
  pack (fun _ => 0%float) nan 1.5 7 [[0.1; 0.2]; [0.3]]%float = Raise AssertionError.
Proof. by vm_compute. Qed.

End Pack.

(** ** One response for every update *)

Section UpdateResponse.
Import MPI DispatcherProxy.

Lemma take_message_head m rest :
  take_message (msg_source m) (msg_tag m) (m :: rest) = Some (m, rest).
Proof. cbn [take_message]. by rewrite !Z.eqb_refl. Qed.

(** The process after an update that returned: the frame was sent to the
    dispatcher, the pending message was probed and received, and only
    that message left the inbox. *)
Definition after_update (self : t) (frame : list float) (m : message)
    (rest : list message) (s : state) : state :=
  {| calls := calls s ++
       [CallSend (comm self) frame (dispatcher_rank self) DispatcherAction.update;
        CallProbe (comm self);
        CallRecv (comm self) (msg_source m) (msg_tag m)];
     inbox := rest |}.

Lemma update_probe (extract : list float -> float) self junk best prev explored
    node_states frame m rest s :
  pack junk best prev explored node_states = Ok frame ->
  inbox s = m :: rest ->
  msg_error m = 0 ->
  _update extract self junk best prev explored node_states s =
    (if msg_tag m =? DispatcherResponse.nowork then
       data ← recv_data (comm self)
                {| status_source := msg_source m; status_tag := msg_tag m;
                   status_error := msg_error m |};
       x ← lift (getitem data 0);
       mret (x, None)
     else
       _ ← lift (assert (msg_tag m =? DispatcherResponse.work));
       state ← recv_data (comm self)
                 {| status_source := msg_source m; status_tag := msg_tag m;
                    status_error := msg_error m |};
       mret (extract state, Some state))
      {| calls := calls s ++
           [CallSend (comm self) frame (dispatcher_rank self) DispatcherAction.update;
            CallProbe (comm self)];
         inbox := m :: rest |}.
Proof.
  intros Hpack Hin Herr. unfold _update. rewrite Hpack.
  unfold mbind at 1, M_bind at 1. cbn [lift].
  unfold mbind at 1, M_bind at 1. unfold Send at 1, log at 1.
  unfold mbind at 1, M_bind at 1. unfold Probe at 1. cbn [inbox]. rewrite Hin.
  unfold mbind at 1, M_bind at 1. cbn [status_error]. rewrite Herr.
  cbn [Z.eqb assert lift]. cbn [status_tag calls]. rewrite <- app_assoc. done.
Qed.

Lemma update_blocks_without_response (extract : list float -> float) self junk best prev
    explored node_states frame s :
  pack junk best prev explored node_states = Ok frame ->
  inbox s = [] ->
  _update extract self junk best prev explored node_states s = Block.
Proof.
  intros Hpack Hin. unfold _update. rewrite Hpack.
  unfold mbind at 1, M_bind at 1. cbn [lift].
  unfold mbind at 1, M_bind at 1. unfold Send at 1, log at 1.
  unfold mbind at 1, M_bind at 1. unfold Probe at 1. cbn [inbox]. by rewrite Hin.
Qed.

(** C5.  An update whose frame is built, with a response [m] pending:
    the worker sends the frame, probes, and receives [m] and nothing
    else.  A response tagged [nowork] gives [(payload[0], None)]; one
    tagged [work] gives the best objective extracted from the received
    state, and the state; any other tag fails an assertion. *)
Theorem update_receives_one_response (extract : list float -> float) (self : t)
    (junk : nat -> float) (best_objective previous_bound : float)
    (explored_nodes_count : Z) (node_states : list (list float))
    (frame : list float) (m : message) (rest : list message) (s : state) :
  pack junk best_objective previous_bound explored_nodes_count node_states = Ok frame ->
  inbox s = m :: rest ->
  msg_error m = 0 ->
  (msg_tag m = DispatcherResponse.nowork ->
   forall x tail, msg_data m = x :: tail ->
   _update extract self junk best_objective previous_bound explored_nodes_count
       node_states s =
     Return (x, None) (after_update self frame m rest s)) /\
  (msg_tag m = DispatcherResponse.work ->
   _update extract self junk best_objective previous_bound explored_nodes_count
       node_states s =
     Return (extract (msg_data m), Some (msg_data m)) (after_update self frame m rest s)) /\
  (msg_tag m <> DispatcherResponse.nowork -> msg_tag m <> DispatcherResponse.work ->
   _update extract self junk best_objective previous_bound explored_nodes_count
       node_states s = Throw AssertionError).
Proof.
  intros Hpack Hin Herr.
  rewrite (update_probe extract self junk _ _ _ _ frame m rest s Hpack Hin Herr).
  split; [|split].
  - intros Htag x tail Hdata. rewrite (proj2 (Z.eqb_eq _ _) Htag).
    unfold mbind at 1, M_bind at 1. unfold recv_data at 1.
    cbn [inbox status_source status_tag]. rewrite take_message_head.
    rewrite Hdata. unfold mbind, M_bind, getitem.
    cbn [lookup list_lookup lift mret M_ret calls].
    unfold after_update. by rewrite <- app_assoc.
  - intros Htag.
    assert ((msg_tag m =? DispatcherResponse.nowork) = false) as -> by (by rewrite Htag).
    rewrite (proj2 (Z.eqb_eq _ _) Htag).
    unfold mbind, M_bind, recv_data.
    cbn [assert lift inbox status_source status_tag]. rewrite take_message_head.
    cbn [mret M_ret calls]. unfold after_update. by rewrite <- app_assoc.
  - intros Hn Hw. apply Z.eqb_neq in Hn, Hw. rewrite Hn, Hw. done.
Qed.

Definition example_proxy : t :=
  {| comm := world 3 1;
     worker_comm := Some {| group := [1; 2]; rank := 0 |};
     dispatcher_rank := 0;
     root_worker_comm_rank := 2;
     root_worker_worker_comm_rank := Some 1 |}.

Definition example_response (tag : Z) (payload : list float) : message :=
  {| msg_source := 0; msg_tag := tag; msg_error := 0; msg_data := payload |}.

Definition example_extract (state : list float) : float := default nan (head state).

Definition example_frame : list float := [2; 1.5; 7; 2; 2; 0.1; 0.2; 1; 0.3]%float.

Definition example_update (m : message) :=
  _update example_extract example_proxy (fun _ => 0%float) 2 1.5 7
    [[0.1; 0.2]; [0.3]]%float {| calls := []; inbox := [m] |}.

Lemma update_receives_one_response_witness :
  example_update (example_response DispatcherResponse.nowork [3.5]%float) =
    Return (3.5%float, None)
      {| calls := [CallSend (world 3 1) example_frame 0 111; CallProbe (world 3 1);
                   CallRecv (world 3 1) 0 2111];
         inbox := [] |} /\
  example_update (example_response DispatcherResponse.work [4.5; 1; 2]%float) =
    Return (4.5%float, Some [4.5; 1; 2]%float)
      {| calls := [CallSend (world 3 1) example_frame 0 111; CallProbe (world 3 1);
                   CallRecv (world 3 1) 0 1111];
         inbox := [] |} /\
  example_update (example_response 5 [3.5]%float) = Throw AssertionError.
Proof.
  split; [|split].
  - apply (update_receives_one_response example_extract example_proxy (fun _ => 0%float)
             2 1.5 7 [[0.1; 0.2]; [0.3]]%float example_frame
             (example_response DispatcherResponse.nowork [3.5]%float) []
             {| calls := []; inbox := [example_response DispatcherResponse.nowork [3.5]%float] |}
             ltac:(by vm_compute) eq_refl eq_refl) with (tail := []); reflexivity.
  - apply (update_receives_one_response example_extract example_proxy (fun _ => 0%float)
             2 1.5 7 [[0.1; 0.2]; [0.3]]%float example_frame
             (example_response DispatcherResponse.work [4.5; 1; 2]%float) []
             {| calls := []; inbox := [example_response DispatcherResponse.work [4.5; 1; 2]%float] |}
             ltac:(by vm_compute) eq_refl eq_refl). reflexivity.
  - apply (update_receives_one_response example_extract example_proxy (fun _ => 0%float)
             2 1.5 7 [[0.1; 0.2]; [0.3]]%float example_frame
             (example_response 5 [3.5]%float) []
             {| calls := []; inbox := [example_response 5 [3.5]%float] |}
             ltac:(by vm_compute) eq_refl eq_refl); by vm_compute.
Defined.

End UpdateResponse.

Section HandshakeExamples.
Import MPI DispatcherProxy.

Lemma proxy_init_broadcasts_root_worker_rank_witness :
  exists proxy wcomm s',
    __init__ (world 3 1) [1; 0; 0] {| calls := []; inbox := [] |} = Return proxy s' /\
    comm proxy = world 3 1 /\
    worker_comm proxy = Some wcomm /\
    root_worker_worker_comm_rank proxy = Some 1 /\
    (1 = root_worker_comm_rank proxy -> rank wcomm = 1) /\
    calls s' =
      [CallAllreduce (comm proxy); CallAllreduce (comm proxy);
       CallSplit (comm proxy) 0;
       CallBcast (comm proxy) (root_worker_comm_rank proxy)].
Proof.
  apply (proxy_init_broadcasts_root_worker_rank [1; 0; 0] 1 {| calls := []; inbox := [] |}).
  - simpl. lia.
  - split; [|reflexivity].
    repeat (constructor; [first [by left | by right]|]). constructor.
  - reflexivity.
Defined.

(** In a group of three with the dispatcher at rank 0, the worker of
    rank 1 makes its broadcast on the communicator of all three
    processes, with root 2; the communicator of the workers has two
    members, and a broadcast with root 2 within it is an MPI error. *)
Lemma proxy_init_broadcast_outside_worker_comm :
  __init__ (world 3 1) [1; 0; 0] {| calls := []; inbox := [] |} =
    Return {| comm := {| group := [0; 1; 2]; rank := 1 |};
              worker_comm := Some {| group := [1; 2]; rank := 0 |};
              dispatcher_rank := 0;
              root_worker_comm_rank := 2;
              root_worker_worker_comm_rank := Some 1 |}
           {| calls := [CallAllreduce {| group := [0; 1; 2]; rank := 1 |};
                        CallAllreduce {| group := [0; 1; 2]; rank := 1 |};
                        CallSplit {| group := [0; 1; 2]; rank := 1 |} 0;
                        CallBcast {| group := [0; 1; 2]; rank := 1 |} 2];
              inbox := [] |} /\
  bcast {| group := [1; 2]; rank := 0 |} [None; Some 1] 2 {| calls := []; inbox := [] |} =
    Throw MPIError.
Proof. split; by vm_compute. Qed.

End HandshakeExamples.

(** * Part III: the rest of the two files *)

(** ** [_NoThreadingMaxPriorityFirstQueue] on its own *)

Section QueueProperties.
Context {item : Type}.
Import _NoThreadingMaxPriorityFirstQueue.
Implicit Types self : _NoThreadingMaxPriorityFirstQueue.t item.

(** The triples a queue holds, each under the priority its item was put
    with: the heap stores the negated priority, and [filter] recovers the
    priority as is done here, by negating the key. *)
Definition queued self : list (float * Z * item) :=
  (fun e => (PrimFloat.opp e.1.1, e.1.2, e.2)) <$> _heap self.

(** The queues that arise from an empty one by [put] with a priority that
    is a number, [get] and [filter]. *)
Inductive queue_reachable : _NoThreadingMaxPriorityFirstQueue.t item -> Prop :=
| queue_reach_init :
    queue_reachable __init__
| queue_reach_put self it priority cnt self' :
    queue_reachable self -> is_nan priority = false ->
    put self it priority = (cnt, self') ->
    queue_reachable self'
| queue_reach_get self r self' :
    queue_reachable self -> get self = (r, self') ->
    queue_reachable self'
| queue_reach_filter self func removed self' :
    queue_reachable self -> filter self func = (removed, self') ->
    queue_reachable self'.

Definition queue_inv self : Prop :=
  0 <= _count self /\
  heap_wf (_heap self) /\
  Forall (fun e => 0 <= e.1.2 < _count self) (_heap self) /\
  NoDup ((fun e => e.1.2) <$> _heap self).

Lemma queue_reachable_inv self : queue_reachable self -> queue_inv self.
Proof.
  induction 1 as [|self it priority cnt self' _ IH Hnan Hput|self r self' _ IH Hget|
                  self func removed self' _ IH Hf].
  - split; [done|]. split; [apply heap_wf_nil|]. split; constructor.
  - destruct IH as (Hc & Hwf & Hlt & Hnd).
    pose proof (queue_put_spec self it priority) as Hspec. rewrite Hput in Hspec.
    destruct Hspec as (-> & Hcount & Hperm & Hwf').
    split; [lia|]. split; [by apply Hwf'|]. split.
    + rewrite Hperm, Hcount. constructor; [simpl; lia|].
      eapply Forall_impl; [done|]. simpl. intros; lia.
    + rewrite Hperm. simpl. constructor; [|done].
      rewrite list_elem_of_fmap. intros (e & He & Hin).
      rewrite Forall_forall in Hlt. specialize (Hlt e Hin). simpl in *. lia.
  - destruct IH as (Hc & Hwf & Hlt & Hnd).
    destruct (_heap self) as [|e0 heap] eqn:Hheap.
    + rewrite queue_get_empty in Hget by done. simplify_eq. by rewrite <- Hheap in *.
    + destruct (queue_get_nonempty self) as (k & c & it & heap' & Heq & _ & Hperm & Hmin).
      { by rewrite Hheap. }
      rewrite Hget in Heq. simplify_eq. rewrite Hheap in Hperm, Hmin. cbn [_count _heap].
      destruct (Hmin Hwf) as [Hwf' _].
      split; [done|]. split; [done|]. split.
      * rewrite Hperm in Hlt. by apply Forall_cons in Hlt as [_ Hlt].
      * rewrite Hperm in Hnd. simpl in Hnd. by apply NoDup_cons in Hnd as [_ Hnd].
  - destruct IH as (Hc & Hwf & Hlt & Hnd). unfold filter in Hf.
    pose proof (queue_filter_counters_spec self func) as Hspec.
    destruct (filter_counters self func) as [pairs self''].
    destruct Hspec as (Hcount & _ & Hperm & _ & _ & Hwf'). simplify_eq.
    unfold queue_inv. rewrite Hcount. split; [done|]. split; [apply Hwf', Hwf|]. split.
    + rewrite Hperm in Hlt. by apply Forall_app in Hlt as [Hlt _].
    + rewrite Hperm, fmap_app in Hnd. by apply NoDup_app in Hnd as [Hnd _].
Qed.

Lemma queued_perm self self' (e : float * Z * item) :
  _heap self ≡ₚ e :: _heap self' ->
  queued self ≡ₚ (PrimFloat.opp e.1.1, e.1.2, e.2) :: queued self'.
Proof. intros H. unfold queued. by rewrite H. Qed.

Lemma elem_of_queued self p c it :
  (p, c, it) ∈ queued self <-> (PrimFloat.opp p, c, it) ∈ _heap self.
Proof.
  unfold queued. rewrite list_elem_of_fmap. split.
  - intros ([[k c'] it'] & Heq & Hin). simpl in Heq. simplify_eq.
    by rewrite float_opp_involutive.
  - intros Hin. eexists. split; [|done]. simpl. by rewrite float_opp_involutive.
Qed.

(** The order of two heap triples, read on the priorities. *)
Lemma tuple_le_priorities (x y : float * Z * item) :
  key_ok x -> key_ok y -> tuple_le x y = true ->
  PrimFloat.leb (PrimFloat.opp y.1.1) (PrimFloat.opp x.1.1) = true /\
  (PrimFloat.eqb (PrimFloat.opp y.1.1) (PrimFloat.opp x.1.1) = true -> x.1.2 <= y.1.2).
Proof.
  unfold key_ok. intros Hx Hy Hle. apply tuple_le_spec in Hle as [H1 H2]. split.
  - rewrite float_leb_ltb by (by rewrite float_opp_nan).
    by rewrite float_opp_ltb, H1.
  - rewrite float_opp_eqb. intros He. apply H2. by rewrite float_eqb_sym.
Qed.

Lemma queued_counters self :
  queue_reachable self ->
  Forall (fun e => 0 <= e.1.2 < _count self) (queued self) /\
  NoDup ((fun e => e.1.2) <$> queued self).
Proof.
  intros Hreach. destruct (queue_reachable_inv self Hreach) as (_ & _ & Hlt & Hnd).
  unfold queued. split; [by apply Forall_fmap|].
  rewrite <- list_fmap_compose.
  by change ((fun e : float * Z * item => e.1.2) ∘ _) with (fun e : float * Z * item => e.1.2).
Qed.

End QueueProperties.

Section QueueTheorems.
Context {item : Type}.
Import _NoThreadingMaxPriorityFirstQueue.
Implicit Types self : _NoThreadingMaxPriorityFirstQueue.t item.

(** X1.  [get] on a queue without entries returns [None] and leaves the
    queue as it is.  On a queue with entries it returns an item of the
    highest priority and removes that entry and no other: no entry has a
    priority above that of the item returned, and among the entries of
    equal priority the item returned has the lowest counter, so it is
    the one put first. *)
Theorem queue_get_highest_priority self :
  queue_reachable self ->
  (queued self = [] -> get self = (None, self)) /\
  (queued self <> [] ->
   exists p c it self',
     get self = (Some it, self') /\
     queued self ≡ₚ (p, c, it) :: queued self' /\
     _count self' = _count self /\
     forall p' c' it', (p', c', it') ∈ queued self ->
       PrimFloat.leb p' p = true /\ (PrimFloat.eqb p' p = true -> c <= c')).
Proof.
  intros Hreach. destruct (queue_reachable_inv self Hreach) as (_ & Hwf & _ & _).
  split.
  - intros Hq. apply fmap_nil_inv in Hq. by apply queue_get_empty.
  - intros Hq.
    destruct (queue_get_nonempty self) as (k & c & it & heap' & Hget & _ & Hperm & Hmin).
    { intros Hnil. apply Hq. unfold queued. by rewrite Hnil. }
    destruct (Hmin Hwf) as [_ Hall].
    exists (PrimFloat.opp k), c, it, {| _count := _count self; _heap := heap' |}.
    split; [done|]. split; [by apply (queued_perm self _ (k, c, it))|]. split; [done|].
    intros p' c' it' Hin. apply elem_of_queued in Hin.
    rewrite Forall_forall in Hall. specialize (Hall _ Hin).
    apply tuple_le_spec in Hall as [H1 H2]. simpl in H1, H2.
    destruct Hwf as [Hok _]. rewrite Forall_forall in Hok.
    pose proof (Hok _ Hin) as Hk'. unfold key_ok in Hk'. simpl in Hk'.
    assert (Hink : (k, c, it) ∈ _heap self) by (rewrite Hperm; left).
    pose proof (Hok _ Hink) as Hk. unfold key_ok in Hk. simpl in Hk.
    rewrite float_opp_nan in Hk'. split.
    + rewrite float_leb_ltb by (by rewrite ?float_opp_nan).
      rewrite <- (float_opp_involutive p') at 1. by rewrite float_opp_ltb, H1.
    + intros He. apply H2. rewrite <- (float_opp_involutive p') in He.
      rewrite float_opp_eqb in He. by rewrite float_eqb_sym.
Qed.

(** X2.  In every state, [next] returns the item [get] would return, or
    [None] when [get] would. *)
Theorem queue_next_is_get self : next self = (get self).1.
Proof.
  unfold next, get. destruct (0 <? size self) eqn:Hs; [|done].
  destruct (_heap self) as [|[[k c] it] heap] eqn:Hheap.
  - by apply queue_size_pos in Hs.
  - destruct (heapq.heappop tuple_lt (((k, c), it) :: heap)) as [[[[k' c'] it'] heap']|] eqn:Hpop.
    + apply (heappop_Some tuple_lt key_ok tuple_le_total tuple_le_trans) in Hpop
        as (H0 & _). simpl in H0. by simplify_eq.
    + by apply heappop_None in Hpop.
Qed.

(** X3.  [put] returns the value of the counter and advances it by one;
    the entries are the old ones and the new one, filed under the
    priority and the counter returned.  The counters of the entries of a
    queue are pairwise distinct and lie below the counter of the queue:
    the number [put] returns identifies its entry for as long as the
    queue lives. *)
Theorem queue_put_fresh_counter self it priority :
  queue_reachable self ->
  exists self',
    put self it priority = (_count self, self') /\
    _count self' = _count self + 1 /\
    queued self' ≡ₚ (priority, _count self, it) :: queued self /\
    Forall (fun e => 0 <= e.1.2 < _count self) (queued self) /\
    NoDup ((fun e => e.1.2) <$> queued self').
Proof.
  intros Hreach. destruct (queue_reachable_inv self Hreach) as (_ & _ & Hlt & Hnd).
  pose proof (queue_put_spec self it priority) as Hspec.
  destruct (put self it priority) as [cnt self'] eqn:Hput.
  destruct Hspec as (-> & Hcount & Hperm & _).
  exists self'. split; [done|]. split; [done|]. split; [|split].
  - rewrite (queued_perm self' self _ Hperm). simpl. by rewrite float_opp_involutive.
  - unfold queued. by apply Forall_fmap.
  - unfold queued. rewrite <- list_fmap_compose.
    change ((fun e : float * Z * item => e.1.2) ∘ _) with (fun e : float * Z * item => e.1.2).
    rewrite Hperm. simpl. constructor; [|done].
    rewrite list_elem_of_fmap. intros (e & He & Hin).
    rewrite Forall_forall in Hlt. specialize (Hlt e Hin). simpl in *. lia.
Qed.

Lemma filter_loop_filter (func : float -> item -> bool) heap :
  filter_loop func heap =
    (base.filter (fun e => func (PrimFloat.opp e.1.1) e.2 = true) heap,
     (fun e => (e.1.2, e.2)) <$>
       base.filter (fun e => func (PrimFloat.opp e.1.1) e.2 = false) heap).
Proof.
  induction heap as [|[[k c] it] heap IH]; [done|].
  cbn [filter_loop]. rewrite IH, !filter_cons. simpl.
  destruct (func (PrimFloat.opp k) it) eqn:Hf.
  - rewrite decide_True, decide_False by done. done.
  - rewrite decide_False, decide_True by done. done.
Qed.

Lemma filter_queued (P : float * Z * item -> Prop) `{!forall e, Decision (P e)}
    (heap : list (float * Z * item)) :
  base.filter P ((fun e => (PrimFloat.opp e.1.1, e.1.2, e.2)) <$> heap) =
  (fun e => (PrimFloat.opp e.1.1, e.1.2, e.2)) <$>
    base.filter (fun e => P (PrimFloat.opp e.1.1, e.1.2, e.2)) heap.
Proof.
  induction heap as [|e heap IH]; [done|].
  csimpl. rewrite !filter_cons, IH. by case_decide.
Qed.

(** X4.  [filter(func)] calls [func] with the priority each item was put
    with.  It returns the items for which [func] is false, in the order
    of the heap list, and keeps the entries for which it is true, with
    their priorities and counters; the counter of the queue is not
    touched.  With [include_counters] the list returned pairs each item
    removed with its counter, and the queue left is the same. *)
Theorem queue_filter_partitions self (func : float -> item -> bool) :
  let rejected := base.filter (fun e => func e.1.1 e.2 = false) (queued self) in
  let '(removed, self') := filter self func in
  removed = rejected.*2 /\
  queued self' ≡ₚ base.filter (fun e => func e.1.1 e.2 = true) (queued self) /\
  _count self' = _count self /\
  filter_counters self func = ((fun e => (e.1.2, e.2)) <$> rejected, self').
Proof.
  intros rejected. unfold rejected, filter, filter_counters, queued.
  rewrite filter_loop_filter. cbn [_count _heap].
  rewrite !filter_queued. simpl.
  rewrite <- !list_fmap_compose. split; [|split; [|split]].
  - reflexivity.
  - by rewrite heapify_perm.
  - reflexivity.
  - reflexivity.
Qed.

End QueueTheorems.

Definition example_queue : _NoThreadingMaxPriorityFirstQueue.t Z :=
  Eval vm_compute in
    let q := _NoThreadingMaxPriorityFirstQueue.__init__ in
    let q := (_NoThreadingMaxPriorityFirstQueue.put q 10 1).2 in
    let q := (_NoThreadingMaxPriorityFirstQueue.put q 20 3).2 in
    (_NoThreadingMaxPriorityFirstQueue.put q 30 3).2.

Lemma example_queue_reachable : queue_reachable example_queue.
Proof.
  pose proof (@queue_reach_init Z) as H0.
  pose proof (queue_reach_put _ 10 1%float _ _ H0 eq_refl eq_refl) as H1.
  pose proof (queue_reach_put _ 20 3%float _ _ H1 eq_refl eq_refl) as H2.
  exact (queue_reach_put _ 30 3%float _ _ H2 eq_refl eq_refl).
Qed.

Lemma queue_get_highest_priority_witness :
  queue_reachable example_queue /\
  exists p c it self',
    _NoThreadingMaxPriorityFirstQueue.get example_queue = (Some it, self') /\
    queued example_queue ≡ₚ (p, c, it) :: queued self' /\
    _NoThreadingMaxPriorityFirstQueue._count self' =
      _NoThreadingMaxPriorityFirstQueue._count example_queue /\
    forall p' c' it', (p', c', it') ∈ queued example_queue ->
      PrimFloat.leb p' p = true /\ (PrimFloat.eqb p' p = true -> c <= c').
Proof.
  split; [apply example_queue_reachable|].
  apply (queue_get_highest_priority example_queue example_queue_reachable).
  by vm_compute.
Defined.

Lemma queue_put_fresh_counter_witness :
  queue_reachable example_queue /\
  exists self',
    _NoThreadingMaxPriorityFirstQueue.put example_queue 40 2%float = (3, self') /\
    _NoThreadingMaxPriorityFirstQueue._count self' = 4 /\
    queued self' ≡ₚ (2%float, 3, 40) :: queued example_queue /\
    Forall (fun e => 0 <= e.1.2 < 3) (queued example_queue) /\
    NoDup ((fun e => e.1.2) <$> queued self').
Proof.
  split; [apply example_queue_reachable|].
  apply (queue_put_fresh_counter example_queue 40 2%float example_queue_reachable).
Defined.

(** ** [WorstBoundFirstPriorityQueue]: the maximize sense and [bound] *)

Section WorstBoundFirstMore.
Import _NoThreadingMaxPriorityFirstQueue WorstBoundFirstPriorityQueue.

(** X5.  Take the maximize sense and a queue that has accepted no node
    whose bound is NaN.  [put] of a node that passes the
    improvement test writes [queue_priority = bound] into the node and
    pushes it under the next counter; whenever [get] returns a node [a],
    no node in the queue at that moment has a bound above that of [a],
    and a node with a bound equal to that of [a] has a counter that is
    not below the counter of [a]. *)
Theorem wbf_maximize_order (conv : ConvergenceChecker) (self : WorstBoundFirstPriorityQueue.t) :
  sense conv = maximize -> wbf_reachable conv self ->
  (forall data,
     objective_can_improve conv (_best_objective self) (Node.bound data) = true ->
     exists self' data',
       put self data = Ok (true, self', data') /\
       Node.queue_priority data' = Some (Node.bound data) /\
       Node.bound data' = Node.bound data /\
       _heap (_queue self') ≡ₚ
         (PrimFloat.opp (Node.bound data), _count (_queue self), data')
           :: _heap (_queue self)) /\
  (forall a self',
     get self = (Some a, self') ->
     exists ka ca,
       _heap (_queue self) ≡ₚ (ka, ca, a) :: _heap (_queue self') /\
       forall kb cb b, (kb, cb, b) ∈ _heap (_queue self) ->
         PrimFloat.ltb (Node.bound a) (Node.bound b) = false /\
         (PrimFloat.eqb (Node.bound b) (Node.bound a) = true -> ca <= cb)).
Proof.
  intros Hmax Hreach.
  pose proof (wbf_reachable_inv conv self Hreach) as Hinv.
  assert (Hprio : forall b, wbf_priority conv b = b).
  { intros b. unfold wbf_priority. rewrite decide_False; [done|]. by rewrite Hmax. }
  split.
  - intros data Himp. pose proof (wbf_put_spec conv self data Hinv) as Hput.
    rewrite Himp in Hput. destruct Hput as (self' & data' & Hput & Hq & Hb & _ & _ & Hperm & _).
    rewrite Hprio in Hq, Hperm. by exists self', data'.
  - intros a self' Hget. pose proof (wbf_get_spec conv self Hinv) as Hspec.
    destruct (_heap (_queue self)) as [|e0 heap] eqn:Hheap.
    { rewrite Hget in Hspec. simplify_eq. }
    destruct Hspec as (ka & ca & a' & self'' & Hget' & Hperm & _ & Hall & _).
    rewrite Hget in Hget'. injection Hget' as <- <-. exists ka, ca. split; [done|].
    intros kb cb b Hin. rewrite Forall_forall in Hall. specialize (Hall _ Hin).
    apply tuple_le_spec in Hall as [H1 H2]. simpl in H1, H2.
    destruct Hinv as (_ & _ & Hok & _). rewrite Hheap, Forall_forall in Hok.
    destruct (Hok _ Hin) as (_ & Hkb & _). simpl in Hkb.
    assert (Hina : (ka, ca, a) ∈ e0 :: heap) by (rewrite Hperm; left).
    destruct (Hok _ Hina) as (_ & Hka & _). simpl in Hka.
    rewrite Hprio in Hka, Hkb. subst ka kb.
    rewrite float_opp_ltb in H1. rewrite float_opp_eqb in H2.
    split; [done|]. intros He. apply H2. by rewrite float_eqb_sym.
Qed.

(** A queue under the maximize sense, after [put] of nodes with bounds 5,
    1 and 3. *)
Definition example_wbf_max : WorstBoundFirstPriorityQueue.t :=
  Eval vm_compute in
    match wbf_put_all (__init__ neg_infinity example_maximize)
            [example_node 5 0; example_node 1 0; example_node 3 0] with
    | Ok self => self
    | Raise _ => __init__ neg_infinity example_maximize
    end.

Lemma example_wbf_max_reachable : wbf_reachable example_maximize example_wbf_max.
Proof.
  apply (wbf_put_all_reachable _ (__init__ neg_infinity example_maximize)
           [example_node 5 0; example_node 1 0; example_node 3 0]).
  - by repeat constructor.
  - constructor.
  - by vm_compute.
Qed.

Lemma wbf_maximize_order_witness :
  sense example_maximize = maximize /\
  wbf_reachable example_maximize example_wbf_max /\
  (forall a self',
     get example_wbf_max = (Some a, self') ->
     exists ka ca,
       _heap (_queue example_wbf_max) ≡ₚ (ka, ca, a) :: _heap (_queue self') /\
       forall kb cb b, (kb, cb, b) ∈ _heap (_queue example_wbf_max) ->
         PrimFloat.ltb (Node.bound a) (Node.bound b) = false /\
         (PrimFloat.eqb (Node.bound b) (Node.bound a) = true -> ca <= cb)).
Proof.
  split; [reflexivity|]. split; [apply example_wbf_max_reachable|].
  apply (wbf_maximize_order example_maximize example_wbf_max eq_refl
           example_wbf_max_reachable).
Defined.

(** X6.  On a queue that is not empty and has accepted no node whose
    bound is NaN, [bound()] does not raise: the priority stored in the
    next node agrees with its bound, so the assertion holds.  It returns the bound of the node [get] would
    return, which is not above any bound in the queue under the minimize
    sense and not below any under the maximize sense. *)
Theorem wbf_bound_is_worst (conv : ConvergenceChecker) (self : WorstBoundFirstPriorityQueue.t) :
  wbf_reachable conv self -> _heap (_queue self) <> [] ->
  exists a self',
    get self = (Some a, self') /\
    bound self = Ok (Some (Node.bound a)) /\
    forall data, data ∈ items self ->
      (sense conv = minimize -> PrimFloat.leb (Node.bound a) (Node.bound data) = true) /\
      (sense conv = maximize -> PrimFloat.leb (Node.bound data) (Node.bound a) = true).
Proof.
  intros Hreach Hne.
  pose proof (wbf_reachable_inv conv self Hreach) as Hinv.
  pose proof (wbf_inv_heap_wf conv self Hinv) as Hwf.
  destruct Hinv as (Hc & _ & Hok & _).
  destruct (queue_get_nonempty (_queue self) Hne)
    as (k & c & a & heap' & Hget & H0 & Hperm & Hmin).
  destruct (Hmin Hwf) as [_ Hall].
  eexists a, _. split; [unfold get; by rewrite Hget|].
  rewrite Forall_forall in Hok.
  assert (Hina : (k, c, a) ∈ _heap (_queue self)) by (by eapply list_elem_of_lookup_2).
  destruct (Hok _ Hina) as (Hna & Hka & Hqa & _). simpl in Hna, Hka, Hqa. split.
  - unfold bound. rewrite (proj2 (queue_size_pos (_queue self)) Hne).
    unfold next. rewrite (proj2 (queue_size_pos (_queue self)) Hne).
    destruct (_heap (_queue self)) as [|e heap]; [done|]. simpl in H0.
    injection H0 as ->.
    unfold Node._extract_queue_priority, Node._extract_bound. rewrite Hqa, Hc.
    cbn [mbind result_bind]. unfold wbf_priority.
    destruct (decide (sense conv = minimize)).
    + by rewrite float_opp_involutive, float_eqb_refl.
    + by rewrite float_eqb_refl.
  - intros data Hin. unfold items, _NoThreadingMaxPriorityFirstQueue.items in Hin.
    apply list_elem_of_fmap in Hin as (e & -> & Hin).
    rewrite Forall_forall in Hall. specialize (Hall _ Hin).
    apply tuple_le_spec in Hall as [H1 _]. simpl in H1.
    destruct (Hok _ Hin) as (Hne' & Hke & _). rewrite Hke, Hka in H1.
    unfold wbf_priority in H1. split; intros Hs.
    + rewrite !decide_True in H1 by done. rewrite !float_opp_involutive in H1.
      by rewrite float_leb_ltb, H1.
    + rewrite !decide_False in H1 by (by rewrite Hs). rewrite float_opp_ltb in H1.
      by rewrite float_leb_ltb, H1.
Qed.

Lemma wbf_bound_is_worst_witness :
  wbf_reachable example_minimize example_wbf /\
  exists a self',
    get example_wbf = (Some a, self') /\
    bound example_wbf = Ok (Some (Node.bound a)) /\
    forall data, data ∈ items example_wbf ->
      (sense example_minimize = minimize ->
       PrimFloat.leb (Node.bound a) (Node.bound data) = true) /\
      (sense example_minimize = maximize ->
       PrimFloat.leb (Node.bound data) (Node.bound a) = true).
Proof.
  split; [apply example_wbf_reachable|].
  apply (wbf_bound_is_worst example_minimize example_wbf example_wbf_reachable).
  by vm_compute.
Defined.

End WorstBoundFirstMore.

(** ** Invariants of the queues of nodes *)

Section NodeQueues.
#[local] Abbreviation _heap := _NoThreadingMaxPriorityFirstQueue._heap.
#[local] Abbreviation _count := _NoThreadingMaxPriorityFirstQueue._count.

Lemma variant_put_spec conv v self data b self' data' :
  custom_inv conv self ->
  variant_put v self data = Ok (b, self', data') ->
  Node.bound data' = Node.bound data /\
  CustomPriorityQueue._best_objective self' = CustomPriorityQueue._best_objective self /\
  b = objective_can_improve conv (CustomPriorityQueue._best_objective self) (Node.bound data) /\
  exists p, Node.queue_priority data' = Some p /\
    if b then
      _heap (CustomPriorityQueue._queue self') ≡ₚ
        (PrimFloat.opp p, _count (CustomPriorityQueue._queue self), data')
          :: _heap (CustomPriorityQueue._queue self) /\
      _count (CustomPriorityQueue._queue self') = _count (CustomPriorityQueue._queue self) + 1 /\
      (is_nan p = false -> heap_wf (_heap (CustomPriorityQueue._queue self)) ->
       heap_wf (_heap (CustomPriorityQueue._queue self')))
    else self' = self.
Proof.
  intros Hinv Hput.
  assert (Hgen : forall d, CustomPriorityQueue.put self d = Ok (b, self') ->
    CustomPriorityQueue._best_objective self' = CustomPriorityQueue._best_objective self /\
    b = objective_can_improve conv (CustomPriorityQueue._best_objective self) (Node.bound d) /\
    exists p, Node.queue_priority d = Some p /\
      if b then
        _heap (CustomPriorityQueue._queue self') ≡ₚ
          (PrimFloat.opp p, _count (CustomPriorityQueue._queue self), d)
            :: _heap (CustomPriorityQueue._queue self) /\
        _count (CustomPriorityQueue._queue self') =
          _count (CustomPriorityQueue._queue self) + 1 /\
        (is_nan p = false -> heap_wf (_heap (CustomPriorityQueue._queue self)) ->
         heap_wf (_heap (CustomPriorityQueue._queue self')))
      else self' = self).
  { intros d Hp. destruct (custom_put_Ok _ _ _ _ Hp) as (p & Hq & _ & _).
    pose proof (custom_put_spec conv self d p Hinv Hq) as Hspec.
    destruct (objective_can_improve conv (CustomPriorityQueue._best_objective self)
                (Node.bound d)) eqn:Himp.
    - destruct Hspec as (s' & Heq & Hcnt & Hbest & Hperm & _ & Hwf & _).
      rewrite Hp in Heq. injection Heq as -> ->.
      split; [done|]. split; [done|]. exists p. done.
    - rewrite Hp in Hspec. injection Hspec as -> ->.
      split; [done|]. split; [done|]. exists p. done. }
  destruct (decide (v = Custom)) as [->|Hv].
  - simpl in Hput. destruct (CustomPriorityQueue.put self data) as [[b' s]|] eqn:Hp; [|done].
    cbn [mbind result_bind] in Hput. injection Hput as -> -> ->.
    split; [done|]. by apply Hgen.
  - rewrite depth_put_spec in Hput by done.
    destruct (assert (0 <=? Node.tree_depth data)); [|done].
    destruct (float_of_int (depth_priority v data)) as [p|]; [|done].
    cbn [mbind result_bind] in Hput.
    destruct (CustomPriorityQueue.put self (with_priority data p)) as [[b' s]|] eqn:Hp; [|done].
    cbn [mbind result_bind] in Hput. injection Hput as -> -> <-.
    split; [done|]. by apply (Hgen (with_priority data p)).
Qed.

(** X7.  A queue holds no node that cannot improve its best objective,
    and its best objective is the one it was last given.  In every state
    of a [WorstBoundFirstPriorityQueue] and of a [CustomPriorityQueue]
    or one of its subclasses that has accepted no node whose bound is
    NaN, every queued node passes [objective_can_improve] against the
    best objective of the queue; [update_for_best_objective(best)]
    stores [best] as the best objective of the queue; [put] tests the
    bound of its node against the best objective of the queue and, like
    [get], leaves that best objective as it is. *)
Theorem queued_nodes_can_improve (conv : ConvergenceChecker) (v : variant)
    (wself : WorstBoundFirstPriorityQueue.t) (cself : CustomPriorityQueue.t) :
  wbf_reachable conv wself -> custom_reachable conv v cself ->
  (Forall (fun d => objective_can_improve conv
                      (WorstBoundFirstPriorityQueue._best_objective wself)
                      (Node.bound d) = true)
     (WorstBoundFirstPriorityQueue.items wself) /\
   (forall best removed wself',
      WorstBoundFirstPriorityQueue.update_for_best_objective wself best = (removed, wself') ->
      WorstBoundFirstPriorityQueue._best_objective wself' = best) /\
   (forall data b wself' data',
      WorstBoundFirstPriorityQueue.put wself data = Ok (b, wself', data') ->
      b = objective_can_improve conv (WorstBoundFirstPriorityQueue._best_objective wself)
            (Node.bound data) /\
      WorstBoundFirstPriorityQueue._best_objective wself' =
        WorstBoundFirstPriorityQueue._best_objective wself) /\
   (forall r wself',
      WorstBoundFirstPriorityQueue.get wself = (r, wself') ->
      WorstBoundFirstPriorityQueue._best_objective wself' =
        WorstBoundFirstPriorityQueue._best_objective wself)) /\
  (Forall (fun d => objective_can_improve conv
                      (CustomPriorityQueue._best_objective cself)
                      (Node.bound d) = true)
     (CustomPriorityQueue.items cself) /\
   (forall best removed cself',
      CustomPriorityQueue.update_for_best_objective cself best = Ok (removed, cself') ->
      CustomPriorityQueue._best_objective cself' = best) /\
   (forall data b cself' data',
      variant_put v cself data = Ok (b, cself', data') ->
      b = objective_can_improve conv (CustomPriorityQueue._best_objective cself)
            (Node.bound data) /\
      CustomPriorityQueue._best_objective cself' =
        CustomPriorityQueue._best_objective cself) /\
   (forall r cself',
      CustomPriorityQueue.get cself = Ok (r, cself') ->
      CustomPriorityQueue._best_objective cself' =
        CustomPriorityQueue._best_objective cself)).
Proof.
  intros Hw Hc.
  assert (Hwput : forall self data b self' data',
            wbf_inv conv self ->
            WorstBoundFirstPriorityQueue.put self data = Ok (b, self', data') ->
            b = objective_can_improve conv (WorstBoundFirstPriorityQueue._best_objective self)
                  (Node.bound data) /\
            WorstBoundFirstPriorityQueue._best_objective self' =
              WorstBoundFirstPriorityQueue._best_objective self).
  { intros self data b self' data' Hinv Hput.
    unfold WorstBoundFirstPriorityQueue.put, Node._extract_bound in Hput.
    rewrite (proj1 Hinv) in Hput.
    destruct (objective_can_improve conv _ _).
    - cbn [Node._insert_queue_priority to_float mbind result_bind] in Hput.
      destruct (_NoThreadingMaxPriorityFirstQueue.put _ _ _).
      by injection Hput as <- <- _.
    - by injection Hput as <- <- _. }
  assert (Hwget : forall self r self',
            WorstBoundFirstPriorityQueue.get self = (r, self') ->
            WorstBoundFirstPriorityQueue._best_objective self' =
              WorstBoundFirstPriorityQueue._best_objective self).
  { intros self r self' Hget. unfold WorstBoundFirstPriorityQueue.get in Hget.
    destruct (_NoThreadingMaxPriorityFirstQueue.get _). by injection Hget as _ <-. }
  assert (Hcget : forall self r self',
            custom_inv conv self ->
            CustomPriorityQueue.get self = Ok (r, self') ->
            CustomPriorityQueue._best_objective self' =
              CustomPriorityQueue._best_objective self).
  { intros self r self' Hinv Hget.
    pose proof (custom_get_spec conv self Hinv) as Hspec.
    destruct (_heap (CustomPriorityQueue._queue self)) eqn:Hheap.
    - rewrite Hget in Hspec. by injection Hspec as _ ->.
    - destruct Hspec as (k & c & a & s & Heq & _ & _ & _ & _ & Hbest & _).
      rewrite Hget in Heq. by injection Heq as _ ->. }
  split; [split; [|split; [|split]]|split; [|split; [|split]]].
  - clear Hc. induction Hw as [best|self data b self' data' Hr IH Hput Hnum|self r self' Hr IH Hget|
                               self best removed self' Hr IH Hupd].
    + constructor.
    + pose proof (wbf_reachable_inv conv self Hr) as Hinv.
      destruct (Hwput _ _ _ _ _ Hinv Hput) as [Hb Hbest].
      pose proof (wbf_put_spec conv self data Hinv) as Hspec. rewrite <- Hb in Hspec.
      destruct b.
      * destruct Hspec as (s & d & Heq & _ & Hbd & _ & _ & Hperm & _).
        rewrite Hput in Heq. injection Heq as <- <-.
        unfold WorstBoundFirstPriorityQueue.items, _NoThreadingMaxPriorityFirstQueue.items in *.
        rewrite Hperm, Hbest. csimpl. constructor; [by rewrite Hbd|done].
      * rewrite Hput in Hspec. by injection Hspec as -> ->.
    + pose proof (wbf_reachable_inv conv self Hr) as Hinv.
      pose proof (wbf_get_spec conv self Hinv) as Hspec.
      rewrite (Hwget _ _ _ Hget).
      destruct (_heap (WorstBoundFirstPriorityQueue._queue self)) eqn:Hheap.
      * rewrite Hget in Hspec. by injection Hspec as _ ->.
      * destruct Hspec as (k & c & a & s & Heq & Hperm & _).
        rewrite Hget in Heq. injection Heq as -> <-.
        unfold WorstBoundFirstPriorityQueue.items, _NoThreadingMaxPriorityFirstQueue.items in *.
        rewrite Hheap, Hperm in IH. csimpl in IH. by apply Forall_cons in IH as [_ IH].
    + pose proof (wbf_reachable_inv conv self Hr) as Hinv.
      pose proof (wbf_update_spec conv self best) as Hspec. rewrite Hupd in Hspec.
      destruct Hspec as (_ & _ & Hkeep & _ & -> & _). by rewrite (proj1 Hinv) in Hkeep.
  - intros best removed wself' Hupd.
    pose proof (wbf_update_spec conv wself best) as Hspec. rewrite Hupd in Hspec.
    apply Hspec.
  - intros data b wself' data'. apply Hwput. by apply wbf_reachable_inv.
  - apply Hwget.
  - clear Hw. induction Hc as [best|self data b self' data' Hr IH Hput Hnum|self r self' Hr IH Hget|
                               self best removed self' Hr IH Hupd].
    + constructor.
    + pose proof (custom_reachable_inv conv v self Hr) as Hinv.
      destruct (variant_put_spec conv v self data b self' data' Hinv Hput)
        as (Hb & Hbest & Himp & p & _ & Hcase).
      destruct b.
      * destruct Hcase as (Hperm & _).
        unfold CustomPriorityQueue.items, _NoThreadingMaxPriorityFirstQueue.items in *.
        rewrite Hperm, Hbest. csimpl. constructor; [by rewrite Hb|done].
      * by subst.
    + pose proof (custom_reachable_inv conv v self Hr) as Hinv.
      pose proof (custom_get_spec conv self Hinv) as Hspec.
      rewrite (Hcget _ _ _ Hinv Hget).
      destruct (_heap (CustomPriorityQueue._queue self)) eqn:Hheap.
      * rewrite Hget in Hspec. by injection Hspec as _ ->.
      * destruct Hspec as (k & c & a & s & Heq & _ & Hperm & _).
        rewrite Hget in Heq. injection Heq as -> <-.
        unfold CustomPriorityQueue.items, _NoThreadingMaxPriorityFirstQueue.items in *.
        rewrite Hheap, Hperm in IH. csimpl in IH. by apply Forall_cons in IH as [_ IH].
    + pose proof (custom_reachable_inv conv v self Hr) as Hinv.
      destruct (custom_update_spec conv self best Hinv)
        as (rem & s & Heq & _ & _ & Hkeep & _ & _ & Hbest & _).
      rewrite Hupd in Heq. injection Heq as <- <-. by rewrite Hbest.
  - intros best removed cself' Hupd.
    destruct (custom_update_spec conv cself best (custom_reachable_inv conv v cself Hc))
      as (rem & s & Heq & _ & _ & _ & _ & _ & Hbest & _).
    rewrite Hupd in Heq. by injection Heq as _ <-.
  - intros data b cself' data' Hput.
    destruct (variant_put_spec conv v cself data b cself' data'
                (custom_reachable_inv conv v cself Hc) Hput) as (_ & Hbest & Hb & _).
    done.
  - intros r cself'. apply Hcget. by apply (custom_reachable_inv conv v).
Qed.

Lemma queued_nodes_can_improve_witness :
  wbf_reachable example_minimize example_wbf /\
  custom_reachable example_minimize DepthFirst example_custom /\
  Forall (fun d => objective_can_improve example_minimize
                     (WorstBoundFirstPriorityQueue._best_objective example_wbf)
                     (Node.bound d) = true)
    (WorstBoundFirstPriorityQueue.items example_wbf) /\
  (forall best removed wself',
     WorstBoundFirstPriorityQueue.update_for_best_objective example_wbf best =
       (removed, wself') ->
     WorstBoundFirstPriorityQueue._best_objective wself' = best).
Proof.
  split; [apply example_wbf_reachable|]. split; [apply example_custom_reachable|].
  destruct (queued_nodes_can_improve example_minimize DepthFirst example_wbf example_custom
              example_wbf_reachable example_custom_reachable) as [(H1 & H2 & _) _].
  by split.
Defined.

End NodeQueues.

Section NodeQueues2.
#[local] Abbreviation _heap := _NoThreadingMaxPriorityFirstQueue._heap.
#[local] Abbreviation _count := _NoThreadingMaxPriorityFirstQueue._count.

(** X8.  In a queue that has accepted no node whose bound is NaN, the
    size counts the nodes and [get] and [update_for_best_objective] of
    [CustomPriorityQueue] do not raise: a [put] that returns
    [True] adds one and a [put] that returns [False] adds none, a [get]
    that returns a node takes one away and a [get] that returns [None]
    takes none, and [update_for_best_objective] takes away as many as it
    returns. *)
Theorem size_accounting (conv : ConvergenceChecker) (v : variant)
    (wself : WorstBoundFirstPriorityQueue.t) (cself : CustomPriorityQueue.t) :
  wbf_reachable conv wself -> custom_reachable conv v cself ->
  ((forall data b wself' data',
      WorstBoundFirstPriorityQueue.put wself data = Ok (b, wself', data') ->
      WorstBoundFirstPriorityQueue.size wself' =
        WorstBoundFirstPriorityQueue.size wself + (if b then 1 else 0)) /\
   (forall r wself',
      WorstBoundFirstPriorityQueue.get wself = (r, wself') ->
      WorstBoundFirstPriorityQueue.size wself' =
        WorstBoundFirstPriorityQueue.size wself - (match r with Some _ => 1 | None => 0 end)) /\
   (forall best removed wself',
      WorstBoundFirstPriorityQueue.update_for_best_objective wself best = (removed, wself') ->
      WorstBoundFirstPriorityQueue.size wself' =
        WorstBoundFirstPriorityQueue.size wself - Z.of_nat (length removed))) /\
  ((forall data b cself' data',
      variant_put v cself data = Ok (b, cself', data') ->
      CustomPriorityQueue.size cself' =
        CustomPriorityQueue.size cself + (if b then 1 else 0)) /\
   (exists r cself',
      CustomPriorityQueue.get cself = Ok (r, cself') /\
      CustomPriorityQueue.size cself' =
        CustomPriorityQueue.size cself - (match r with Some _ => 1 | None => 0 end)) /\
   (forall best, exists removed cself',
      CustomPriorityQueue.update_for_best_objective cself best = Ok (removed, cself') /\
      CustomPriorityQueue.size cself' =
        CustomPriorityQueue.size cself - Z.of_nat (length removed))).
Proof.
  intros Hw Hc.
  pose proof (wbf_reachable_inv conv wself Hw) as Hwinv.
  pose proof (custom_reachable_inv conv v cself Hc) as Hcinv.
  unfold WorstBoundFirstPriorityQueue.size, CustomPriorityQueue.size,
    _NoThreadingMaxPriorityFirstQueue.size.
  split; [split; [|split]|split; [|split]].
  - intros data b wself' data' Hput.
    pose proof (wbf_put_spec conv wself data Hwinv) as Hspec.
    destruct (objective_can_improve conv _ _).
    + destruct Hspec as (s & d & Heq & _ & _ & _ & _ & Hperm & _).
      rewrite Hput in Heq. injection Heq as -> <- <-.
      apply Permutation_length in Hperm. rewrite Hperm. simpl. lia.
    + rewrite Hput in Hspec. injection Hspec as -> -> ->. lia.
  - intros r wself' Hget. pose proof (wbf_get_spec conv wself Hwinv) as Hspec.
    destruct (_heap (WorstBoundFirstPriorityQueue._queue wself)) eqn:Hheap.
    + rewrite Hget in Hspec. injection Hspec as -> ->. rewrite Hheap. simpl. lia.
    + destruct Hspec as (k & c & a & s & Heq & Hperm & _).
      rewrite Hget in Heq. injection Heq as -> <-.
      apply Permutation_length in Hperm. rewrite Hperm. simpl. lia.
  - intros best removed wself' Hupd.
    pose proof (wbf_update_spec conv wself best) as Hspec. rewrite Hupd in Hspec.
    destruct Hspec as (Hperm & -> & _).
    apply Permutation_length in Hperm. rewrite Hperm, length_app, length_fmap. lia.
  - intros data b cself' data' Hput.
    destruct (variant_put_spec conv v cself data b cself' data' Hcinv Hput)
      as (_ & _ & _ & p & _ & Hcase).
    destruct b.
    + destruct Hcase as (Hperm & _). apply Permutation_length in Hperm.
      rewrite Hperm. simpl. lia.
    + subst. lia.
  - pose proof (custom_get_spec conv cself Hcinv) as Hspec.
    destruct (_heap (CustomPriorityQueue._queue cself)) eqn:Hheap.
    + exists None, cself. split; [done|]. rewrite Hheap. simpl. lia.
    + destruct Hspec as (k & c & a & s & Heq & _ & Hperm & _).
      exists (Some a), s. split; [done|].
      apply Permutation_length in Hperm. rewrite Hperm. simpl. lia.
  - intros best.
    destruct (custom_update_spec conv cself best Hcinv) as (rem & s & Heq & Hperm & -> & _).
    eexists _, s. split; [done|].
    apply Permutation_length in Hperm. rewrite Hperm, length_app, length_fmap. lia.
Qed.

Lemma size_accounting_witness :
  wbf_reachable example_minimize example_wbf /\
  custom_reachable example_minimize DepthFirst example_custom /\
  (exists r cself',
     CustomPriorityQueue.get example_custom = Ok (r, cself') /\
     CustomPriorityQueue.size cself' =
       CustomPriorityQueue.size example_custom - (match r with Some _ => 1 | None => 0 end)) /\
  (forall best, exists removed cself',
     CustomPriorityQueue.update_for_best_objective example_custom best = Ok (removed, cself') /\
     CustomPriorityQueue.size cself' =
       CustomPriorityQueue.size example_custom - Z.of_nat (length removed)).
Proof.
  split; [apply example_wbf_reachable|]. split; [apply example_custom_reachable|].
  apply (size_accounting example_minimize DepthFirst example_wbf example_custom
           example_wbf_reachable example_custom_reachable).
Defined.

(** The queues of class [CustomPriorityQueue] or a subclass that arise
    from an empty one when every node put carries a priority that is a
    number and every node accepted a bound that is a number. *)
Inductive custom_reachable_numeric (conv : ConvergenceChecker) (v : variant)
    : CustomPriorityQueue.t -> Prop :=
| custom_num_init best :
    custom_reachable_numeric conv v (CustomPriorityQueue.__init__ best conv)
| custom_num_put self data b self' data' :
    custom_reachable_numeric conv v self ->
    variant_put v self data = Ok (b, self', data') ->
    (forall p, Node.queue_priority data' = Some p -> is_nan p = false) ->
    (b = true -> is_nan (Node.bound data) = false) ->
    custom_reachable_numeric conv v self'
| custom_num_get self r self' :
    custom_reachable_numeric conv v self ->
    CustomPriorityQueue.get self = Ok (r, self') ->
    custom_reachable_numeric conv v self'
| custom_num_update self best removed self' :
    custom_reachable_numeric conv v self ->
    CustomPriorityQueue.update_for_best_objective self best = Ok (removed, self') ->
    custom_reachable_numeric conv v self'.

Lemma custom_reachable_numeric_reachable conv v self :
  custom_reachable_numeric conv v self -> custom_reachable conv v self.
Proof.
  induction 1; [constructor| | |].
  - by eapply custom_reach_put.
  - by eapply custom_reach_get.
  - by eapply custom_reach_update.
Qed.

(** The heap is ordered and every triple is keyed by the negated
    priority of its node. *)
Definition custom_heap_ok (self : CustomPriorityQueue.t) : Prop :=
  heap_wf (_heap (CustomPriorityQueue._queue self)) /\
  Forall (fun e => Node.queue_priority e.2 = Some (PrimFloat.opp e.1.1))
    (_heap (CustomPriorityQueue._queue self)).

Lemma custom_reachable_numeric_heap conv v self :
  custom_reachable_numeric conv v self -> custom_heap_ok self.
Proof.
  induction 1 as [best|self data b self' data' Hr IH Hput Hnum Hbound|self r self' Hr IH Hget|
                  self best removed self' Hr IH Hupd].
  - split; [apply heap_wf_nil|constructor].
  - pose proof (custom_reachable_inv conv v self
                  (custom_reachable_numeric_reachable _ _ _ Hr)) as Hinv.
    destruct (variant_put_spec conv v self data b self' data' Hinv Hput)
      as (_ & _ & _ & p & Hp & Hcase).
    destruct b; [|by subst].
    destruct Hcase as (Hperm & _ & Hwf). destruct IH as [IHwf IHp]. split.
    + apply Hwf; [by apply Hnum|done].
    + rewrite Hperm. constructor; [|done]. simpl. by rewrite float_opp_involutive.
  - pose proof (custom_reachable_inv conv v self
                  (custom_reachable_numeric_reachable _ _ _ Hr)) as Hinv.
    pose proof (custom_get_spec conv self Hinv) as Hspec.
    destruct (_heap (CustomPriorityQueue._queue self)) eqn:Hheap.
    + rewrite Hget in Hspec. injection Hspec as -> ->. done.
    + destruct Hspec as (k & c & a & s & Heq & _ & Hperm & _ & _ & _ & Hwf & _).
      rewrite Hget in Heq. injection Heq as -> <-.
      destruct IH as [IHwf IHp]. rewrite Hheap in IHwf, IHp. split.
      * by apply Hwf.
      * rewrite Hperm in IHp. by apply Forall_cons in IHp as [_ IHp].
  - pose proof (custom_reachable_inv conv v self
                  (custom_reachable_numeric_reachable _ _ _ Hr)) as Hinv.
    destruct (custom_update_spec conv self best Hinv)
      as (rem & s & Heq & Hperm & _ & _ & _ & _ & _ & _ & Hwf & _).
    rewrite Hupd in Heq. injection Heq as <- <-.
    destruct IH as [[IHok _] IHp]. split.
    + by apply Hwf.
    + rewrite Hperm in IHp. by apply Forall_app in IHp as [IHp _].
Qed.

(** X9.  On a queue whose nodes were put with priorities that are not
    NaN and which has accepted no node whose bound is NaN, [get] of
    [CustomPriorityQueue] does not raise.  On an empty
    queue it returns [None].  Otherwise it returns a queued node of the
    highest [queue_priority], among those of equal priority the one put
    first, and takes that node, and no other, out of the heap and out of
    [_sorted_by_bound]. *)
Theorem custom_get_highest_priority (conv : ConvergenceChecker) (v : variant)
    (self : CustomPriorityQueue.t) :
  custom_reachable_numeric conv v self ->
  (_heap (CustomPriorityQueue._queue self) = [] ->
   CustomPriorityQueue.get self = Ok (None, self)) /\
  (_heap (CustomPriorityQueue._queue self) <> [] ->
   exists a ka ca pa self',
     CustomPriorityQueue.get self = Ok (Some a, self') /\
     Node.queue_priority a = Some pa /\
     _heap (CustomPriorityQueue._queue self) ≡ₚ
       (ka, ca, a) :: _heap (CustomPriorityQueue._queue self') /\
     (CustomPriorityQueue._sorted_by_bound self).*2 ≡ₚ
       a :: (CustomPriorityQueue._sorted_by_bound self').*2 /\
     forall kb cb b, (kb, cb, b) ∈ _heap (CustomPriorityQueue._queue self) ->
       exists pb, Node.queue_priority b = Some pb /\
         PrimFloat.leb pb pa = true /\
         (PrimFloat.eqb pb pa = true -> ca <= cb)).
Proof.
  intros Hnum.
  pose proof (custom_reachable_inv conv v self
                (custom_reachable_numeric_reachable _ _ _ Hnum)) as Hinv.
  destruct (custom_reachable_numeric_heap conv v self Hnum) as [Hwf Hprio].
  pose proof (custom_get_spec conv self Hinv) as Hspec.
  split.
  - intros Hempty. by rewrite Hempty in Hspec.
  - intros Hne. destruct (_heap (CustomPriorityQueue._queue self)) as [|e0 heap] eqn:Hheap; [done|].
    destruct Hspec as (k & c & a & s & Heq & _ & Hperm & Hsbb & _ & _ & Hmin & _).
    destruct (Hmin Hwf) as [_ Hall].
    rewrite Forall_forall in Hprio.
    assert (Hina : (k, c, a) ∈ e0 :: heap) by (rewrite Hperm; left).
    pose proof (Hprio _ Hina) as Hpa. simpl in Hpa.
    exists a, k, c, (PrimFloat.opp k), s. split; [done|]. split; [done|]. split; [done|].
    split; [by rewrite Hsbb|].
    intros kb cb b Hin. pose proof (Hprio _ Hin) as Hpb. simpl in Hpb.
    exists (PrimFloat.opp kb). split; [done|].
    rewrite Forall_forall in Hall. specialize (Hall _ Hin).
    apply tuple_le_spec in Hall as [H1 H2]. simpl in H1, H2.
    destruct Hwf as [Hok _]. rewrite Forall_forall in Hok.
    pose proof (Hok _ Hin) as Hkb. pose proof (Hok _ Hina) as Hka.
    unfold key_ok in Hka, Hkb. simpl in Hka, Hkb. split.
    + rewrite float_leb_ltb by (by rewrite float_opp_nan).
      by rewrite float_opp_ltb, H1.
    + rewrite float_opp_eqb. intros He. apply H2. by rewrite float_eqb_sym.
Qed.

(** Nodes with priorities chosen by the caller: bounds 1, 2 and 3 under
    the priorities 2, 7 and 7. *)
Definition example_prioritised_nodes : list Node.data :=
  [with_priority (example_node 1 0) 2; with_priority (example_node 2 0) 7;
   with_priority (example_node 3 0) 7].

Definition example_custom_queue (nodes : list Node.data) : CustomPriorityQueue.t :=
  match custom_put_all Custom (CustomPriorityQueue.__init__ infinity example_minimize) nodes with
  | Ok self => self
  | Raise _ => CustomPriorityQueue.__init__ infinity example_minimize
  end.

Lemma example_custom_queue_numeric :
  custom_reachable_numeric example_minimize Custom
    (example_custom_queue example_prioritised_nodes).
Proof.
  pose proof (custom_num_init example_minimize Custom infinity) as H0.
  pose proof (custom_num_put _ Custom _ (with_priority (example_node 1 0) 2) _ _ _ H0 eq_refl) as H1.
  specialize (H1 ltac:(by intros p [= <-]) ltac:(done)).
  pose proof (custom_num_put _ Custom _ (with_priority (example_node 2 0) 7) _ _ _ H1 eq_refl) as H2.
  specialize (H2 ltac:(by intros p [= <-]) ltac:(done)).
  pose proof (custom_num_put _ Custom _ (with_priority (example_node 3 0) 7) _ _ _ H2 eq_refl) as H3.
  specialize (H3 ltac:(by intros p [= <-]) ltac:(done)).
  exact H3.
Qed.

Lemma custom_get_highest_priority_witness :
  custom_reachable_numeric example_minimize Custom
    (example_custom_queue example_prioritised_nodes) /\
  exists a ka ca pa self',
    CustomPriorityQueue.get (example_custom_queue example_prioritised_nodes) =
      Ok (Some a, self') /\
    Node.queue_priority a = Some pa /\
    _heap (CustomPriorityQueue._queue (example_custom_queue example_prioritised_nodes)) ≡ₚ
      (ka, ca, a) :: _heap (CustomPriorityQueue._queue self') /\
    (CustomPriorityQueue._sorted_by_bound
       (example_custom_queue example_prioritised_nodes)).*2 ≡ₚ
      a :: (CustomPriorityQueue._sorted_by_bound self').*2 /\
    forall kb cb b,
      (kb, cb, b) ∈ _heap (CustomPriorityQueue._queue
                             (example_custom_queue example_prioritised_nodes)) ->
      exists pb, Node.queue_priority b = Some pb /\
        PrimFloat.leb pb pa = true /\
        (PrimFloat.eqb pb pa = true -> ca <= cb).
Proof.
  split; [apply example_custom_queue_numeric|].
  apply (custom_get_highest_priority example_minimize Custom
           (example_custom_queue example_prioritised_nodes)
           example_custom_queue_numeric).
  by vm_compute.
Defined.

End NodeQueues2.

(** ** When [put] raises *)

Section PutRaises.

(** X10.  [put] of [WorstBoundFirstPriorityQueue] never raises, and when
    the improvement test fails it returns [False] and leaves the queue
    and the node as they were.  [put]
    of [CustomPriorityQueue] raises [AssertionError] for a node without
    a priority, also when the bound of the node could not improve the
    best objective, and raises for no other node.  [put] of
    [BreadthFirstPriorityQueue] and of [DepthFirstPriorityQueue] raises
    [AssertionError] for a node of negative depth, and for a depth
    between 0 and 2^53 does not raise, whether the node carried a
    priority or not. *)
Theorem put_raises_exactly_on_assertions (wself : WorstBoundFirstPriorityQueue.t)
    (self : CustomPriorityQueue.t) (data : Node.data) :
  (exists b wself' data', WorstBoundFirstPriorityQueue.put wself data = Ok (b, wself', data')) /\
  (objective_can_improve (WorstBoundFirstPriorityQueue._converger wself)
     (WorstBoundFirstPriorityQueue._best_objective wself) (Node.bound data) = false ->
   WorstBoundFirstPriorityQueue.put wself data = Ok (false, wself, data)) /\
  (Node.queue_priority data = None ->
   CustomPriorityQueue.put self data = Raise AssertionError) /\
  (Node.queue_priority data <> None ->
   exists b self', CustomPriorityQueue.put self data = Ok (b, self')) /\
  (Node.tree_depth data < 0 ->
   BreadthFirstPriorityQueue.put self data = Raise AssertionError /\
   DepthFirstPriorityQueue.put self data = Raise AssertionError) /\
  (0 <= Node.tree_depth data <= 2 ^ 53 ->
   (exists b self' data', BreadthFirstPriorityQueue.put self data = Ok (b, self', data')) /\
   (exists b self' data', DepthFirstPriorityQueue.put self data = Ok (b, self', data'))).
Proof.
  split; [|split; [|split; [|split; [|split]]]].
  - unfold WorstBoundFirstPriorityQueue.put.
    destruct (objective_can_improve _ _ _); [|by eexists _, _, _].
    cbn [Node._insert_queue_priority to_float mbind result_bind].
    destruct (_NoThreadingMaxPriorityFirstQueue.put _ _ _). by eexists _, _, _.
  - intros Himp. unfold WorstBoundFirstPriorityQueue.put, Node._extract_bound.
    by rewrite Himp.
  - apply custom_put_unset.
  - intros Hp. destruct (Node.queue_priority data) as [p|] eqn:Hq; [|done].
    destruct (custom_put_total self data p Hq) as (self' & Hput & _). by eexists _, _.
  - intros Hd. unfold BreadthFirstPriorityQueue.put, DepthFirstPriorityQueue.put,
      Node._extract_tree_depth.
    by rewrite (proj2 (Z.leb_gt _ _) Hd).
  - intros Hd.
    assert (Hput : forall v, v <> Custom -> exists b self' data',
              variant_put v self data = Ok (b, self', data')).
    { intros v Hv. rewrite depth_put_spec by done.
      rewrite (proj2 (Z.leb_le _ _) (proj1 Hd)). cbn [assert mbind result_bind].
      destruct (float_of_int_storable (depth_priority v data)) as (p & -> & _).
      { unfold storable, depth_priority. destruct v; lia. }
      cbn [mbind result_bind].
      destruct (custom_put_total self (with_priority data p) p eq_refl) as (self' & -> & _).
      by eexists _, _, _. }
    split; [by apply (Hput BreadthFirst)|by apply (Hput DepthFirst)].
Qed.

End PutRaises.

(** ** The update frame, continued *)

Section PackMore.
Import MPI DispatcherProxy.

Lemma pack_step (pre : list float) (f : float) (u : list float) (r0 : float)
    (rest : list float) :
  (length u <= length rest)%nat ->
  list_inserts (length pre + 1) u (<[length pre := f]> (pre ++ r0 :: rest)) =
    (pre ++ f :: u) ++ drop (length u) rest.
Proof.
  intros Hlen. rewrite insert_app_r_alt by lia. rewrite Nat.sub_diag. simpl.
  replace (pre ++ f :: rest) with ((pre ++ [f]) ++ rest) by (by rewrite <- app_assoc).
  replace (length pre + 1)%nat with (length (pre ++ [f]) + 0)%nat
    by (rewrite length_app; simpl; lia).
  rewrite list_inserts_app_r.
  rewrite <- (take_drop (length u) rest) at 1.
  rewrite list_inserts_0_r by (rewrite length_take; lia).
  by rewrite <- !app_assoc.
Qed.

Lemma pack_loop_rest node_states (pre rest1 rest2 : list float) :
  length rest1 = length (frame_states node_states) ->
  length rest2 = length (frame_states node_states) ->
  pack_loop node_states (pre ++ rest1) (length pre) =
  pack_loop node_states (pre ++ rest2) (length pre).
Proof.
  revert pre rest1 rest2.
  induction node_states as [|u l IH]; intros pre rest1 rest2 H1 H2.
  - destruct rest1, rest2; done.
  - cbn [pack_loop]. destruct (float_of_int (Z.of_nat (length u))) as [f|e]; [|done].
    cbn [mbind result_bind].
    rewrite frame_states_cons in *. cbn [length] in H1, H2. rewrite length_app in H1, H2.
    destruct rest1 as [|r1 rest1]; [simpl in H1; lia|].
    destruct rest2 as [|r2 rest2]; [simpl in H2; lia|].
    cbn [length] in H1, H2.
    rewrite !pack_step by lia.
    replace (length pre + 1 + length u)%nat with (length (pre ++ f :: u))
      by (rewrite length_app; simpl; lia).
    apply IH; rewrite length_drop; lia.
Qed.

Lemma pack_loop_length node_states data pos frame :
  pack_loop node_states data pos = Ok frame -> length frame = length data.
Proof.
  revert data pos. induction node_states as [|u l IH]; intros data pos H.
  - simpl in H. by injection H as <-.
  - cbn [pack_loop] in H. destruct (float_of_int (Z.of_nat (length u))) as [f|e]; [|done].
    cbn [mbind result_bind] in H. apply IH in H.
    by rewrite length_inserts, length_insert in H.
Qed.

Lemma frame_states_length node_states :
  length (frame_states node_states) =
    (length node_states + length (concat node_states))%nat.
Proof.
  induction node_states as [|u l IH]; [done|].
  rewrite frame_states_cons. simpl. rewrite !length_app, IH. lia.
Qed.

(** [pack] with the buffer reads resolved: the assertions look only at
    what was just written. *)
Lemma pack_chain (junk : nat -> float) (best_objective previous_bound : float)
    (explored_nodes_count : Z) (node_states : list (list float)) :
  pack junk best_objective previous_bound explored_nodes_count node_states =
    (_ ← assert (PrimFloat.eqb best_objective best_objective);
     _ ← assert (PrimFloat.eqb previous_bound previous_bound);
     e ← float_of_int explored_nodes_count;
     _ ← assert (PrimFloat.eqb e e);
     i ← int_of_float e;
     _ ← assert (i =? explored_nodes_count);
     k ← float_of_int (Z.of_nat (length node_states));
     _ ← assert (PrimFloat.eqb k k);
     i ← int_of_float k;
     _ ← assert (i =? Z.of_nat (length node_states));
     pack_loop node_states
       ([best_objective; previous_bound; e; k] ++
        (junk <$> seq 4 (length (frame_states node_states)))) 4).
Proof.
  unfold pack. rewrite pack_size.
  cbn [Nat.add seq fmap list_fmap insert list_insert getitem lookup list_lookup
       mbind result_bind].
  destruct (assert (PrimFloat.eqb best_objective best_objective)); [|done].
  destruct (assert (PrimFloat.eqb previous_bound previous_bound)); [|done].
  cbn [mbind result_bind].
  destruct (float_of_int explored_nodes_count) as [e|]; [|done].
  cbn [mbind result_bind getitem lookup list_lookup insert list_insert].
  destruct (assert (PrimFloat.eqb e e)); [|done]. cbn [mbind result_bind].
  destruct (int_of_float e) as [i|]; [|done]. cbn [mbind result_bind].
  destruct (assert (i =? explored_nodes_count)); [|done]. cbn [mbind result_bind].
  destruct (float_of_int (Z.of_nat (length node_states))) as [k|]; [|done].
  cbn [mbind result_bind getitem lookup list_lookup insert list_insert].
  destruct (assert (PrimFloat.eqb k k)); [|done]. cbn [mbind result_bind].
  destruct (int_of_float k) as [i'|]; [|done]. cbn [mbind result_bind].
  destruct (assert (i' =? Z.of_nat (length node_states))); [|done].
  cbn [mbind result_bind].
  destruct node_states as [|u l]; done.
Qed.

Lemma assert_Ok b : assert b = Ok tt <-> b = true.
Proof. by destruct b. Qed.

Lemma exact_int_intro z f :
  float_of_int z = Ok f -> int_of_float f = Ok z -> exact_int z = true.
Proof. intros H1 H2. unfold exact_int. by rewrite H1, H2, Z.eqb_refl. Qed.

Lemma the_float_intro z f : float_of_int z = Ok f -> the_float z = f.
Proof. intros H. unfold the_float. by rewrite H. Qed.

(** What a frame that was built says about the call that built it. *)
Lemma pack_Ok_inv junk best_objective previous_bound explored_nodes_count node_states frame :
  pack junk best_objective previous_bound explored_nodes_count node_states = Ok frame ->
  is_nan best_objective = false /\ is_nan previous_bound = false /\
  exact_int explored_nodes_count = true /\
  exact_int (Z.of_nat (length node_states)) = true /\
  (Forall (fun udata => exact_int (Z.of_nat (length udata)) = true) node_states ->
   frame = [best_objective; previous_bound; the_float explored_nodes_count;
            the_float (Z.of_nat (length node_states))] ++ frame_states node_states).
Proof.
  rewrite pack_chain.
  destruct (assert (PrimFloat.eqb best_objective best_objective)) as [[]|] eqn:Hb; [|done].
  destruct (assert (PrimFloat.eqb previous_bound previous_bound)) as [[]|] eqn:Hp; [|done].
  cbn [mbind result_bind].
  destruct (float_of_int explored_nodes_count) as [e|] eqn:He; [|done].
  cbn [mbind result_bind].
  destruct (assert (PrimFloat.eqb e e)); [|done]. cbn [mbind result_bind].
  destruct (int_of_float e) as [i|] eqn:Hi; [|done]. cbn [mbind result_bind].
  destruct (assert (i =? explored_nodes_count)) as [[]|] eqn:Hie; [|done].
  cbn [mbind result_bind].
  destruct (float_of_int (Z.of_nat (length node_states))) as [k|] eqn:Hk; [|done].
  cbn [mbind result_bind].
  destruct (assert (PrimFloat.eqb k k)); [|done]. cbn [mbind result_bind].
  destruct (int_of_float k) as [i'|] eqn:Hi'; [|done]. cbn [mbind result_bind].
  destruct (assert (i' =? Z.of_nat (length node_states))) as [[]|] eqn:Hik; [|done].
  cbn [mbind result_bind]. intros Hloop.
  apply assert_Ok in Hb, Hp, Hie, Hik. apply Z.eqb_eq in Hie, Hik. subst i i'.
  apply float_eqb_nan in Hb as [Hb _]. apply float_eqb_nan in Hp as [Hp _].
  split; [done|]. split; [done|].
  split; [by apply (exact_int_intro _ e)|]. split; [by apply (exact_int_intro _ k)|].
  intros Hall. rewrite (the_float_intro _ _ He), (the_float_intro _ _ Hk).
  rewrite (pack_loop_spec node_states [best_objective; previous_bound; e; k]) in Hloop.
  - by injection Hloop as <-.
  - done.
  - by rewrite length_fmap, length_seq.
Qed.

(** X11.  The frame is written in full: what [_update] sends does not
    depend on what the buffer held when [numpy.empty] returned it, and
    its length is 4, plus one for every node state, plus the doubles of
    the node states. *)
Theorem pack_ignores_junk (junk1 junk2 : nat -> float) (best_objective previous_bound : float)
    (explored_nodes_count : Z) (node_states : list (list float)) :
  pack junk1 best_objective previous_bound explored_nodes_count node_states =
    pack junk2 best_objective previous_bound explored_nodes_count node_states /\
  forall frame,
    pack junk1 best_objective previous_bound explored_nodes_count node_states = Ok frame ->
    length frame = (4 + length node_states + length (concat node_states))%nat.
Proof.
  split.
  - rewrite !pack_chain.
    destruct (assert (PrimFloat.eqb best_objective best_objective)); [|done].
    destruct (assert (PrimFloat.eqb previous_bound previous_bound)); [|done].
    cbn [mbind result_bind].
    destruct (float_of_int explored_nodes_count) as [e|]; [|done]. cbn [mbind result_bind].
    destruct (assert (PrimFloat.eqb e e)); [|done]. cbn [mbind result_bind].
    destruct (int_of_float e) as [i|]; [|done]. cbn [mbind result_bind].
    destruct (assert (i =? explored_nodes_count)); [|done]. cbn [mbind result_bind].
    destruct (float_of_int (Z.of_nat (length node_states))) as [k|]; [|done].
    cbn [mbind result_bind].
    destruct (assert (PrimFloat.eqb k k)); [|done]. cbn [mbind result_bind].
    destruct (int_of_float k) as [i'|]; [|done]. cbn [mbind result_bind].
    destruct (assert (i' =? Z.of_nat (length node_states))); [|done].
    cbn [mbind result_bind].
    apply (pack_loop_rest node_states [best_objective; previous_bound; e; k]);
      by rewrite length_fmap, length_seq.
  - intros frame. rewrite pack_chain.
    destruct (assert (PrimFloat.eqb best_objective best_objective)); [|done].
    destruct (assert (PrimFloat.eqb previous_bound previous_bound)); [|done].
    cbn [mbind result_bind].
    destruct (float_of_int explored_nodes_count) as [e|]; [|done]. cbn [mbind result_bind].
    destruct (assert (PrimFloat.eqb e e)); [|done]. cbn [mbind result_bind].
    destruct (int_of_float e) as [i|]; [|done]. cbn [mbind result_bind].
    destruct (assert (i =? explored_nodes_count)); [|done]. cbn [mbind result_bind].
    destruct (float_of_int (Z.of_nat (length node_states))) as [k|]; [|done].
    cbn [mbind result_bind].
    destruct (assert (PrimFloat.eqb k k)); [|done]. cbn [mbind result_bind].
    destruct (int_of_float k) as [i'|]; [|done]. cbn [mbind result_bind].
    destruct (assert (i' =? Z.of_nat (length node_states))); [|done].
    cbn [mbind result_bind].
    intros H. apply pack_loop_length in H. rewrite H. simpl.
    rewrite length_fmap, length_seq, frame_states_length. lia.
Qed.

Lemma frame_states_inj (l l' : list (list float)) :
  Forall (fun udata => exact_int (Z.of_nat (length udata)) = true) l ->
  Forall (fun udata => exact_int (Z.of_nat (length udata)) = true) l' ->
  frame_states l = frame_states l' -> l = l'.
Proof.
  intros Hl. revert l'. induction Hl as [|u l Hu _ IH]; intros l' Hl' Heq.
  - destruct l' as [|u' l']; [done|]. by rewrite frame_states_cons in Heq.
  - destruct Hl' as [|u' l' Hu' Hl']; [by rewrite frame_states_cons in Heq|].
    rewrite !frame_states_cons in Heq. injection Heq as Hf Heq.
    assert (Hlen : length u = length u').
    { destruct (exact_int_spec _ Hu) as (_ & H1 & _).
      destruct (exact_int_spec _ Hu') as (_ & H2 & _).
      rewrite Hf, H2 in H1. injection H1 as H1. lia. }
    apply app_inj_1 in Heq as [-> Heq]; [|done]. f_equal. by apply IH.
Qed.

(** X12.  A frame determines the call that built it: two calls that
    build the same frame were given the same best objective, previous
    bound, number of explored nodes and node states.  The receiver can
    read every input back from the frame. *)
Theorem pack_frame_determines_inputs (junk junk' : nat -> float)
    (best_objective best_objective' previous_bound previous_bound' : float)
    (explored_nodes_count explored_nodes_count' : Z)
    (node_states node_states' : list (list float)) (frame : list float) :
  Forall (fun udata => exact_int (Z.of_nat (length udata)) = true) node_states ->
  Forall (fun udata => exact_int (Z.of_nat (length udata)) = true) node_states' ->
  pack junk best_objective previous_bound explored_nodes_count node_states = Ok frame ->
  pack junk' best_objective' previous_bound' explored_nodes_count' node_states' = Ok frame ->
  best_objective = best_objective' /\ previous_bound = previous_bound' /\
  explored_nodes_count = explored_nodes_count' /\ node_states = node_states'.
Proof.
  intros Hall Hall' H H'.
  destruct (pack_Ok_inv _ _ _ _ _ _ H) as (_ & _ & He & _ & Hf).
  destruct (pack_Ok_inv _ _ _ _ _ _ H') as (_ & _ & He' & _ & Hf').
  specialize (Hf Hall). specialize (Hf' Hall'). rewrite Hf in Hf'.
  injection Hf' as -> -> Hef _ Hs.
  split; [done|]. split; [done|]. split.
  - destruct (exact_int_spec _ He) as (_ & H1 & _).
    destruct (exact_int_spec _ He') as (_ & H2 & _).
    rewrite Hef, H2 in H1. by injection H1.
  - by apply frame_states_inj.
Qed.

Lemma pack_frame_determines_inputs_witness :
  Forall (fun udata => exact_int (Z.of_nat (length udata)) = true) [[0.1; 0.2]; [0.3]]%float /\
  pack (fun _ => 0%float) 2 1.5 7 [[0.1; 0.2]; [0.3]]%float =
    Ok [2; 1.5; 7; 2; 2; 0.1; 0.2; 1; 0.3]%float /\
  pack (fun _ => 1%float) 2 1.5 7 [[0.1; 0.2]; [0.3]]%float =
    Ok [2; 1.5; 7; 2; 2; 0.1; 0.2; 1; 0.3]%float /\
  2%float = 2%float /\ 1.5%float = 1.5%float /\ 7 = 7 /\
  [[0.1; 0.2]; [0.3]]%float = [[0.1; 0.2]; [0.3]]%float.
Proof.
  assert (Hall : Forall (fun udata => exact_int (Z.of_nat (length udata)) = true)
                   [[0.1; 0.2]; [0.3]]%float) by (by repeat constructor).
  assert (H0 : pack (fun _ => 0%float) 2 1.5 7 [[0.1; 0.2]; [0.3]]%float =
                 Ok [2; 1.5; 7; 2; 2; 0.1; 0.2; 1; 0.3]%float) by (by vm_compute).
  assert (H1 : pack (fun _ => 1%float) 2 1.5 7 [[0.1; 0.2]; [0.3]]%float =
                 Ok [2; 1.5; 7; 2; 2; 0.1; 0.2; 1; 0.3]%float) by (by vm_compute).
  split; [exact Hall|]. split; [exact H0|]. split; [exact H1|].
  exact (pack_frame_determines_inputs _ _ _ _ _ _ _ _ _ _ _ Hall Hall H0 H1).
Defined.

(** X13.  [_update] builds no frame from a best objective or a previous
    bound that is not a number: the call raises [AssertionError].  Nor
    does it build one from a number of explored nodes, or of node
    states, that a double cannot hold exactly: the call raises. *)
Theorem pack_rejects (junk : nat -> float) (best_objective previous_bound : float)
    (explored_nodes_count : Z) (node_states : list (list float)) :
  (is_nan best_objective = true \/ is_nan previous_bound = true ->
   pack junk best_objective previous_bound explored_nodes_count node_states =
     Raise AssertionError) /\
  (exact_int explored_nodes_count = false \/
   exact_int (Z.of_nat (length node_states)) = false ->
   exists e, pack junk best_objective previous_bound explored_nodes_count node_states =
     Raise e).
Proof.
  split.
  - rewrite pack_chain. unfold is_nan. intros [Hb|Hp].
    + apply negb_true_iff in Hb. by rewrite Hb.
    + apply negb_true_iff in Hp. rewrite Hp.
      by destruct (PrimFloat.eqb best_objective best_objective).
  - intros Hex.
    destruct (pack junk best_objective previous_bound explored_nodes_count node_states)
      as [frame|e] eqn:Hpack; [|by exists e].
    destruct (pack_Ok_inv _ _ _ _ _ _ Hpack) as (_ & _ & He & Hk & _).
    destruct Hex; congruence.
Qed.

(** X14.  [_update] returns only after a response without error.  When
    no frame is built it raises what building the frame raised; with no
    message pending it blocks in the probe; and when the status of the
    probe reports an error it raises [AssertionError]. *)
Theorem update_without_response (extract : list float -> float) (self : t)
    (junk : nat -> float) (best_objective previous_bound : float)
    (explored_nodes_count : Z) (node_states : list (list float)) (s : state) :
  (forall e,
     pack junk best_objective previous_bound explored_nodes_count node_states = Raise e ->
     _update extract self junk best_objective previous_bound explored_nodes_count
       node_states s = Throw e) /\
  (forall frame,
     pack junk best_objective previous_bound explored_nodes_count node_states = Ok frame ->
     (inbox s = [] ->
      _update extract self junk best_objective previous_bound explored_nodes_count
        node_states s = Block) /\
     (forall m rest, inbox s = m :: rest -> msg_error m <> 0 ->
      _update extract self junk best_objective previous_bound explored_nodes_count
        node_states s = Throw AssertionError)).
Proof.
  split.
  - intros e Hpack. unfold _update. rewrite Hpack. done.
  - intros frame Hpack. split.
    + intros Hin. by eapply update_blocks_without_response.
    + intros m rest Hin Herr. unfold _update. rewrite Hpack.
      unfold mbind at 1, M_bind at 1. cbn [lift].
      unfold mbind at 1, M_bind at 1. unfold Send at 1, log at 1.
      unfold mbind at 1, M_bind at 1. unfold Probe at 1. cbn [inbox]. rewrite Hin.
      unfold mbind at 1, M_bind at 1. cbn [status_error].
      by rewrite (proj2 (Z.eqb_neq _ _) Herr).
Qed.

End PackMore.

(** ** The handshake, continued *)

Section HandshakeMore.
Import MPI DispatcherProxy.

(** X15.  [_init] fails on every rank when the group does not have
    exactly one dispatcher: with no dispatcher, or with more than one,
    the sum of the process types is not 1 and the call raises
    [AssertionError].  A process type that is neither [worker] nor
    [dispatcher] raises [AssertionError] before any communication. *)
Theorem init_rejects_wrong_dispatcher_count (peers : list Z) (r : nat) (ptype : Z)
    (s : state) :
  peers !! r = Some ptype ->
  Forall (fun p => p = ProcessType.worker \/ p = ProcessType.dispatcher) peers ->
  foldr Z.add 0 peers <> ProcessType.dispatcher ->
  _init (world (length peers) (Z.of_nat r)) peers ptype s = Throw AssertionError /\
  forall ptype', ptype' <> ProcessType.worker -> ptype' <> ProcessType.dispatcher ->
    _init (world (length peers) (Z.of_nat r)) peers ptype' s = Throw AssertionError.
Proof.
  intros Hp Hall Hsum. split.
  - unfold _init. cbv zeta. cbn [rank world]. rewrite Nat2Z.id.
    rewrite (list_insert_id peers r ptype Hp).
    assert (Hv : ((ptype =? ProcessType.worker) || (ptype =? ProcessType.dispatcher)) = true).
    { rewrite Forall_forall in Hall. destruct (Hall ptype) as [->| ->]; [|done|done].
      by eapply list_elem_of_lookup_2. }
    rewrite Hv.
    cbv beta iota zeta delta [mbind M_bind lift allreduce log mret M_ret assert].
    destruct peers as [|p0 rest]; [done|].
    rewrite foldl_SUM. change (p0 + foldr Z.add 0 rest) with (foldr Z.add 0 (p0 :: rest)).
    by rewrite (proj2 (Z.eqb_neq _ _) Hsum).
  - intros ptype' Hw Hd. unfold _init. cbv zeta.
    rewrite (proj2 (Z.eqb_neq _ _) Hw), (proj2 (Z.eqb_neq _ _) Hd). done.
Qed.

Lemma init_rejects_wrong_dispatcher_count_witness :
  [0; 0; 0] !! 1%nat = Some 0 /\
  Forall (fun p => p = ProcessType.worker \/ p = ProcessType.dispatcher) [0; 0; 0] /\
  foldr Z.add 0 [0; 0; 0] <> ProcessType.dispatcher /\
  _init (world (length [0; 0; 0]) (Z.of_nat 1)) [0; 0; 0] 0 {| calls := []; inbox := [] |} =
    Throw AssertionError.
Proof.
  assert (H1 : [0; 0; 0] !! 1%nat = Some 0) by done.
  assert (H2 : Forall (fun p => p = ProcessType.worker \/ p = ProcessType.dispatcher) [0; 0; 0]).
  { repeat (constructor; [by left|]). constructor. }
  assert (H3 : foldr Z.add 0 [0; 0; 0] <> ProcessType.dispatcher) by done.
  split; [exact H1|]. split; [exact H2|]. split; [exact H3|].
  exact (proj1 (init_rejects_wrong_dispatcher_count [0; 0; 0] 1 0
                  {| calls := []; inbox := [] |} H1 H2 H3)).
Defined.

Lemma zip_replicate {A B : Type} (l : list A) (c : B) :
  zip l (replicate (length l) c) = (fun x => (x, c)) <$> l.
Proof. induction l as [|x l IH]; [done|]. simpl. by rewrite IH. Qed.

Lemma filter_snd_const {A : Type} (l : list A) (c color : Z) :
  base.filter (fun gc : A * Z => gc.2 = color) ((fun x => (x, c)) <$> l) =
    if decide (c = color) then (fun x => (x, c)) <$> l else [].
Proof.
  induction l as [|x l IH]; [by case_decide|].
  csimpl. rewrite filter_cons, IH. simpl. by case_decide.
Qed.

Lemma fmap_fst_const {A B : Type} (l : list A) (c : B) : ((fun x => (x, c)) <$> l).*1 = l.
Proof. induction l as [|x l IH]; [done|]. csimpl. by rewrite IH. Qed.

Lemma filter_all {A : Type} (P : A -> Prop) `{!forall x, Decision (P x)} (l : list A) :
  Forall P l -> base.filter P l = l.
Proof. induction 1 as [|x l Hx _ IH]; [done|]. by rewrite filter_cons_True, IH. Qed.

Lemma filter_none {A : Type} (P : A -> Prop) `{!forall x, Decision (P x)} (l : list A) :
  Forall (fun x => ~ P x) l -> base.filter P l = [].
Proof. induction 1 as [|x l Hx _ IH]; [done|]. by rewrite filter_cons_False, IH. Qed.

Lemma filter_ne_seq (a b : nat) :
  base.filter (fun x => x <> Z.of_nat a) (Z.of_nat <$> seq 0 (a + S b)) =
    (Z.of_nat <$> seq 0 a) ++ (Z.of_nat <$> seq (S a) b).
Proof.
  rewrite seq_app. simpl seq. rewrite fmap_app, fmap_cons, filter_app, filter_cons.
  rewrite decide_False by (intros H; by apply H).
  f_equal.
  - apply filter_all. apply Forall_forall. intros x Hx.
    apply list_elem_of_fmap in Hx as (y & -> & Hy). apply elem_of_seq in Hy. lia.
  - apply filter_all. apply Forall_forall. intros x Hx.
    apply list_elem_of_fmap in Hx as (y & -> & Hy). apply elem_of_seq in Hy. lia.
Qed.

Lemma split_group_shape (a b r : nat) (color : Z) :
  Split_group (world (a + S b) (Z.of_nat r)) (split_colors (a + S b) (Z.of_nat a)) color =
    if decide (color = 0) then (Z.of_nat <$> seq 0 a) ++ (Z.of_nat <$> seq (S a) b)
    else if decide (color = 1) then [Z.of_nat a] else [].
Proof.
  unfold Split_group. cbn [group world]. rewrite split_colors_shape.
  rewrite seq_app. simpl seq. rewrite fmap_app, fmap_cons.
  rewrite zip_with_app by (by rewrite length_fmap, length_seq, length_replicate).
  simpl zip_with.
  replace (replicate a 0) with (replicate (length (Z.of_nat <$> seq 0 a)) 0)
    by (by rewrite length_fmap, length_seq).
  replace (replicate b 0) with (replicate (length (Z.of_nat <$> seq (S a) b)) 0)
    by (by rewrite length_fmap, length_seq).
  rewrite !zip_replicate, filter_app, filter_cons, !filter_snd_const. simpl.
  destruct (decide (color = 0)) as [->|H0].
  - repeat case_decide; try done. by rewrite fmap_app, !fmap_fst_const.
  - destruct (decide (color = 1)) as [->|H1]; repeat case_decide; try done; congruence.
Qed.

(** X16.  [Split] puts the dispatcher alone into its communicator and
    all workers, in the order of their ranks, into theirs: in a group
    with exactly one dispatcher the communicator [_init] returns to a
    worker holds every rank but that of the dispatcher, [comm.size - 1]
    members, and the worker has in it its own rank, less one when it
    comes after the dispatcher; the communicator it returns to the
    dispatcher holds the dispatcher only. *)
Theorem init_worker_comm_excludes_dispatcher (peers : list Z) (r : nat) (ptype : Z)
    (s : state) :
  one_dispatcher peers -> peers !! r = Some ptype ->
  exists drank root wcomm s',
    _init (world (length peers) (Z.of_nat r)) peers ptype s = Return (drank, root, wcomm) s' /\
    (ptype = ProcessType.worker ->
     group wcomm = base.filter (fun x => x <> drank) (Z.of_nat <$> seq 0 (length peers)) /\
     size wcomm = Z.of_nat (length peers) - 1 /\
     rank wcomm = (if Z.of_nat r <? drank then Z.of_nat r else Z.of_nat r - 1)) /\
    (ptype = ProcessType.dispatcher ->
     Z.of_nat r = drank /\ group wcomm = [drank] /\ rank wcomm = 0).
Proof.
  intros Hone Hp. destruct (one_dispatcher_shape peers Hone) as (a & b & ->).
  assert (Hlen : length (replicate a 0 ++ 1 :: replicate b 0) = (a + S b)%nat).
  { rewrite length_app, length_replicate. simpl. by rewrite length_replicate. }
  rewrite Hlen in *.
  pose proof (lookup_lt_Some _ _ _ Hp) as Hr. rewrite Hlen in Hr.
  pose proof (_init_shape a b r s Hr) as H. cbv zeta in H. rewrite Hp in H.
  change (default 0 (Some ptype)) with ptype in H.
  eexists _, _, _, _. split; [exact H|].
  assert (Hpt : ptype = 1 <-> r = a).
  { destruct (decide (r = a)) as [->|Hne].
    - rewrite lookup_app_r in Hp by (by rewrite length_replicate).
      rewrite length_replicate, Nat.sub_diag in Hp. simpl in Hp. by simplify_eq.
    - split; [|done]. intros ->. exfalso.
      destruct (decide (r < a)%nat).
      + rewrite lookup_app_l in Hp by (rewrite length_replicate; lia).
        by apply lookup_replicate in Hp as [? _].
      + rewrite lookup_app_r in Hp by (rewrite length_replicate; lia).
        rewrite length_replicate in Hp.
        destruct (r - a)%nat as [|j] eqn:Hj; [lia|]. simpl in Hp.
        by apply lookup_replicate in Hp as [? _]. }
  split.
  - unfold ProcessType.worker. intros ->.
    assert (Hne : r <> a) by (intros Heq; apply Hpt in Heq; done).
    assert (Hg : group (split_comm (a + S b) (Z.of_nat a) r) =
                 base.filter (fun x => x <> Z.of_nat a) (Z.of_nat <$> seq 0 (a + S b))).
    { unfold split_comm. cbn [group].
      rewrite (proj2 (Z.eqb_neq _ _)) by lia. cbn [negb].
      by rewrite split_group_shape, decide_True, filter_ne_seq. }
    split; [done|]. split.
    + unfold size. rewrite Hg, filter_ne_seq, length_app, !length_fmap, !length_seq. lia.
    + rewrite split_comm_worker_rank by done.
      destruct (Nat.ltb_spec r a), (Z.ltb_spec (Z.of_nat r) (Z.of_nat a)); lia.
  - unfold ProcessType.dispatcher. intros ->.
    assert (r = a) as -> by (by apply Hpt).
    split; [done|]. unfold split_comm. cbn [group rank].
    rewrite Z.eqb_refl. cbn [negb]. split.
    + by rewrite split_group_shape, decide_False, decide_True.
    + unfold Split_rank. cbn [rank world]. rewrite Nat2Z.id, split_colors_shape.
      rewrite take_app_length' by (by rewrite length_replicate).
      rewrite filter_none; [done|].
      apply Forall_forall. intros x Hx. by apply elem_of_replicate in Hx as [-> _].
Qed.

Lemma init_worker_comm_excludes_dispatcher_witness :
  one_dispatcher [0; 1; 0; 0] /\ [0; 1; 0; 0] !! 2%nat = Some 0 /\
  exists drank root wcomm s',
    _init (world 4 2) [0; 1; 0; 0] 0 {| calls := []; inbox := [] |} =
      Return (drank, root, wcomm) s' /\
    (0 = ProcessType.worker ->
     group wcomm = base.filter (fun x => x <> drank) (Z.of_nat <$> seq 0 4) /\
     size wcomm = 4 - 1 /\
     rank wcomm = (if 2 <? drank then 2 else 2 - 1)) /\
    (0 = ProcessType.dispatcher ->
     2 = drank /\ group wcomm = [drank] /\ rank wcomm = 0).
Proof.
  assert (H1 : one_dispatcher [0; 1; 0; 0]).
  { split; [|reflexivity].
    repeat (constructor; [first [by left | by right]|]). constructor. }
  assert (H2 : [0; 1; 0; 0] !! 2%nat = Some 0) by done.
  split; [exact H1|]. split; [exact H2|].
  exact (init_worker_comm_excludes_dispatcher [0; 1; 0; 0] 2 0
           {| calls := []; inbox := [] |} H1 H2).
Defined.

(** X17.  No assertion of [_init] rejects a group without workers: in a
    group of one process, which is then the dispatcher, [_init] returns
    -1 as the rank of the root worker, which is no rank of the group. *)
Theorem init_alone_root_rank (peers : list Z) (ptype : Z) (s : state) :
  one_dispatcher peers -> length peers = 1%nat -> peers !! 0%nat = Some ptype ->
  exists wcomm s',
    _init (world (length peers) 0) peers ptype s = Return (0, -1, wcomm) s'.
Proof.
  intros Hone Hlen Hp. destruct (one_dispatcher_shape peers Hone) as (a & b & ->).
  rewrite length_app, length_replicate in Hlen. simpl in Hlen.
  rewrite length_replicate in Hlen.
  assert (a = 0%nat) as -> by lia. assert (b = 0%nat) as -> by lia.
  pose proof (_init_shape 0 0 0 s ltac:(lia)) as H. cbv zeta in H.
  simpl in Hp. injection Hp as <-. eexists _, _. exact H.
Qed.

Lemma init_alone_root_rank_witness :
  one_dispatcher [1] /\ length [1] = 1%nat /\ [1] !! 0%nat = Some 1 /\
  exists wcomm s',
    _init (world (length [1]) 0) [1] 1 {| calls := []; inbox := [] |} =
      Return (0, -1, wcomm) s'.
Proof.
  assert (H1 : one_dispatcher [1]).
  { split; [|reflexivity]. constructor; [by right|constructor]. }
  split; [exact H1|]. split; [reflexivity|]. split; [reflexivity|].
  exact (init_alone_root_rank [1] 1 {| calls := []; inbox := [] |} H1 eq_refl eq_refl).
Defined.

End HandshakeMore.

(** ** The control methods of [DispatcherProxy]

    [finalize], [barrier], [solve_finished] and [__del__] exchange no
    data with the dispatcher but empty messages, barriers and one
    broadcast.  A call is described by the MPI calls it makes, in order,
    and by what it returns or raises. *)

Module Control.
Import MPI DispatcherProxy.

Inductive event : Type :=
| EvBarrier (c : Comm)
| EvBcast (c : Comm) (root : Z)
| EvSendNothing (c : Comm) (dest tag : Z) (synchronous : bool)
| EvFree (c : Comm).

(** What a control method raises: an exception of the first part, or the
    [AttributeError] of [None.rank] and [None.Barrier] once [__del__] has
    set [worker_comm] to [None]. *)
Inductive raised : Type :=
| Raised (e : exn)
| AttributeError.

(** The MPI calls made, then the value returned or the exception. *)
Definition C (A : Type) : Type := list event * (A + raised).

#[global] Instance C_ret : MRet C := fun A a => ([], inl a).

#[global] Instance C_bind : MBind C := fun A B k m =>
  match m with
  | (tr, inl a) => let '(tr', o) := k a in (tr ++ tr', o)
  | (tr, inr e) => (tr, inr e)
  end.

Definition emit (ev : event) : C unit := ([ev], inl tt).

Definition raise {A : Type} (e : raised) : C A := ([], inr e).

(** [assert b] *)
Definition check (b : bool) : C unit :=
  if b then mret tt else raise (Raised AssertionError).

(** Modelled from the spec: [pybnb.mpi_utils.send_nothing] is not among
    the sources; it sends an empty message to [dest] under [tag], with a
    synchronous send when [synchronous] is set. *)
Definition send_nothing (c : Comm) (dest tag : Z) (synchronous : bool) : C unit :=
  emit (EvSendNothing c dest tag synchronous).

(** [self.worker_comm], about to be used. *)
Definition the_worker_comm (self : t) : C Comm :=
  match worker_comm self with
  | Some wcomm => mret wcomm
  | None => raise AttributeError
  end.

(** [x == self.root_worker_worker_comm_rank]; an integer is not [None]. *)
Definition is_root_worker_worker_comm_rank (self : t) (x : Z) : bool :=
  match root_worker_worker_comm_rank self with
  | Some y => x =? y
  | None => false
  end.

(** [_finalize()]; [from_root] is what the dispatcher, the root of the
    broadcast, passes to it. *)
Definition _finalize {A : Type} (self : t) (from_root : A) : C A :=
  wcomm ← the_worker_comm self;
  _ ← (if is_root_worker_worker_comm_rank self (rank wcomm)
       then send_nothing (comm self) (dispatcher_rank self) DispatcherAction.finalize false
       else mret tt);
  _ ← emit (EvBcast (comm self) (dispatcher_rank self));
  mret from_root.

Definition _barrier (self : t) : C unit :=
  wcomm ← the_worker_comm self;
  _ ← emit (EvBarrier wcomm);
  _ ← (if rank (comm self) =? root_worker_comm_rank self
       then send_nothing (comm self) (dispatcher_rank self) DispatcherAction.barrier true
       else mret tt);
  emit (EvBarrier (comm self)).

Definition _solve_finished (self : t) : C unit :=
  wcomm ← the_worker_comm self;
  _ ← check (is_root_worker_worker_comm_rank self (rank wcomm));
  send_nothing (comm self) (dispatcher_rank self) DispatcherAction.solve_finished true.

(** [__del__()]: the calls made and the proxy as the call leaves it. *)
Definition __del__ (self : t) : list event * t :=
  match worker_comm self with
  | Some wcomm =>
      ([EvFree wcomm],
       {| comm := comm self;
          worker_comm := None;
          dispatcher_rank := dispatcher_rank self;
          root_worker_comm_rank := root_worker_comm_rank self;
          root_worker_worker_comm_rank := root_worker_worker_comm_rank self |})
  | None => ([], self)
  end.

End Control.

(** ** [_ActionTimer]

    The timer and the [comm_time] of the proxy it is bound to.  The
    readings of [mpi4py.MPI.Wtime] are arguments. *)

Module _ActionTimer.

Record t : Type := {
  _start : option float;
  comm_time : float
}.

Definition start (self : t) (wtime : float) : result t :=
  _ ← assert (match _start self with None => true | Some _ => false end);
  Ok {| _start := Some wtime; comm_time := comm_time self |}.

Definition stop (self : t) (wtime : float) : result t :=
  match _start self with
  | Some started =>
      Ok {| _start := None;
            comm_time := PrimFloat.add (comm_time self) (PrimFloat.sub wtime started) |}
  | None => Raise AssertionError
  end.

(** [with self: body]: [__enter__] starts the timer; when it raises, the
    body does not run.  [__exit__] stops the timer when the body returns
    and when it raises, and what the body raised is raised again. *)
Definition with_ {A : Type} (self : t) (entered exited : float)
    (body : t -> t * result A) : t * result A :=
  match start self entered with
  | Ok self =>
      let '(self, r) := body self in
      match stop self exited with
      | Ok self => (self, r)
      | Raise e => (self, Raise e)
      end
  | Raise e => (self, Raise e)
  end.

End _ActionTimer.

Section ControlTheorems.
Import MPI DispatcherProxy Control.

Lemma proxy_init_shape (a b r : nat) (s : state) :
  let n := (a + S b)%nat in
  let peers := replicate a 0 ++ 1 :: replicate b 0 in
  (2 <= n)%nat -> (r < n)%nat -> r <> a ->
  DispatcherProxy.__init__ (world n (Z.of_nat r)) peers s =
    Return {| comm := world n (Z.of_nat r);
              worker_comm := Some (split_comm n (Z.of_nat a) r);
              dispatcher_rank := Z.of_nat a;
              root_worker_comm_rank := root_rank n (Z.of_nat a);
              root_worker_worker_comm_rank := Some (Z.of_nat n - 2) |}
           {| calls := calls s ++
                [CallAllreduce (world n (Z.of_nat r)); CallAllreduce (world n (Z.of_nat r));
                 CallSplit (world n (Z.of_nat r)) 0;
                 CallBcast (world n (Z.of_nat r)) (root_rank n (Z.of_nat a))];
              inbox := inbox s |}.
Proof.
  intros n peers Hn Hr Hne. unfold n, peers in *. clear n peers.
  destruct (root_rank_spec a b Hn) as [Hrne Hrange].
  set (root := root_rank (a + S b) (Z.of_nat a)) in *.
  unfold DispatcherProxy.__init__.
  pose proof (__init___head_shape a b r s Hr Hne) as Hhead. cbv zeta in Hhead.
  unfold mbind, M_bind at 1. rewrite Hhead. fold root.
  assert (Hobj : (passed_to_bcast (world (a + S b) (Z.of_nat r))
                    (replicate a 0 ++ 1 :: replicate b 0) <$>
                  (Z.of_nat <$> seq 0 (length (group (world (a + S b) (Z.of_nat r))))))
                 !! Z.to_nat root = Some (Some (Z.of_nat (a + S b) - 2))).
  { cbn [group world]. rewrite length_fmap, length_seq.
    rewrite !list_lookup_fmap, lookup_seq_lt by lia. cbn [fmap option_fmap option_map].
    f_equal. unfold passed_to_bcast. cbn [group world].
    change {| group := Z.of_nat <$> seq 0 (a + S b); rank := Z.of_nat (0 + Z.to_nat root) |}
      with (world (a + S b) (Z.of_nat (Z.to_nat root))).
    pose proof (__init___head_shape a b (Z.to_nat root) {| calls := []; inbox := [] |}
                  ltac:(lia) ltac:(lia)) as Hroot.
    cbv zeta in Hroot. simpl Nat.add. rewrite Hroot. fold root.
    rewrite (proj2 (Z.eqb_eq _ _)) by lia. f_equal. by apply root_worker_rank. }
  unfold bcast. cbv beta iota zeta delta [mbind M_bind log lift mret M_ret].
  cbn [calls inbox].
  assert (Hin : ((0 <=? root) && (root <? size (world (a + S b) (Z.of_nat r)))) = true).
  { unfold size. cbn [group world]. rewrite length_fmap, length_seq.
    apply andb_true_intro. split; [apply Z.leb_le|apply Z.ltb_lt]; lia. }
  rewrite Hin, Hobj. by rewrite <- !app_assoc.
Qed.

(** The worker whose rank among the workers is [comm.size - 2] is the
    root worker. *)
Lemma worker_rank_is_root (a b r : nat) :
  (2 <= a + S b)%nat -> (r < a + S b)%nat -> r <> a ->
  (rank (split_comm (a + S b) (Z.of_nat a) r) =? Z.of_nat (a + S b) - 2) =
  (Z.of_nat r =? root_rank (a + S b) (Z.of_nat a)).
Proof.
  intros Hn Hr Hne. rewrite split_comm_worker_rank by done. unfold root_rank.
  destruct (Nat.ltb_spec r a);
    destruct (Z.eqb_spec (Z.of_nat a) (Z.of_nat (a + S b) - 1));
    repeat match goal with |- context [?x =? ?y] => destruct (Z.eqb_spec x y) end; lia.
Qed.

(** X18.  The methods agree on who the root worker is.  For the proxy
    [__init__] builds on a worker, the test of [_finalize] and
    [_solve_finished], on the rank among the workers, and the test of
    [_barrier], on the rank among all processes, hold on the same
    process.  The root worker, and no other worker, sends the empty
    [finalize] and [barrier] messages to the dispatcher; every worker
    takes part in the broadcast of [_finalize], rooted at the
    dispatcher, and in the two barriers of [_barrier], first among the
    workers; [_solve_finished] sends its message on the root worker and
    raises [AssertionError], sending nothing, on any other. *)
Theorem control_methods_agree_on_root (A : Type) (peers : list Z) (r : nat) (s : state)
    (from_root : A) :
  (2 <= length peers)%nat -> one_dispatcher peers ->
  peers !! r = Some ProcessType.worker ->
  exists proxy wcomm s',
    DispatcherProxy.__init__ (world (length peers) (Z.of_nat r)) peers s = Return proxy s' /\
    worker_comm proxy = Some wcomm /\
    peers !! Z.to_nat (dispatcher_rank proxy) = Some ProcessType.dispatcher /\
    let root := bool_decide (Z.of_nat r = root_worker_comm_rank proxy) in
    _finalize proxy from_root =
      ((if root
        then [EvSendNothing (comm proxy) (dispatcher_rank proxy) DispatcherAction.finalize false]
        else []) ++ [EvBcast (comm proxy) (dispatcher_rank proxy)],
       inl from_root) /\
    _barrier proxy =
      ([EvBarrier wcomm] ++
       (if root
        then [EvSendNothing (comm proxy) (dispatcher_rank proxy) DispatcherAction.barrier true]
        else []) ++ [EvBarrier (comm proxy)],
       inl tt) /\
    _solve_finished proxy =
      (if root
       then ([EvSendNothing (comm proxy) (dispatcher_rank proxy)
                DispatcherAction.solve_finished true], inl tt)
       else ([], inr (Raised AssertionError))).
Proof.
  intros Hn Hone Hp. destruct (one_dispatcher_shape peers Hone) as (a & b & ->).
  assert (Hlen : length (replicate a 0 ++ 1 :: replicate b 0) = (a + S b)%nat).
  { rewrite length_app, length_replicate. simpl. by rewrite length_replicate. }
  rewrite Hlen in *.
  pose proof (lookup_lt_Some _ _ _ Hp) as Hr. rewrite Hlen in Hr.
  assert (Hne : r <> a).
  { intros ->. rewrite lookup_app_r in Hp by (by rewrite length_replicate).
    rewrite length_replicate, Nat.sub_diag in Hp. done. }
  pose proof (proxy_init_shape a b r s Hn Hr Hne) as Hinit. cbv zeta in Hinit.
  eexists _, _, _. split; [exact Hinit|].
  cbn [comm worker_comm dispatcher_rank root_worker_comm_rank root_worker_worker_comm_rank].
  split; [reflexivity|]. split.
  { rewrite Nat2Z.id, lookup_app_r by (by rewrite length_replicate).
    by rewrite length_replicate, Nat.sub_diag. }
  pose proof (worker_rank_is_root a b r Hn Hr Hne) as Hroot.
  cbv zeta. unfold _finalize, _barrier, _solve_finished, the_worker_comm,
    is_root_worker_worker_comm_rank, check, send_nothing, emit.
  cbn [comm worker_comm dispatcher_rank root_worker_comm_rank root_worker_worker_comm_rank
       rank world].
  cbv beta iota zeta delta [mbind C_bind mret C_ret raise].
  rewrite Hroot.
  destruct (Z.eqb_spec (Z.of_nat r) (root_rank (a + S b) (Z.of_nat a))) as [Heq|Hneq].
  - rewrite bool_decide_eq_true_2 by done. done.
  - rewrite bool_decide_eq_false_2 by done. done.
Qed.

Lemma control_methods_agree_on_root_witness :
  (2 <= length [1; 0; 0])%nat /\ one_dispatcher [1; 0; 0] /\
  [1; 0; 0] !! 2%nat = Some ProcessType.worker /\
  exists proxy wcomm s',
    DispatcherProxy.__init__ (world 3 2) [1; 0; 0] {| calls := []; inbox := [] |} =
      Return proxy s' /\
    worker_comm proxy = Some wcomm /\
    [1; 0; 0] !! Z.to_nat (dispatcher_rank proxy) = Some ProcessType.dispatcher /\
    let root := bool_decide (2 = root_worker_comm_rank proxy) in
    _finalize proxy 0 =
      ((if root
        then [EvSendNothing (comm proxy) (dispatcher_rank proxy) DispatcherAction.finalize false]
        else []) ++ [EvBcast (comm proxy) (dispatcher_rank proxy)],
       inl 0) /\
    _barrier proxy =
      ([EvBarrier wcomm] ++
       (if root
        then [EvSendNothing (comm proxy) (dispatcher_rank proxy) DispatcherAction.barrier true]
        else []) ++ [EvBarrier (comm proxy)],
       inl tt) /\
    _solve_finished proxy =
      (if root
       then ([EvSendNothing (comm proxy) (dispatcher_rank proxy)
                DispatcherAction.solve_finished true], inl tt)
       else ([], inr (Raised AssertionError))).
Proof.
  assert (H1 : (2 <= length [1; 0; 0])%nat) by (simpl; lia).
  assert (H2 : one_dispatcher [1; 0; 0]).
  { split; [|reflexivity].
    repeat (constructor; [first [by left | by right]|]). constructor. }
  assert (H3 : [1; 0; 0] !! 2%nat = Some ProcessType.worker) by done.
  split; [exact H1|]. split; [exact H2|]. split; [exact H3|].
  exact (control_methods_agree_on_root Z [1; 0; 0] 2 {| calls := []; inbox := [] |} 0
           H1 H2 H3).
Defined.

(** X19.  [__del__] releases the worker communicator once: a second
    call makes no MPI call.  After it no control method touches the
    released communicator: [_finalize], [_barrier] and [_solve_finished]
    raise [AttributeError] before any MPI call. *)
Theorem del_releases_once (A : Type) (self : t) (from_root : A) :
  let '(released, self') := __del__ self in
  released = (match worker_comm self with Some wcomm => [EvFree wcomm] | None => [] end) /\
  worker_comm self' = None /\
  __del__ self' = ([], self') /\
  _finalize self' from_root = ([], inr AttributeError) /\
  _barrier self' = ([], inr AttributeError) /\
  _solve_finished self' = ([], inr AttributeError).
Proof.
  unfold __del__. destruct (worker_comm self) as [wcomm|] eqn:Hw.
  - repeat split; done.
  - unfold _finalize, _barrier, _solve_finished, the_worker_comm. rewrite Hw.
    repeat split; done.
Qed.

End ControlTheorems.

Section TimerTheorems.
Import _ActionTimer.

(** X20.  A [with] block on a timer that is not running leaves the
    timer not running and adds the time between entry and exit to
    [comm_time], whether the body returns or raises; what the body
    returned or raised is passed on.  Entering a running timer raises
    [AssertionError] and the body does not run; a block nested in a
    block therefore raises, and the outer block still stops the timer
    and counts its time. *)
Theorem timer_with_block (A : Type) (self : t) (entered exited entered' exited' : float)
    (r : result A) (inner : t -> t * result A) :
  _start self = None ->
  with_ self entered exited (fun timer => (timer, r)) =
    ({| _start := None;
        comm_time := PrimFloat.add (comm_time self) (PrimFloat.sub exited entered) |}, r) /\
  with_ self entered exited (fun timer => with_ timer entered' exited' inner) =
    ({| _start := None;
        comm_time := PrimFloat.add (comm_time self) (PrimFloat.sub exited entered) |},
     Raise AssertionError).
Proof.
  intros Hs. unfold with_, start, stop. rewrite Hs. done.
Qed.

Lemma timer_with_block_witness :
  _start {| _start := None; comm_time := 0 |} = None /\
  with_ {| _start := None; comm_time := 0 |} 1 3 (fun timer => (timer, Ok tt)) =
    ({| _start := None; comm_time := 2 |}, Ok tt).
Proof.
  split; [reflexivity|].
  apply (timer_with_block unit {| _start := None; comm_time := 0 |} 1 3 1 3 (Ok tt)
           (fun timer => (timer, Ok tt)) eq_refl).
Defined.

End TimerTheorems.

(** ** Draining a queue *)

Section QueueDrain.
Context {item : Type}.
Import _NoThreadingMaxPriorityFirstQueue.
Implicit Types self : _NoThreadingMaxPriorityFirstQueue.t item.

(** [get] until it returns [None], at most [n] times: the items
    returned, in order. *)
Fixpoint queue_drain (n : nat) self : list item :=
  match n with
  | O => []
  | S n' =>
      match get self with
      | (Some it, self') => it :: queue_drain n' self'
      | (None, _) => []
      end
  end.

(** [x] leaves the queue before [y]: its priority is not below that of
    [y], and when the two are equal its counter is the lower one. *)
Definition served_before (x y : float * Z * item) : Prop :=
  PrimFloat.leb y.1.1 x.1.1 = true /\
  (PrimFloat.eqb y.1.1 x.1.1 = true -> x.1.2 < y.1.2).

Lemma queue_drain_spec (n : nat) self :
  queue_reachable self -> n = length (_heap self) ->
  exists served,
    queue_drain n self = served.*2 /\
    served ≡ₚ queued self /\
    StronglySorted served_before served.
Proof.
  revert self. induction n as [|n IH]; intros self Hreach Hn.
  - exists []. destruct (_heap self) eqn:Hheap; [|done].
    unfold queued. rewrite Hheap. repeat split; constructor.
  - destruct (queue_reachable_inv self Hreach) as (_ & Hwf & _ & _).
    destruct (queue_get_nonempty self) as (k & c & it & heap' & Hget & _ & Hperm & Hmin).
    { destruct (_heap self); done. }
    destruct (Hmin Hwf) as [_ Hall].
    set (self' := {| _count := _count self; _heap := heap' |}) in *.
    assert (Hreach' : queue_reachable self') by (by eapply queue_reach_get).
    destruct (IH self' Hreach') as (served & Hdrain & Hperm' & Hsorted).
    { apply Permutation_length in Hperm. simpl in Hperm. simpl. lia. }
    pose proof (queued_perm self self' (k, c, it) Hperm) as Hq. simpl in Hq.
    exists ((PrimFloat.opp k, c, it) :: served). split; [|split].
    + cbn [queue_drain]. rewrite Hget. csimpl. by rewrite Hdrain.
    + by rewrite Hq, Hperm'.
    + constructor; [done|]. apply Forall_forall. intros [[p' c'] it'] Hin.
      destruct (queued_counters self Hreach) as [_ Hnd].
      rewrite Hperm' in Hin.
      assert (Hin' : (PrimFloat.opp p', c', it') ∈ _heap self).
      { apply elem_of_queued. rewrite Hq. by right. }
      assert (Hink : (k, c, it) ∈ _heap self) by (rewrite Hperm; left).
      destruct Hwf as [Hok _]. rewrite Forall_forall in Hok, Hall.
      destruct (tuple_le_priorities (k, c, it) (PrimFloat.opp p', c', it')
                  (Hok _ Hink) (Hok _ Hin') (Hall _ Hin')) as [Hle Heq].
      simpl in Hle, Heq. rewrite float_opp_involutive in Hle, Heq.
      split; [done|]. simpl. intros He. specialize (Heq He).
      assert (c <> c'); [|lia].
      intros <-. rewrite Hq in Hnd. simpl in Hnd. apply NoDup_cons in Hnd as [Hnot _].
      apply Hnot. apply list_elem_of_fmap. by exists (p', c, it').
Qed.

(** X21.  Draining a queue sorts it: as many [get]s as the queue has
    entries return every queued item once, in the order of their
    priorities, highest first, and items of equal priority in the order
    they were put. *)
Theorem queue_drain_sorted self :
  queue_reachable self ->
  exists served,
    queue_drain (length (_heap self)) self = served.*2 /\
    served ≡ₚ queued self /\
    StronglySorted served_before served.
Proof.
  intros Hreach.
  destruct (queue_reachable_inv self Hreach) as (_ & Hwf & _ & _).
  destruct (queue_drain_spec (length (_heap self)) self Hreach eq_refl)
    as (served & Hdrain & Hperm & Hsorted).
  exists served. split; [done|]. by split.
Qed.

End QueueDrain.

Lemma queue_drain_sorted_witness :
  queue_reachable example_queue /\
  exists served,
    queue_drain (length (_NoThreadingMaxPriorityFirstQueue._heap example_queue))
      example_queue = served.*2 /\
    served ≡ₚ queued example_queue /\
    StronglySorted served_before served.
Proof.
  split; [apply example_queue_reachable|].
  apply (queue_drain_sorted example_queue example_queue_reachable).
Defined.
